(** * Slot simulation core: Monte Carlo engine, RTP optimizer, churn classifier

    Shallow embedding of
    - [templates/math_simulation.py]  (spin engine, ways-to-win evaluator,
      free-spin cascade, statistics accumulator, jurisdiction compliance
      over the static table of [config/settings.py]), and
    - [tools/tier1_upgrades.py]: its two generated scripts (paytable
      optimizer, player behaviour model) and the jurisdiction intersection
      tool.

    Python [float] is IEEE-754 binary64, which is exactly Rocq's primitive
    [float]; Python [int] is [Z].  Exceptions are an explicit outcome, and
    the only unbounded loop (the free-spin cascade) is run with fuel. *)

From Stdlib Require Import ZArith NArith QArith Qround List String Bool Lia Floats.
From Stdlib Require Import DecimalString DecimalZ Permutation.
Import ListNotations.

Set Warnings "-inexact-float".
Local Close Scope Q_scope.
Local Open Scope string_scope.
Local Open Scope list_scope.
Local Open Scope Z_scope.

(** ** Outcomes of a Python computation *)

Inductive exn : Type :=
| IndexError
| KeyError
| ValueError
| ZeroDivisionError
| OverflowError.

Inductive result (A : Type) : Type :=
| Ok (a : A)
| Raise (e : exn)
| OutOfFuel.

Arguments Ok {A} a.
Arguments Raise {A} e.
Arguments OutOfFuel {A}.

Definition bind {A B : Type} (c : result A) (k : A -> result B) : result B :=
  match c with
  | Ok a => k a
  | Raise e => Raise e
  | OutOfFuel => OutOfFuel
  end.

Declare Scope py_scope.
Delimit Scope py_scope with py.
Notation "x <- c ;; k" := (bind c (fun x => k))
  (at level 100, c at next level, right associativity) : py_scope.
Notation "' pat <- c ;; k" := (bind c (fun x => match x with pat => k end))
  (at level 100, pat pattern, c at next level, right associativity) : py_scope.
Local Open Scope py_scope.

(** [for x in xs: s = body(s, x)] with exceptions propagating. *)
Fixpoint for_each {A S : Type} (xs : list A) (s : S) (body : S -> A -> result S)
  : result S :=
  match xs with
  | [] => Ok s
  | x :: rest => s' <- body s x ;; for_each rest s' body
  end.

(** [xs[i]] on a Python list. *)
Definition index {A : Type} (xs : list A) (i : nat) : result A :=
  match nth_error xs i with
  | Some x => Ok x
  | None => Raise IndexError
  end.

(** A [dict] keeps insertion order; keys are unique in a real dict. *)
Fixpoint dict_get {K V : Type} (eqb : K -> K -> bool) (k : K) (d : list (K * V))
  : option V :=
  match d with
  | [] => None
  | (k', v) :: rest => if eqb k k' then Some v else dict_get eqb k rest
  end.

Definition dict_keys {K V : Type} (d : list (K * V)) : list K := map fst d.

(** ** Python numbers *)

(** [float(n)] for an [int]: the correctly rounded binary64 value,
    [OverflowError] beyond the finite range. *)
Definition float_of_int (n : Z) : result float :=
  match binary_normalize prec emax n 0 false with
  | S754_infinity _ => Raise OverflowError
  | sf => Ok (SF2Prim sf)
  end.

(** [x * n], [x] a float and [n] an int. *)
Definition mul_float_int (x : float) (n : Z) : result float :=
  y <- float_of_int n ;; Ok (x * y)%float.

(** [x / y] on floats raises on a zero divisor of either sign. *)
Definition truediv (x y : float) : result float :=
  if (y =? 0)%float then Raise ZeroDivisionError else Ok (x / y)%float.

(** [x / n], [n] an int. *)
Definition truediv_float_int (x : float) (n : Z) : result float :=
  y <- float_of_int n ;; truediv x y.

(** [int(x)]: truncation toward zero. *)
Definition int_of_float (x : float) : result Z :=
  match Prim2SF x with
  | S754_nan => Raise ValueError
  | S754_infinity _ => Raise OverflowError
  | S754_zero _ => Ok 0
  | S754_finite s m e =>
      let a := if 0 <=? e then Z.pos m * 2 ^ e else Z.pos m / 2 ^ (- e) in
      Ok (if s then - a else a)
  end.

(** [x == n] between a float and an int compares the exact values. *)
Definition float_eq_int (x : float) (n : Z) : bool :=
  match Prim2SF x with
  | S754_zero _ => n =? 0
  | S754_finite s m e =>
      let a := if s then Z.neg m else Z.pos m in
      if 0 <=? e then a * 2 ^ e =? n else a =? n * 2 ^ (- e)
  | _ => false
  end.

(** [max(a, b)] on floats: [b] only when it is strictly greater. *)
Definition fmax (a b : float) : float := if (a <? b)%float then b else a.

(** ** Configuration block of the simulation template
    ([math_simulation.py], lines 28-98) *)

Definition symbol : Type := string.

Record config : Type := mkConfig {
  NUM_REELS : nat;
  NUM_ROWS : nat;
  REEL_STRIPS : list (list symbol);
  PAYTABLE : list (symbol * list (Z * float));
  WILD_SYMBOL : symbol;
  SCATTER_SYMBOL : symbol;
  FREE_SPIN_TRIGGER : list (Z * Z);
  FREE_SPIN_MULTIPLIER : Z;
  FREE_SPIN_RETRIGGER : bool
}.

Definition default_config : config := {|
  NUM_REELS := 5;
  NUM_ROWS := 3;
  REEL_STRIPS := [
    [ "H1"; "L1"; "L2"; "H2"; "L3"; "L4"; "L1"; "H3";
      "L2"; "L3"; "L4"; "H4"; "L1"; "L2"; "L3"; "SC";
      "L4"; "H1"; "L1"; "L2"; "WD"; "L3"; "L4"; "H2";
      "L1"; "L2"; "H5"; "L3"; "L4"; "L1"; "L2"; "L3" ];
    [ "L1"; "H2"; "L2"; "L3"; "L4"; "H1"; "L1"; "L2";
      "H3"; "L3"; "L4"; "L1"; "SC"; "L2"; "L3"; "H4";
      "L4"; "L1"; "L2"; "WD"; "L3"; "H5"; "L4"; "L1";
      "L2"; "L3"; "H2"; "L4"; "L1"; "L2"; "L3"; "L4" ];
    [ "H1"; "L2"; "L3"; "L4"; "L1"; "H3"; "L2"; "SC";
      "L3"; "L4"; "H2"; "L1"; "L2"; "L3"; "WD"; "L4";
      "H4"; "L1"; "L2"; "L3"; "L4"; "H5"; "L1"; "L2";
      "L3"; "L4"; "L1"; "H1"; "L2"; "L3"; "L4"; "L1" ];
    [ "L1"; "L2"; "H2"; "L3"; "L4"; "L1"; "H1"; "L2";
      "L3"; "H4"; "L4"; "L1"; "L2"; "SC"; "L3"; "L4";
      "H3"; "L1"; "L2"; "L3"; "WD"; "L4"; "H5"; "L1";
      "L2"; "L3"; "L4"; "L1"; "L2"; "H2"; "L3"; "L4" ];
    [ "L2"; "L3"; "H1"; "L4"; "L1"; "L2"; "H3"; "L3";
      "L4"; "L1"; "H2"; "L2"; "L3"; "L4"; "SC"; "L1";
      "H4"; "L2"; "L3"; "L4"; "H5"; "L1"; "WD"; "L2";
      "L3"; "L4"; "L1"; "L2"; "L3"; "H1"; "L4"; "L1" ] ];
  PAYTABLE := [
    ("H1", [(3, 2.00%float); (4, 8.00%float); (5, 40.00%float)]);
    ("H2", [(3, 1.50%float); (4, 5.00%float); (5, 25.00%float)]);
    ("H3", [(3, 1.00%float); (4, 4.00%float); (5, 20.00%float)]);
    ("H4", [(3, 0.80%float); (4, 3.00%float); (5, 15.00%float)]);
    ("H5", [(3, 0.60%float); (4, 2.50%float); (5, 10.00%float)]);
    ("L1", [(3, 0.40%float); (4, 1.50%float); (5, 5.00%float)]);
    ("L2", [(3, 0.30%float); (4, 1.00%float); (5, 4.00%float)]);
    ("L3", [(3, 0.25%float); (4, 0.80%float); (5, 3.00%float)]);
    ("L4", [(3, 0.20%float); (4, 0.60%float); (5, 2.00%float)]);
    ("WD", []);
    ("SC", []) ];
  WILD_SYMBOL := "WD";
  SCATTER_SYMBOL := "SC";
  FREE_SPIN_TRIGGER := [(3, 10); (4, 15); (5, 25)];
  FREE_SPIN_MULTIPLIER := 3;
  FREE_SPIN_RETRIGGER := true
|}.

Definition grid : Type := list (list symbol).

(** ** WinEvaluator: [evaluate_ways_win] (lines 144-184) and
    [count_scatters] (lines 187-194) *)

Section WinEvaluator.
Variable cfg : config.

(** [PAYTABLE[s]]; the evaluator applies it to keys of the paytable only,
    so the default for an absent key is never reached there. *)
Definition pays_of (s : symbol) : list (Z * float) :=
  match dict_get String.eqb s (PAYTABLE cfg) with
  | Some pays => pays
  | None => []
  end.

Definition truthy {A : Type} (d : list A) : bool :=
  match d with [] => false | _ :: _ => true end.

(** [[s for s in PAYTABLE if s not in (WILD_SYMBOL, SCATTER_SYMBOL)
      and PAYTABLE[s]]] *)
Definition paying_symbols : list symbol :=
  filter (fun s => negb (String.eqb s (WILD_SYMBOL cfg) || String.eqb s (SCATTER_SYMBOL cfg))
                   && truthy (pays_of s))
         (dict_keys (PAYTABLE cfg)).

(** [sum(1 for row in range(NUM_ROWS)
         if grid[reel_idx][row] == symbol or grid[reel_idx][row] == WILD_SYMBOL)] *)
Definition reel_count (g : grid) (sym : symbol) (reel_idx : nat) : result Z :=
  for_each (seq 0 (NUM_ROWS cfg)) 0 (fun count row =>
    column <- index g reel_idx ;;
    cell <- index column row ;;
    Ok (if String.eqb cell sym || String.eqb cell (WILD_SYMBOL cfg)
        then count + 1 else count)).

(** The reel loop with its [break]: returns [counts_per_reel]; the
    variable [consecutive_reels] always equals its length. *)
Fixpoint count_reels (g : grid) (sym : symbol) (reels : list nat)
         (counts_per_reel : list Z) : result (list Z) :=
  match reels with
  | [] => Ok counts_per_reel
  | reel_idx :: rest =>
      count <- reel_count g sym reel_idx ;;
      if 0 <? count
      then count_reels g sym rest (counts_per_reel ++ [count])
      else Ok counts_per_reel
  end.

(** [ways = 1; for i in range(length): ways *= counts_per_reel[i]] *)
Definition ways_of (counts_per_reel : list Z) (length : nat) : result Z :=
  for_each (seq 0 length) 1 (fun ways i =>
    c <- index counts_per_reel i ;; Ok (ways * c)).

(** [for length in range(consecutive_reels, 2, -1)] with its [break]:
    the first length found in the symbol's pays is paid. *)
Fixpoint pay_longest (pays : list (Z * float)) (counts_per_reel : list Z)
         (lengths : list nat) : result (option float) :=
  match lengths with
  | [] => Ok None
  | length :: rest =>
      match dict_get Z.eqb (Z.of_nat length) pays with
      | Some mult =>
          ways <- ways_of counts_per_reel length ;;
          win <- mul_float_int mult ways ;;
          Ok (Some win)
      | None => pay_longest pays counts_per_reel rest
      end
  end.

(** [range(consecutive_reels, 2, -1)] *)
Definition lengths_down (consecutive_reels : nat) : list nat :=
  rev (seq 3 (consecutive_reels - 2)).

(** Body of [for symbol in paying_symbols]: the win added to
    [total_win], if any. *)
Definition symbol_win (g : grid) (sym : symbol) : result (option float) :=
  counts_per_reel <- count_reels g sym (seq 0 (NUM_REELS cfg)) [] ;;
  let consecutive_reels := List.length counts_per_reel in
  if (consecutive_reels <? 3)%nat then Ok None
  else pay_longest (pays_of sym) counts_per_reel (lengths_down consecutive_reels).

Definition add_win (total_win : float) (w : option float) : float :=
  match w with
  | Some win => (total_win + win)%float
  | None => total_win
  end.

Definition evaluate_ways_win (g : grid) : result float :=
  for_each paying_symbols 0%float (fun total_win sym =>
    w <- symbol_win g sym ;; Ok (add_win total_win w)).

(** [count_scatters] *)
Definition count_scatters (g : grid) : Z :=
  fold_left (fun count reel =>
    fold_left (fun count sym =>
      if String.eqb sym (SCATTER_SYMBOL cfg) then count + 1 else count) reel count)
    g 0.

End WinEvaluator.

(** The grid of reel stops 0, 0, 0, 0, 0 on the default strips. *)
Definition grid0 : grid :=
  [["H1"; "L1"; "L2"]; ["L1"; "H2"; "L2"]; ["H1"; "L2"; "L3"];
   ["L1"; "L2"; "H2"]; ["L2"; "L3"; "H1"]].


(** ** The evaluator in whole-list form

    The loops of [evaluate_ways_win], with their [break]s, written as
    operations on whole lists: the form the proofs go through. *)

Section WaysRule.
Variable cfg : config.

(** A grid as [spin_reels] builds it: [NUM_REELS] columns of [NUM_ROWS]. *)
Definition well_formed_grid (g : grid) : Prop :=
  List.length g = NUM_REELS cfg /\
  Forall (fun column => List.length column = NUM_ROWS cfg) g.

(** Paying symbols: paytable keys with pays, wild and scatter excluded. *)
Definition rule_paying (s : symbol) : bool :=
  negb (String.eqb s (WILD_SYMBOL cfg))
  && negb (String.eqb s (SCATTER_SYMBOL cfg))
  && truthy (pays_of cfg s).

(** Cells of one reel equal to the symbol or to the wild. *)
Definition rule_matches (sym : symbol) (column : list symbol) : Z :=
  Z.of_nat (List.length
    (filter (fun cell => String.eqb cell sym || String.eqb cell (WILD_SYMBOL cfg))
            column)).

(** Left to right, stop at the first reel with zero matches. *)
Fixpoint leading_run (counts : list Z) : list Z :=
  match counts with
  | [] => []
  | c :: rest => if 0 <? c then c :: leading_run rest else []
  end.

(** The longest length [L], [3 <= L <= run], present in the pays. *)
Definition rule_longest (pays : list (Z * float)) (run : nat) : option Z :=
  match filter (fun k => (3 <=? k) && (k <=? Z.of_nat run)) (dict_keys pays) with
  | [] => None
  | k :: ks => Some (fold_right Z.max k ks)
  end.

(** Ways of a run of length [L]: product of the first [L] counts. *)
Definition rule_ways (counts : list Z) (L : nat) : Z :=
  fold_right Z.mul 1 (firstn L counts).

(** One symbol pays at most once: the multiplier of the longest length
    times the ways, or nothing. *)
Definition rule_symbol_win (g : grid) (sym : symbol) : result (option float) :=
  let run := leading_run (map (rule_matches sym) g) in
  if (List.length run <? 3)%nat then Ok None
  else
    match rule_longest (pays_of cfg sym) (List.length run) with
    | None => Ok None
    | Some L =>
        match dict_get Z.eqb L (pays_of cfg sym) with
        | None => Ok None
        | Some mult =>
            win <- mul_float_int mult (rule_ways run (Z.to_nat L)) ;;
            Ok (Some win)
        end
    end.

(** [[f(x) for x in xs]] with exceptions propagating. *)
Fixpoint map_result {A B : Type} (f : A -> result B) (xs : list A)
  : result (list B) :=
  match xs with
  | [] => Ok []
  | x :: rest => y <- f x ;; ys <- map_result f rest ;; Ok (y :: ys)
  end.

(** Per-symbol payouts, in paytable order, are summed. *)
Definition rule_ways_win (g : grid) : result float :=
  wins <- map_result (rule_symbol_win g)
            (filter rule_paying (dict_keys (PAYTABLE cfg))) ;;
  Ok (fold_left (add_win) wins 0%float).

End WaysRule.

(** Cells of a reel showing exactly the symbol [s]. *)
Definition occurrences (s : symbol) (column : list symbol) : Z :=
  Z.of_nat (count_occ string_dec column s).

(** A grid with a wild on reel 2 (the first spin of reel stops 6, 19, 28,
    14, 10 on the default strips). *)
Definition grid_wild : grid :=
  [["L1"; "H3"; "L2"]; ["WD"; "L3"; "H5"]; ["L2"; "L3"; "L4"];
   ["L3"; "L4"; "H3"]; ["H2"; "L2"; "L3"]].

(** A grid with wilds on reels 1 and 3: H1 runs over four reels in
    2 * 1 * 2 * 1 ways, L2 over four reels and L3 over three in one way. *)
Definition grid_ways : grid :=
  [["H1"; "WD"; "L1"]; ["H1"; "L2"; "L3"]; ["WD"; "H1"; "L4"];
   ["H1"; "L2"; "L1"]; ["L3"; "L4"; "L1"]].

(** ** The ways-to-win payout of the design document

    The reference [evaluate_ways_win] is compared with.  It is written
    from the words of the design document with the list functions and the
    float operations of the standard library only: it uses no loop,
    lookup, conversion or accumulation of the evaluator. *)

Section WaysPayout.
Variable cfg : config.

(** The pays of a symbol: the lengths its paytable entry lists, each with
    its multiplier. *)
Definition payout_table (sym : symbol) : list (Z * float) :=
  match find (fun entry => String.eqb sym (fst entry)) (PAYTABLE cfg) with
  | Some entry => snd entry
  | None => []
  end.

(** A paying symbol: neither the wild nor the scatter, with at least one
    length in its pays. *)
Definition pays_something (sym : symbol) : bool :=
  negb (String.eqb sym (WILD_SYMBOL cfg))
  && negb (String.eqb sym (SCATTER_SYMBOL cfg))
  && match payout_table sym with [] => false | _ :: _ => true end.

(** The cells of a reel that are equal to the symbol or to the wild. *)
Definition matching_cells (sym : symbol) (column : list symbol) : Z :=
  Z.of_nat (List.length
    (filter (fun cell => if string_dec cell sym then true
                         else if string_dec cell (WILD_SYMBOL cfg) then true
                         else false)
            column)).

(** Counts from the left, up to the first reel with zero matches. *)
Fixpoint up_to_first_miss (counts : list Z) : list Z :=
  match counts with
  | [] => []
  | count :: rest => if count =? 0 then [] else count :: up_to_first_miss rest
  end.

(** The reels matched by a symbol, each with its count. *)
Definition matched_reels (sym : symbol) (g : grid) : list Z :=
  up_to_first_miss (map (matching_cells sym) g).

(** The longest length [L], [3 <= L <= run], that the pays list. *)
Definition longest_paid (pays : list (Z * float)) (run : nat) : option Z :=
  match filter (fun L => (3 <=? L) && (L <=? Z.of_nat run)) (map fst pays) with
  | [] => None
  | L :: rest => Some (fold_right Z.max L rest)
  end.

(** The multiplier times the ways, the ways being an integer: the float
    product, OverflowError when the ways exceed the float range. *)
Definition times_ways (mult : float) (ways : Z) : result float :=
  match binary_normalize prec emax ways 0 false with
  | S754_infinity _ => Raise OverflowError
  | sf => Ok (mult * SF2Prim sf)%float
  end.

(** What one symbol pays: nothing on fewer than three matched reels or
    when no length from 3 to the run is in its pays, otherwise the
    multiplier of the longest such length times the product of the counts
    of the first [L] reels, once. *)
Definition symbol_payout (g : grid) (sym : symbol) : result (option float) :=
  let run := matched_reels sym g in
  if (List.length run <? 3)%nat then Ok None
  else
    match longest_paid (payout_table sym) (List.length run) with
    | None => Ok None
    | Some L =>
        match find (fun entry => L =? fst entry) (payout_table sym) with
        | None => Ok None
        | Some entry =>
            match times_ways (snd entry)
                             (fold_right Z.mul 1 (firstn (Z.to_nat L) run)) with
            | Ok win => Ok (Some win)
            | Raise e => Raise e
            | OutOfFuel => OutOfFuel
            end
        end
    end.

(** The payouts of the symbols, added up in paytable order from 0.0. *)
Fixpoint sum_payouts (g : grid) (symbols : list symbol) (total : float)
  : result float :=
  match symbols with
  | [] => Ok total
  | sym :: rest =>
      match symbol_payout g sym with
      | Ok (Some win) => sum_payouts g rest (total + win)%float
      | Ok None => sum_payouts g rest total
      | Raise e => Raise e
      | OutOfFuel => OutOfFuel
      end
  end.

Definition ways_payout (g : grid) : result float :=
  sum_payouts g (filter pays_something (map fst (PAYTABLE cfg))) 0%float.

End WaysPayout.

(** ** SpinEngine: [spin_reels] (lines 129-141)

    [np.random] is a stream of draws: [tape r i] is the raw value of the
    [i]-th draw and [cursor r] the number of draws consumed so far.  Every
    sequence of [randint] outcomes is the run on some tape. *)

Record rng : Type := mkRng { tape : nat -> nat; cursor : nat }.

(** [np.random.randint(0, high)] *)
Definition randint (r : rng) (high : nat) : result (nat * rng) :=
  if (high =? 0)%nat then Raise ValueError
  else Ok ((tape r (cursor r) mod high)%nat, mkRng (tape r) (S (cursor r))).

Section Engine.
Variable cfg : config.

Definition spin_reels (r : rng) : result (grid * rng) :=
  for_each (seq 0 (NUM_REELS cfg)) ([], r) (fun '(g, r) reel_idx =>
    strip <- match nth_error (REEL_STRIPS cfg) reel_idx with
             | Some strip => Ok strip
             | None => Raise KeyError
             end ;;
    let num_stops := List.length strip in
    '(start_pos, r') <- randint r num_stops ;;
    column <- for_each (seq 0 (NUM_ROWS cfg)) [] (fun column row =>
                let pos := ((start_pos + row) mod num_stops)%nat in
                s <- index strip pos ;; Ok (column ++ [s])) ;;
    Ok (g ++ [column], r')).

(** ** FeatureEngine: [run_free_spins] (lines 197-217)

    The loop state of a cascade.  [spins_run], [retriggers] and
    [retrigger_spins] are ghost counters (iterations executed, retriggers
    seen, spins added by retriggers): the source does not have them and
    nothing reads them. *)

Record cascade : Type := mkCascade {
  total_win : float;
  remaining : Z;
  spins_run : Z;
  retriggers : Z;
  retrigger_spins : Z
}.

(** The spins a grid awards: [sc_count >= 3 and sc_count in FREE_SPIN_TRIGGER],
    then [FREE_SPIN_TRIGGER[sc_count]]. *)
Definition triggered (g : grid) : option Z :=
  let sc_count := count_scatters cfg g in
  if 3 <=? sc_count then dict_get Z.eqb sc_count (FREE_SPIN_TRIGGER cfg) else None.

(** One iteration of [while remaining > 0]. *)
Definition free_spin (c : cascade) (r : rng) : result (cascade * rng) :=
  '(g, r') <- spin_reels r ;;
  base <- evaluate_ways_win cfg g ;;
  win <- mul_float_int base (FREE_SPIN_MULTIPLIER cfg) ;;
  let total_win := (total_win c + win)%float in
  let remaining := remaining c - 1 in
  match (if FREE_SPIN_RETRIGGER cfg then triggered g else None) with
  | Some extra =>
      Ok (mkCascade total_win (remaining + extra)
                    (spins_run c + 1) (retriggers c + 1) (retrigger_spins c + extra), r')
  | None =>
      Ok (mkCascade total_win remaining
                    (spins_run c + 1) (retriggers c) (retrigger_spins c), r')
  end.

Fixpoint free_spins_loop (fuel : nat) (c : cascade) (r : rng)
  : result (cascade * rng) :=
  if 0 <? remaining c then
    match fuel with
    | O => OutOfFuel
    | S fuel' => '(c', r') <- free_spin c r ;; free_spins_loop fuel' c' r'
    end
  else Ok (c, r).

(** [run_free_spins(num_spins)]; the returned value is [total_win] of the
    final loop state. *)
Definition run_free_spins (fuel : nat) (num_spins : Z) (r : rng)
  : result (cascade * rng) :=
  free_spins_loop fuel (mkCascade 0 num_spins 0 0 0) r.

End Engine.

(** ** StatisticsAggregator: [categorize_win] (lines 220-237),
    [SimulationStats] (lines 114-126) and the loop of [run_simulation]
    (lines 249-284) *)

Definition categorize_win (win_amount : float) : string :=
  if (win_amount =? 0)%float then "0x"
  else if (win_amount <? 1)%float then "0-1x"
  else if (win_amount <? 2)%float then "1-2x"
  else if (win_amount <? 5)%float then "2-5x"
  else if (win_amount <? 20)%float then "5-20x"
  else if (win_amount <? 100)%float then "20-100x"
  else if (win_amount <? 1000)%float then "100-1000x"
  else "1000x+".

(** [d[key] += 1] on a [defaultdict(int)]. *)
Fixpoint dict_incr (key : string) (d : list (string * Z)) : list (string * Z) :=
  match d with
  | [] => [(key, 1)]
  | (k, n) :: rest =>
      if String.eqb key k then (k, n + 1) :: rest else (k, n) :: dict_incr key rest
  end.

Record SimulationStats : Type := mkStats {
  total_spins : Z;
  total_wagered : float;
  total_won : float;
  base_game_won : float;
  feature_won : float;
  wins : Z;
  free_spin_triggers : Z;
  free_spins_played : Z;
  max_win : float;
  win_distribution : list (string * Z)
}.

Definition initial_stats : SimulationStats :=
  mkStats 0 0 0 0 0 0 0 0 0 [].

Definition bet_per_spin : float := 1.

(** Ghost totals over a run: free spins executed inside cascades,
    retriggers seen, spins added by retriggers.  Not in the source, never
    read by it. *)
Record ghost : Type := mkGhost {
  free_spins_run : Z;
  retriggers_seen : Z;
  retrigger_spins_added : Z
}.

Record sim_state : Type := mkSim {
  stats : SimulationStats;
  gen : rng;
  audit : ghost
}.

(** The guarded running RTP of the progress line (printed to stderr every
    250,000 spins, without effect on the state). *)
Definition current_rtp (s : SimulationStats) : result float :=
  if (0 <? total_wagered s)%float
  then q <- truediv (total_won s) (total_wagered s) ;; Ok (q * 100)%float
  else Ok 0%float.

Section Simulation.
Variable cfg : config.

(** Body of [for i in range(num_spins)]. *)
Definition simulate_spin (fuel : nat) (st : sim_state) : result sim_state :=
  let s := stats st in
  let total_spins' := total_spins s + 1 in
  let total_wagered' := (total_wagered s + bet_per_spin)%float in
  '(g, r1) <- spin_reels cfg (gen st) ;;
  base_win <- evaluate_ways_win cfg g ;;
  let base_game_won' := (base_game_won s + base_win)%float in
  '(feature, r2) <-
     match triggered cfg g with
     | Some num_free_spins =>
         '(c, r2) <- run_free_spins cfg fuel num_free_spins r1 ;;
         Ok (Some (num_free_spins, c), r2)
     | None => Ok (None, r1)
     end ;;
  let total_spin_win :=
    match feature with
    | Some (_, c) => (base_win + total_win c)%float
    | None => base_win
    end in
  let s' := {|
    total_spins := total_spins';
    total_wagered := total_wagered';
    total_won := (total_won s + total_spin_win)%float;
    base_game_won := base_game_won';
    feature_won := match feature with
                   | Some (_, c) => (feature_won s + total_win c)%float
                   | None => feature_won s
                   end;
    wins := if (0 <? total_spin_win)%float then wins s + 1 else wins s;
    free_spin_triggers := match feature with
                          | Some _ => free_spin_triggers s + 1
                          | None => free_spin_triggers s
                          end;
    free_spins_played := match feature with
                         | Some (num_free_spins, _) =>
                             free_spins_played s + num_free_spins
                         | None => free_spins_played s
                         end;
    max_win := fmax (max_win s) total_spin_win;
    win_distribution := dict_incr (categorize_win total_spin_win) (win_distribution s)
  |} in
  let a' := match feature with
            | Some (_, c) =>
                mkGhost (free_spins_run (audit st) + spins_run c)
                        (retriggers_seen (audit st) + retriggers c)
                        (retrigger_spins_added (audit st) + retrigger_spins c)
            | None => audit st
            end in
  Ok (mkSim s' r2 a').

(** The spin loop: [num_spins] iterations, none for a negative count. *)
Definition spin_loop (fuel : nat) (num_spins : Z) (r : rng) : result sim_state :=
  Z.iter num_spins (fun acc => st <- acc ;; simulate_spin fuel st)
         (Ok (mkSim initial_stats r (mkGhost 0 0 0))).

End Simulation.

(** A tape given by its first draws, 0 afterwards. *)
Definition tape_of (draws : list nat) : rng := mkRng (fun i => nth i draws O) O.

(** Reel stops showing a scatter on reels 1 to 3 of the default strips,
    on the base spin and again on the first free spin. *)
Definition retrigger_tape : rng :=
  tape_of [15; 12; 7; 0; 0; 15; 12; 7; 0; 0]%nat.

(** Every award of the trigger table is at least [lo]. *)
Definition trigger_awards_at_least (lo : Z) (cfg : config) : Prop :=
  Forall (fun kv => lo <= snd kv) (FREE_SPIN_TRIGGER cfg).

(** ** Final metrics of [run_simulation] (lines 286-314) *)

(** [a / b] on ints: the correctly rounded quotient. *)
Definition int_truediv (a b : Z) : result float :=
  if b =? 0 then Raise ZeroDivisionError
  else
    let sf :=
      match a with
      | Z0 => S754_zero (b <? 0)
      | _ => SFdiv prec emax
               (S754_finite (a <? 0) (Z.to_pos (Z.abs a)) 0)
               (S754_finite (b <? 0) (Z.to_pos (Z.abs b)) 0)
      end in
    match sf with
    | S754_infinity _ => Raise OverflowError
    | _ => Ok (SF2Prim sf)
    end.

(** [x ** 2].  CPython computes it with the C library's [pow], whose
    result may be one unit in the last place away from the correctly
    rounded square that is taken here; Python raises when a finite base
    overflows.  Of the results only the value of [volatility_index]
    depends on the difference, and nothing below is stated about that
    value. *)
Definition square (x : float) : result float :=
  let y := (x * x)%float in
  if is_infinity y && negb (is_infinity x) then Raise OverflowError else Ok y.

(** The numeric fields of the returned dictionary, before the rounding to
    4 (or 2, or 1) decimals applied for presentation.  The bucket
    percentages and the jurisdiction map are left out. *)
Record results : Type := mkResults {
  measured_rtp : float;
  rtp_confidence_interval_99 : float * float;
  hit_frequency_pct : float;
  base_game_rtp : float;
  feature_rtp : float;
  volatility_index : float;
  max_win_achieved : float;
  res_free_spin_triggers : Z;
  res_free_spins_played : Z;
  avg_spins_between_triggers : float;
  res_total_wagered : float;
  res_total_won : float;
  total_wins : Z;
  total_losses : Z
}.

Definition final_metrics (s : SimulationStats) : result results :=
  q <- truediv (total_won s) (total_wagered s) ;;
  let measured_rtp := (q * 100)%float in
  h <- int_truediv (wins s) (total_spins s) ;;
  let hit_frequency := (h * 100)%float in
  b <- truediv (base_game_won s) (total_wagered s) ;;
  let base_rtp := (b * 100)%float in
  f <- truediv (feature_won s) (total_wagered s) ;;
  let feature_rtp := (f * 100)%float in
  avg_win <- truediv_float_int (total_won s) (total_spins s) ;;
  sq <- square (max_win s - avg_win)%float ;;
  variance_approx <- truediv_float_int sq (total_spins s) ;;
  let volatility_index :=
    if (0 <? variance_approx)%float then sqrt variance_approx else 0%float in
  trigger_freq <- (if 0 <? free_spin_triggers s
                   then int_truediv (total_spins s) (free_spin_triggers s)
                   else Ok infinity) ;;
  v <- truediv_float_int (measured_rtp * (100 - measured_rtp))%float (total_spins s) ;;
  let rtp_std := sqrt v in
  let ci_margin := (2.576 * rtp_std)%float in
  let rtp_ci := ((measured_rtp - ci_margin)%float, (measured_rtp + ci_margin)%float) in
  Ok {|
    measured_rtp := measured_rtp;
    rtp_confidence_interval_99 := rtp_ci;
    hit_frequency_pct := hit_frequency;
    base_game_rtp := base_rtp;
    feature_rtp := feature_rtp;
    volatility_index := volatility_index;
    max_win_achieved := max_win s;
    res_free_spin_triggers := free_spin_triggers s;
    res_free_spins_played := free_spins_played s;
    avg_spins_between_triggers := trigger_freq;
    res_total_wagered := total_wagered s;
    res_total_won := total_won s;
    total_wins := wins s;
    total_losses := total_spins s - wins s
  |}.

Definition run_simulation (cfg : config) (fuel : nat) (num_spins : Z) (r : rng)
  : result results :=
  st <- spin_loop cfg fuel num_spins r ;;
  final_metrics (stats st).

(** The interval test of the design document: lower <= estimate <= upper. *)
Definition ci_contains_estimate (res : results) : bool :=
  ((fst (rtp_confidence_interval_99 res) <=? measured_rtp res)
   && (measured_rtp res <=? snd (rtp_confidence_interval_99 res)))%float.

(** The tape on which every draw is 0. *)
Definition zero_tape : rng := mkRng (fun _ => O) O.

(** ** RTPOptimizer: the optimisation script of [PaytableOptimizerTool]
    ([tier1_upgrades.py], lines 233-349)

    The script receives its paytable as JSON, so the pays of a symbol are
    keyed by the decimal string of the match count; JSON numbers are taken
    as floats. *)

Record opt_config : Type := mkOpt {
  TARGET_RTP : float;
  TOLERANCE : float;
  MAX_ITERS : nat;
  SPINS : Z;
  COLS : nat;
  ROWS : nat;
  paytable : list (symbol * list (string * float))
}.

(** [str(n)] *)
Definition str (n : Z) : string := NilEmpty.string_of_int (Z.to_int n).

Section Optimizer.
Variable o : opt_config.

(** The window of one spin: [ROWS] consecutive stops of each reel. *)
Definition spin_window (reels : list (list symbol)) (r : rng) : result (grid * rng) :=
  for_each (seq 0 (COLS o)) ([], r) (fun '(window, r) i =>
    reel <- index reels i ;;
    '(pos, r') <- randint r (List.length reel) ;;
    col <- for_each (seq 0 (ROWS o)) [] (fun col row =>
             s <- index reel ((pos + row) mod List.length reel)%nat ;;
             Ok (col ++ [s])) ;;
    Ok (window ++ [col], r')).

(** [for col in range(COLS)]: cells of the row equal to the symbol, from
    the left, up to the first other cell. *)
Fixpoint leading_count (window : grid) (sym : symbol) (row : nat)
         (cols : list nat) (count : Z) : result Z :=
  match cols with
  | [] => Ok count
  | col :: rest =>
      column <- index window col ;;
      cell <- index column row ;;
      if String.eqb cell sym
      then leading_count window sym row rest (count + 1)
      else Ok count
  end.

(** The win check of one window, added to [total_won]. *)
Definition award (window : grid) (total_won : float) : result float :=
  for_each (paytable o) total_won (fun total_won '(sym, pays) =>
    for_each (seq 0 (ROWS o)) total_won (fun total_won row =>
      count <- leading_count window sym row (seq 0 (COLS o)) 0 ;;
      let pay_key := str count in
      match dict_get String.eqb pay_key pays with
      | Some pay => if 3 <=? count then Ok (total_won + pay)%float else Ok total_won
      | None => Ok total_won
      end)).

Definition simulate (reels : list (list symbol)) (n_spins : Z) (r : rng)
  : result (float * rng) :=
  let total_wagered := n_spins in
  '(total_won, r') <-
     Z.iter n_spins (fun acc =>
                       '(total_won, r) <- acc ;;
                       '(window, r') <- spin_window reels r ;;
                       total_won' <- award window total_won ;;
                       Ok (total_won', r'))
            (Ok (0%float, r)) ;;
  if 0 <? total_wagered
  then q <- truediv_float_int total_won total_wagered ;; Ok ((q * 100)%float, r')
  else Ok (0%float, r').

(** [abs(deviation) * 2 / (1 + iteration * 0.3)] *)
Definition strength_quotient (current_rtp target : float) (iteration : Z)
  : result float :=
  let deviation := (current_rtp - target)%float in
  i <- float_of_int iteration ;;
  truediv (abs deviation * 2)%float (1 + i * 0.3)%float.

(** [strength = max(1, int(...))] *)
Definition adjust_strength (current_rtp target : float) (iteration : Z)
  : result Z :=
  q <- strength_quotient current_rtp target iteration ;;
  k <- int_of_float q ;;
  Ok (Z.max 1 k).

(** [np.random.choice(xs)] *)
Definition choice (r : rng) (xs : list symbol) : result (symbol * rng) :=
  '(i, r') <- randint r (List.length xs) ;;
  x <- index xs i ;;
  Ok (x, r').

(** [reel.remove(sym)]: the first occurrence. *)
Fixpoint remove_first (sym : symbol) (reel : list symbol) : list symbol :=
  match reel with
  | [] => []
  | s :: rest => if String.eqb s sym then rest else s :: remove_first sym rest
  end.

(** [for sym in candidates: if sym in reel and reel.count(sym) > 1: ...; break] *)
Fixpoint swap_out (candidates replacements : list symbol) (reel : list symbol)
         (r : rng) : result (list symbol * rng) :=
  match candidates with
  | [] => Ok (reel, r)
  | sym :: rest =>
      if 1 <? Z.of_nat (count_occ string_dec reel sym)
      then
        let reel' := remove_first sym reel in
        match replacements with
        | [] => Ok (reel', r)
        | _ :: _ => '(s, r') <- choice r replacements ;; Ok (reel' ++ [s], r')
        end
      else swap_out rest replacements reel r
  end.

(** One round of [for _ in range(strength)] on one reel. *)
Definition adjust_round (too_high : bool) (high_pay_symbols low_pay_symbols : list symbol)
           (reel : list symbol) (r : rng) : result (list symbol * rng) :=
  if too_high then swap_out high_pay_symbols low_pay_symbols reel r
  else
    match low_pay_symbols with
    | _ :: _ => swap_out low_pay_symbols high_pay_symbols reel r
    | [] => '(s, r') <- choice r high_pay_symbols ;; Ok (reel ++ [s], r')
    end.

(** The reel loop of [adjust_reels] for a given strength. *)
Definition apply_strength (strength : Z) (deviation : float)
           (reels : list (list symbol)) (r : rng)
  : result (list (list symbol) * rng) :=
  let high_pay_symbols := firstn 3 (dict_keys (paytable o)) in
  let low_pay_symbols :=
    if (3 <? List.length (paytable o))%nat then skipn 3 (dict_keys (paytable o)) else [] in
  let too_high := (0 <? deviation)%float in
  '(changed, r') <-
     for_each (firstn (COLS o) reels) ([], r) (fun '(done, r) reel =>
       '(reel', r') <-
          Z.iter strength (fun acc =>
                             '(reel, r) <- acc ;;
                             adjust_round too_high high_pay_symbols low_pay_symbols reel r)
                 (Ok (reel, r)) ;;
       Ok (done ++ [reel'], r')) ;;
  Ok (changed ++ skipn (COLS o) reels, r').

Definition adjust_reels (reels : list (list symbol)) (current_rtp target : float)
           (iteration : Z) (r : rng) : result (list (list symbol) * rng) :=
  strength <- adjust_strength current_rtp target iteration ;;
  apply_strength strength (current_rtp - target)%float reels r.

(** [round(x, ndigits)] on a float, [ndigits >= 0]: the decimal with
    [ndigits] places nearest to the exact value of [x] (ties to even), then
    the float nearest to that decimal; a zero keeps the sign of [x], and a
    NaN or an infinity is returned as it is. *)
Definition round_ndigits (x : float) (ndigits : Z) : result float :=
  match Prim2SF x with
  | S754_finite s m e =>
      let scale := 10 ^ ndigits in
      let digits :=
        if 0 <=? e then Z.pos m * 2 ^ e * scale
        else
          let num := Z.pos m * scale in
          let den := 2 ^ (- e) in
          let q := num / den in
          match 2 * (num mod den) ?= den with
          | Lt => q
          | Gt => q + 1
          | Eq => if Z.even q then q else q + 1
          end in
      match digits with
      | Z.pos d =>
          match SFdiv prec emax (S754_finite s d 0)
                      (S754_finite false (Z.to_pos scale) 0) with
          | S754_infinity _ => Raise OverflowError
          | sf => Ok (SF2Prim sf)
          end
      | _ => Ok (if s then (-0)%float else 0%float)
      end
  | _ => Ok x
  end.

(** State of the optimisation loop. *)
Record opt_state : Type := mkOptState {
  reel_strips : list (list symbol);
  history : list (Z * float * float);
  best_reels : list (list symbol);
  best_deviation : float;
  opt_gen : rng
}.

(** The bookkeeping of one iteration: the reading, rounded to four
    decimals, is appended to the history, and the best strips so far are
    kept by the deviation as measured. *)
Definition record_reading (st : opt_state) (i : nat) (rtp : float) (r : rng)
  : result opt_state :=
  let deviation := abs (rtp - TARGET_RTP o)%float in
  rounded_rtp <- round_ndigits rtp 4 ;;
  rounded_deviation <- round_ndigits deviation 4 ;;
  let improved := (deviation <? best_deviation st)%float in
  Ok {| reel_strips := reel_strips st;
        history := history st ++ [(Z.of_nat i + 1, rounded_rtp, rounded_deviation)];
        best_reels := if improved then reel_strips st else best_reels st;
        best_deviation := if improved then deviation else best_deviation st;
        opt_gen := r |}.

Definition with_reels (st : opt_state) (reels : list (list symbol)) (r : rng)
  : opt_state :=
  {| reel_strips := reels;
     history := history st;
     best_reels := best_reels st;
     best_deviation := best_deviation st;
     opt_gen := r |}.

(** [for i in range(MAX_ITERS)] with its [break] on convergence. *)
Fixpoint optimize_loop (iterations : list nat) (st : opt_state) : result opt_state :=
  match iterations with
  | [] => Ok st
  | i :: rest =>
      '(rtp, r1) <- simulate (reel_strips st) (SPINS o) (opt_gen st) ;;
      let deviation := abs (rtp - TARGET_RTP o)%float in
      st1 <- record_reading st i rtp r1 ;;
      if (deviation <=? TOLERANCE o)%float then Ok st1
      else
        '(reels', r2) <- adjust_reels (reel_strips st) rtp (TARGET_RTP o) (Z.of_nat i) r1 ;;
        optimize_loop rest (with_reels st1 reels' r2)
  end.



End Optimizer.

(** What the design document writes for the strength: [round], Python's
    rounding of a float to the nearest integer, ties to even. *)
Definition round_half_even (x : float) : result Z :=
  match Prim2SF x with
  | S754_nan => Raise ValueError
  | S754_infinity _ => Raise OverflowError
  | S754_zero _ => Ok 0
  | S754_finite s m e =>
      let a :=
        if 0 <=? e then Z.pos m * 2 ^ e
        else
          let d := 2 ^ (- e) in
          let q := Z.pos m / d in
          match 2 * (Z.pos m mod d) ?= d with
          | Lt => q
          | Gt => q + 1
          | Eq => if Z.even q then q else q + 1
          end in
      Ok (if s then - a else a)
  end.

Definition documented_strength (current_rtp target : float) (iteration : Z)
  : result Z :=
  q <- strength_quotient current_rtp target iteration ;;
  k <- round_half_even q ;;
  Ok (Z.max 1 k).

(** The exact value of a finite float, and truncation toward zero. *)
Definition float_value (x : float) : option Q :=
  match Prim2SF x with
  | S754_zero _ => Some (inject_Z 0)
  | S754_finite s m e =>
      let n := if s then Z.neg m else Z.pos m in
      Some (if 0 <=? e then inject_Z (n * 2 ^ e)
            else Qmake n (Pos.pow 2 (Z.to_pos (- e))))
  | _ => None
  end.

Definition Qtruncate (v : Q) : Z :=
  if Qle_bool (inject_Z 0) v then Qfloor v else Qceiling v.

(** The paytable of the simulation template as the optimiser receives it
    (JSON object keys are strings). *)
Definition json_pays (pays : list (Z * float)) : list (string * float) :=
  map (fun kv => (str (fst kv), snd kv)) pays.

Definition json_paytable (pt : list (symbol * list (Z * float)))
  : list (symbol * list (string * float)) :=
  map (fun entry => (fst entry, json_pays (snd entry))) pt.

(** The optimiser's defaults (tolerance 0.1, 20 iterations, 500,000 spins)
    on the grid and paytable of a simulation configuration; the target is
    a tool argument, 96.0 here. *)
Definition optimizer_of (cfg : config) : opt_config :=
  mkOpt 96 0.1 20 500000 (NUM_REELS cfg) (NUM_ROWS cfg) (json_paytable (PAYTABLE cfg)).

(** ** PlayerSessionSimulator: the churn classification
    ([tier1_upgrades.py], lines 742-749)

    [median_spins] is [np.median(spin_counts)], a float. *)
Definition churn_risk (median_spins : float) : string :=
  if (median_spins <? 50)%float then "CRITICAL"
  else if (median_spins <? 100)%float then "HIGH"
  else if (median_spins <? 150)%float then "MEDIUM"
  else "LOW".

(** ** Where the optimiser's win check and the WinEvaluator meet *)

(** Reels matching a symbol from the left, by the ways rule. *)
Definition run_of (cfg : config) (sym : symbol) (g : grid) : nat :=
  List.length (leading_run (map (rule_matches cfg sym) g)).

Definition no_wild (cfg : config) (g : grid) : Prop :=
  Forall (fun column => ~ In (WILD_SYMBOL cfg) column) g.

(** Every run of 3 or more reels has its own entry in the symbol's pays. *)
Definition runs_are_keyed (cfg : config) (g : grid) : Prop :=
  forall sym, In sym (dict_keys (PAYTABLE cfg)) ->
              (3 <= run_of cfg sym g)%nat ->
              dict_get Z.eqb (Z.of_nat (run_of cfg sym g)) (pays_of cfg sym) <> None.

(** The default configuration on a single row. *)
Definition single_row_config : config :=
  mkConfig 5 1 (REEL_STRIPS default_config) (PAYTABLE default_config)
           "WD" "SC" (FREE_SPIN_TRIGGER default_config) 3 true.

Definition row_grid : grid := [["L2"]; ["L2"]; ["L2"]; ["H1"]; ["SC"]].

(** ** Binary64 values used in the proofs *)

(** The canonical form of a positive integer of at most 53 bits. *)
Definition canon_mantissa (p : positive) : positive :=
  Pos.shiftl p (Z.to_N (53 - Z.pos (digits2_pos p))).

Definition canon_exponent (p : positive) : Z := Z.pos (digits2_pos p) - 53.

(** 1.0 *)
Definition sf_one : spec_float := S754_finite false 4503599627370496 (-52).

(** The thresholds 50.0, 100.0 and 150.0 *)
Definition sf50 : spec_float := S754_finite false 7036874417766400 (-47).
Definition sf100 : spec_float := S754_finite false 7036874417766400 (-46).
Definition sf150 : spec_float := S754_finite false 5277655813324800 (-45).


(** ** Comparing floats

    A float that is not NaN: the values for which Python's [x == x]
    holds. *)
Definition not_nan_prop (x : float) : Prop := Prim2SF x <> S754_nan.

Ltac compare_cases_tac :=
  repeat match goal with
  | |- context [Z.compare ?a ?b] => destruct (Z.compare_spec a b); simpl
  | |- context [Pos.compare_cont Eq ?a ?b] =>
      change (Pos.compare_cont Eq a b) with (Pos.compare a b);
      destruct (Pos.compare_spec a b); simpl
  end.

(** ** What a spin shows

    The window of [rows] consecutive stops of a strip from [start],
    wrapping around at the end of the strip. *)
Definition strip_window (strip : list symbol) (start rows : nat) : list symbol :=
  map (fun row => nth ((start + row) mod List.length strip) strip "") (seq 0 rows).

(** Reel [i] has a strip with at least one stop. *)
Definition reel_ready (cfg : config) (i : nat) : Prop :=
  exists strip, nth_error (REEL_STRIPS cfg) i = Some strip /\ strip <> [].

(** The grid of the draws [cursor r], [cursor r + 1], ... of the tape. *)
Definition drawn_grid (cfg : config) (r : rng) : grid :=
  map (fun i =>
         let strip := nth i (REEL_STRIPS cfg) [] in
         strip_window strip (tape r (cursor r + i) mod List.length strip)
                      (NUM_ROWS cfg))
      (seq 0 (NUM_REELS cfg)).

(** Scatter cells of a list of cells. *)
Definition scatter_cells (cfg : config) (cells : list symbol) : Z :=
  occurrences (SCATTER_SYMBOL cfg) cells.

(** Two grids that show, reel by reel, the same cells in any row order. *)
Definition same_reels (g g' : grid) : Prop := Forall2 (@Permutation symbol) g g'.

(** The scatter count of every window of [rows] stops of a strip is at
    most [bound]. *)
Definition windows_bounded (cfg : config) (bound : Z) (strip : list symbol) : bool :=
  forallb (fun start =>
             scatter_cells cfg (strip_window strip start (NUM_ROWS cfg)) <=? bound)
          (seq 0 (List.length strip)).

(** ** The win distribution

    The eight buckets of [categorize_win], and [sum(d.values())]. *)
Definition buckets : list string :=
  ["0x"; "0-1x"; "1-2x"; "2-5x"; "5-20x"; "20-100x"; "100-1000x"; "1000x+"].

Definition dict_total (d : list (string * Z)) : Z :=
  fold_right (fun kv acc => snd kv + acc) 0 d.

(** ** Jurisdiction compliance of [run_simulation]
    ([math_simulation.py], lines 316-321) over [JURISDICTION_REQUIREMENTS]
    ([config/settings.py], lines 185-238)

    Of every entry the simulation reads [min_rtp] only; [None] stands for
    an entry without that key, for which [reqs.get("min_rtp", 0)] is 0. *)

Definition JURISDICTION_REQUIREMENTS : list (string * option float) :=
  [("UK", Some 80.0%float); ("Malta", Some 85.0%float); ("Ontario", Some 85.0%float);
   ("New Jersey", Some 83.0%float); ("Curacao", Some 75.0%float)].

(** [measured_rtp >= min_rtp] for each jurisdiction, in the order of the
    table. *)
Definition jurisdiction_compliance (requirements : list (string * option float))
           (measured_rtp : float) : list (string * bool) :=
  map (fun '(jurisdiction, reqs) =>
         let min_rtp := match reqs with Some m => m | None => 0%float end in
         (jurisdiction, (min_rtp <=? measured_rtp)%float))
      requirements.

(** ** JurisdictionIntersectionTool ([tier1_upgrades.py], lines 391-585)

    The fields of a [REGULATIONS] entry that decide the RTP check, the
    feature bans and the verdict. *)

Record regulation : Type := mkRegulation {
  min_rtp : float;
  max_rtp : float;
  banned_features : list string
}.

Definition REGULATIONS : list (string * regulation) :=
  [("UK", mkRegulation 70.0 99.9 ["bonus_buy"]);
   ("Malta", mkRegulation 85.0 99.9 []);
   ("Ontario", mkRegulation 85.0 99.9 []);
   ("New Jersey", mkRegulation 83.0 99.9 []);
   ("Curacao", mkRegulation 75.0 99.9 []);
   ("Sweden", mkRegulation 80.0 99.9 ["bonus_buy"; "autoplay"]);
   ("Spain", mkRegulation 85.0 99.9 ["bonus_buy"])].

(** [d[k] = v] *)
Fixpoint dict_set {V : Type} (k : string) (v : V) (d : list (string * V))
  : list (string * V) :=
  match d with
  | [] => [(k, v)]
  | (k', v') :: rest =>
      if String.eqb k k' then (k', v) :: rest else (k', v') :: dict_set k v rest
  end.

(** [d.setdefault(k, []).append(x)] *)
Fixpoint dict_append (k x : string) (d : list (string * list string))
  : list (string * list string) :=
  match d with
  | [] => [(k, [x])]
  | (k', xs) :: rest =>
      if String.eqb k k' then (k', xs ++ [x]) :: rest
      else (k', xs) :: dict_append k x rest
  end.

(** [x in xs] on strings, and [s.add(x)] on a set kept as a list without
    repetitions. *)
Definition str_in (x : string) (xs : list string) : bool :=
  existsb (String.eqb x) xs.

Definition set_add (x : string) (s : list string) : list string :=
  if str_in x s then s else s ++ [x].

(** [max(xs)]: the first of the greatest elements; ValueError on an empty
    list. *)
Definition list_max (xs : list float) : result float :=
  match xs with
  | [] => Raise ValueError
  | x :: rest => Ok (fold_left fmax rest x)
  end.

(** [xs.index(v)]: the first position holding a value equal to [v].  (The
    identity test Python tries first only matters for a NaN, and no
    [min_rtp] is one.) *)
Fixpoint list_index (v : float) (xs : list float) : result nat :=
  match xs with
  | [] => Raise ValueError
  | x :: rest =>
      if (x =? v)%float then Ok O else i <- list_index v rest ;; Ok (S i)
  end.

(** An entry of [market_details]: the analysis of a known market, or what
    the Qdrant lookup gave for an unknown one, which is outside the
    program. *)
Inductive market_detail : Type :=
| Analysed (rtp_compliant : bool) (banned_features_hit : list string)
| External.

(** A blocker; the message text is formatted from these values. *)
Inductive blocker : Type :=
| RtpBelowFloor (proposed_rtp rtp_floor : float)
| FeatureBanned (feature : string) (markets_banned : list string).

(** The keys of [intersection] that the verdict depends on.  A key set
    only [if min_rtps] is an [option].  Left out: [rtp_headroom],
    [required_features_union], [common_certifiers], [data_privacy] and
    [strictest_privacy]. *)
Record intersection : Type := mkIntersection {
  rtp_floor : option float;
  rtp_compliant : option bool;
  binding_market : option string;
  ban_sources : list (string * list string);
  proposed_feature_conflicts : list (string * list string);
  blockers : list blocker;
  verdict : string
}.

Record intersect_results : Type := mkIntersectResults {
  per_market : list (string * market_detail);
  the_intersection : intersection;
  unknown_markets : list string
}.

(** The loop [for m in markets]: [(market_details, known_markets,
    unknown_markets)]. *)
Definition analyse_markets (markets : list string) (proposed_rtp : float)
           (proposed_features : list string)
  : list (string * market_detail) * list string * list string :=
  fold_left (fun '(market_details, known_markets, unknown_markets) m =>
    match dict_get String.eqb m REGULATIONS with
    | Some reg =>
        (dict_set m
           (Analysed ((min_rtp reg <=? proposed_rtp)%float
                      && (proposed_rtp <=? max_rtp reg)%float)
                     (filter (fun f => str_in f (banned_features reg))
                             proposed_features))
           market_details,
         known_markets ++ [m], unknown_markets)
    | None =>
        (dict_set m External market_details, known_markets, unknown_markets ++ [m])
    end) markets ([], [], []).

(** The loops over [known_markets] and each market's [banned_features]:
    [(all_banned, ban_sources)]. *)
Definition collect_bans (known_markets : list string)
  : list string * list (string * list string) :=
  fold_left (fun acc m =>
    let bans := match dict_get String.eqb m REGULATIONS with
                | Some reg => banned_features reg
                | None => []
                end in
    fold_left (fun '(all_banned, ban_sources) b =>
                 (set_add b all_banned, dict_append b m ban_sources))
              bans acc)
    known_markets ([], []).

(** [{f: ban_sources[f] for f in proposed_features if f in all_banned}] *)
Definition banned_hits_of (all_banned : list string)
           (ban_sources : list (string * list string))
           (proposed_features : list string)
  : result (list (string * list string)) :=
  for_each proposed_features [] (fun hits f =>
    if str_in f all_banned then
      match dict_get String.eqb f ban_sources with
      | Some ms => Ok (dict_set f ms hits)
      | None => Raise KeyError
      end
    else Ok hits).

(** [_run(markets, proposed_rtp, proposed_features, proposed_max_win)];
    [proposed_features] is [None] by default, and [proposed_max_win] is
    only echoed in the output. *)
Definition _run (markets : list string) (proposed_rtp : float)
           (proposed_features : option (list string)) : result intersect_results :=
  let proposed_features :=
    match proposed_features with
    | Some (f :: fs) => f :: fs
    | _ => []
    end in
  let '(market_details, known_markets, unknown_markets) :=
    analyse_markets markets proposed_rtp proposed_features in
  let min_rtps :=
    flat_map (fun m => match dict_get String.eqb m REGULATIONS with
                       | Some reg => [min_rtp reg]
                       | None => []
                       end) known_markets in
  '(floor, compliant, binding) <-
     (if truthy min_rtps then
        tightest_min <- list_max min_rtps ;;
        top <- list_max min_rtps ;;
        i <- list_index top min_rtps ;;
        b <- index known_markets i ;;
        Ok (Some tightest_min, Some (tightest_min <=? proposed_rtp)%float, Some b)
      else Ok (None, None, None)) ;;
  let '(all_banned, ban_sources) := collect_bans known_markets in
  banned_hits <- banned_hits_of all_banned ban_sources proposed_features ;;
  let rtp_blockers :=
    if negb (match compliant with Some c => c | None => true end)
    then match floor with
         | Some fl => Ok [RtpBelowFloor proposed_rtp fl]
         | None => Raise KeyError
         end
    else Ok [] in
  blockers0 <- rtp_blockers ;;
  let blockers :=
    blockers0 ++ map (fun '(feature, markets_banned) =>
                        FeatureBanned feature markets_banned) banned_hits in
  Ok {|
    per_market := market_details;
    the_intersection := {|
      rtp_floor := floor;
      rtp_compliant := compliant;
      binding_market := binding;
      ban_sources := ban_sources;
      proposed_feature_conflicts := banned_hits;
      blockers := blockers;
      verdict := if truthy blockers then "NO-GO (fix blockers first)" else "GO"
    |};
    unknown_markets := unknown_markets
  |}.

(** *** The tool's answer in whole-list terms *)

(** A market with an entry in [REGULATIONS]. *)
Definition known_market (m : string) : bool :=
  match dict_get String.eqb m REGULATIONS with Some _ => true | None => false end.

(** The RTP floor of a known market. *)
Definition market_floor (m : string) : float :=
  match dict_get String.eqb m REGULATIONS with
  | Some reg => min_rtp reg
  | None => 0%float
  end.

(** Market [m] bans feature [f]. *)
Definition bans (f m : string) : bool :=
  match dict_get String.eqb m REGULATIONS with
  | Some reg => str_in f (banned_features reg)
  | None => false
  end.

(** The features the tool works with: [proposed_features or []]. *)
Definition features_of (proposed_features : option (list string)) : list string :=
  match proposed_features with Some fs => fs | None => [] end.

(** The entry of [market_details] for a market. *)
Definition detail_of (proposed_rtp : float) (features : list string) (m : string)
  : market_detail :=
  match dict_get String.eqb m REGULATIONS with
  | Some reg =>
      Analysed ((min_rtp reg <=? proposed_rtp)%float
                && (proposed_rtp <=? max_rtp reg)%float)
               (filter (fun f => str_in f (banned_features reg)) features)
  | None => External
  end.

(** What [ban_sources] and [all_banned] hold after the market loop. *)
Definition bans_recorded (known : list string)
           (acc : list string * list (string * list string)) : Prop :=
  forall f,
    str_in f (fst acc) = truthy (filter (bans f) known) /\
    dict_get String.eqb f (snd acc)
    = match filter (bans f) known with
      | [] => None
      | ms => Some ms
      end.


(** ** The optimiser's reels *)

(** Each of the first [COLS] reels exists and has at least one stop. *)
Definition reels_usable (o : opt_config) (reels : list (list symbol)) : Prop :=
  forall i, (i < COLS o)%nat ->
            exists reel, nth_error reels i = Some reel /\ reel <> [].

(** The simulation configuration that has the optimiser's grid and reels. *)
Definition window_config (o : opt_config) (reels : list (list symbol)) : config :=
  mkConfig (COLS o) (ROWS o) reels [] "" "" [] 0 false.

(** No symbol of [reel] is missing from [reel']. *)
Definition keeps_symbols (reel reel' : list symbol) : Prop :=
  forall s, In s reel -> In s reel'.




(** What [adjust_reels] does to one reel. *)
Definition reel_adjusted (o : opt_config) (reel reel' : list symbol) : Prop :=
  keeps_symbols reel reel' /\
  ((3 < List.length (paytable o))%nat -> List.length reel' = List.length reel).




(** ** The paytable of a configuration

    The configuration with another paytable, everything else unchanged. *)
Definition with_paytable (cfg : config) (pt : list (symbol * list (Z * float)))
  : config :=
  mkConfig (NUM_REELS cfg) (NUM_ROWS cfg) (REEL_STRIPS cfg) pt
           (WILD_SYMBOL cfg) (SCATTER_SYMBOL cfg) (FREE_SPIN_TRIGGER cfg)
           (FREE_SPIN_MULTIPLIER cfg) (FREE_SPIN_RETRIGGER cfg).
(** * Properties *)

(** ** Concrete runs of the evaluator *)

Example evaluate_grid0 : evaluate_ways_win default_config grid0 = Ok 4%float.
Proof. vm_compute. reflexivity. Qed.

Example evaluate_grid_wild :
  evaluate_ways_win default_config grid_wild = Ok 0.3%float.
Proof. vm_compute. reflexivity. Qed.

(** 8.00 * 4 for H1, 1.00 for L2, 0.25 for L3. *)
Example evaluate_grid_ways :
  evaluate_ways_win default_config grid_ways = Ok 33.25%float.
Proof. vm_compute. reflexivity. Qed.

Example symbol_win_grid_ways :
  symbol_win default_config grid_ways "H1" = Ok (Some 32%float) /\
  symbol_win default_config grid_ways "L1" = Ok None.
Proof. split; vm_compute; reflexivity. Qed.

Example count_scatters_retrigger :
  spin_reels default_config retrigger_tape
  = Ok ([["SC"; "L4"; "H1"]; ["SC"; "L2"; "L3"]; ["SC"; "L3"; "L4"];
         ["L1"; "L2"; "H2"]; ["L2"; "L3"; "H1"]],
        mkRng (tape retrigger_tape) 5) /\
  triggered default_config
    [["SC"; "L4"; "H1"]; ["SC"; "L2"; "L3"]; ["SC"; "L3"; "L4"];
     ["L1"; "L2"; "H2"]; ["L2"; "L3"; "H1"]] = Some 10.
Proof. split; vm_compute; reflexivity. Qed.

(** ** The result monad and the loop combinators *)

Lemma index_nth {A : Type} (xs : list A) (i : nat) (x : A) :
  nth_error xs i = Some x -> index xs i = Ok x.
Proof. unfold index; intros ->; reflexivity. Qed.

Lemma index_app_here {A : Type} (pre suf : list A) (x : A) :
  index (pre ++ x :: suf) (List.length pre) = Ok x.
Proof.
  apply index_nth. rewrite nth_error_app2 by lia.
  now rewrite Nat.sub_diag.
Qed.

(** ** Dictionaries *)

Lemma dict_get_None_keys {V : Type} (k : Z) (d : list (Z * V)) :
  dict_get Z.eqb k d = None <-> ~ In k (dict_keys d).
Proof.
  induction d as [|[k' v] d IH]; simpl; [tauto|].
  destruct (Z.eqb_spec k k') as [->|Hne].
  - split; [discriminate|]. intros H; exfalso; apply H; now left.
  - rewrite IH. split; intros H; [intros [E|I]; [congruence|tauto]|tauto].
Qed.

(** ** C1: the evaluator's loops against the rule *)

Section WaysRefinement.
Variable cfg : config.

(** The row loop visits the cells of the column in order. *)
Lemma reel_count_from (g : grid) (sym : symbol) (reel_idx : nat)
      (pre suf : list symbol) (count : Z) :
  nth_error g reel_idx = Some (pre ++ suf) ->
  for_each (seq (List.length pre) (List.length suf)) count (fun count row =>
      column <- index g reel_idx ;;
      cell <- index column row ;;
      Ok (if String.eqb cell sym || String.eqb cell (WILD_SYMBOL cfg)
          then count + 1 else count))
  = Ok (count + rule_matches cfg sym suf).
Proof.
  revert pre count; induction suf as [|cell suf IH]; intros pre count Hcol.
  - simpl. unfold rule_matches; simpl. f_equal; lia.
  - cbn [List.length seq for_each].
    rewrite (index_nth _ _ _ Hcol) at 1; cbn [bind].
    rewrite index_app_here; cbn [bind].
    replace (S (List.length pre)) with (List.length (pre ++ [cell]))
      by (rewrite length_app; simpl; lia).
    rewrite IH by (rewrite <- app_assoc; exact Hcol).
    unfold rule_matches; cbn [filter].
    destruct (String.eqb cell sym || String.eqb cell (WILD_SYMBOL cfg));
      cbn [List.length]; f_equal; lia.
Qed.

Lemma reel_count_rule (g : grid) (sym : symbol) (reel_idx : nat)
      (column : list symbol) :
  nth_error g reel_idx = Some column ->
  List.length column = NUM_ROWS cfg ->
  reel_count cfg g sym reel_idx = Ok (rule_matches cfg sym column).
Proof.
  intros Hcol Hlen. unfold reel_count. rewrite <- Hlen.
  exact (reel_count_from g sym reel_idx [] column 0 Hcol).
Qed.

(** The reel loop computes the leading run of the per-reel counts. *)
Lemma count_reels_from (sym : symbol) (pre suf : grid) (acc : list Z) :
  Forall (fun column => List.length column = NUM_ROWS cfg) suf ->
  count_reels cfg (pre ++ suf) sym (seq (List.length pre) (List.length suf)) acc
  = Ok (acc ++ leading_run (map (rule_matches cfg sym) suf)).
Proof.
  revert pre acc; induction suf as [|column suf IH]; intros pre acc Hall.
  - simpl. now rewrite app_nil_r.
  - inversion Hall as [|? ? Hlen Hall']; subst.
    cbn [List.length seq count_reels map leading_run].
    rewrite (reel_count_rule _ sym _ column); [|
      rewrite nth_error_app2 by lia; now rewrite Nat.sub_diag | exact Hlen].
    cbn [bind].
    destruct (0 <? rule_matches cfg sym column).
    + replace (S (List.length pre)) with (List.length (pre ++ [column]))
        by (rewrite length_app; simpl; lia).
      replace (pre ++ column :: suf) with ((pre ++ [column]) ++ suf)
        by (now rewrite <- app_assoc).
      rewrite IH by assumption. now rewrite <- app_assoc.
    + now rewrite app_nil_r.
Qed.

Lemma count_reels_rule (g : grid) (sym : symbol) :
  well_formed_grid cfg g ->
  count_reels cfg g sym (seq 0 (NUM_REELS cfg)) []
  = Ok (leading_run (map (rule_matches cfg sym) g)).
Proof.
  intros [Hlen Hall]. rewrite <- Hlen.
  exact (count_reels_from sym [] g [] Hall).
Qed.

(** The index loop multiplies the first [length] counts. *)
Lemma ways_of_from (pre suf : list Z) (n : nat) (ways : Z) :
  (n <= List.length suf)%nat ->
  for_each (seq (List.length pre) n) ways (fun ways i =>
      c <- index (pre ++ suf) i ;; Ok (ways * c))
  = Ok (ways * rule_ways suf n).
Proof.
  revert pre suf ways; induction n as [|n IH]; intros pre suf ways Hn.
  - simpl. unfold rule_ways; simpl. f_equal; lia.
  - destruct suf as [|c suf]; [simpl in Hn; lia|].
    cbn [seq for_each]. rewrite index_app_here; cbn [bind].
    replace (S (List.length pre)) with (List.length (pre ++ [c]))
      by (rewrite length_app; simpl; lia).
    replace (pre ++ c :: suf) with ((pre ++ [c]) ++ suf)
      by (now rewrite <- app_assoc).
    rewrite IH by (simpl in Hn; lia).
    unfold rule_ways; cbn [firstn fold_right]. f_equal; lia.
Qed.

Lemma ways_of_rule (counts : list Z) (n : nat) :
  (n <= List.length counts)%nat ->
  ways_of counts n = Ok (rule_ways counts n).
Proof.
  intros Hn. unfold ways_of.
  etransitivity; [exact (ways_of_from [] counts n 1 Hn)|]. f_equal; lia.
Qed.


(** Scanning the lengths downward finds the largest eligible key. *)
Lemma fold_max_le (M k : Z) (ks : list Z) :
  (forall x, In x (k :: ks) -> x <= M) -> fold_right Z.max k ks <= M.
Proof.
  induction ks as [|a ks IH]; intros Hle; simpl.
  - apply Hle; now left.
  - apply Z.max_lub.
    + apply Hle; right; now left.
    + apply IH. intros x [->|Hx]; apply Hle; [now left|right; now right].
Qed.

Lemma fold_max_attained (M k : Z) (ks : list Z) :
  (forall x, In x (k :: ks) -> x <= M) -> In M (k :: ks) ->
  fold_right Z.max k ks = M.
Proof.
  induction ks as [|a ks IH]; intros Hle HIn; simpl.
  - destruct HIn as [->|[]]; reflexivity.
  - assert (Ha : a <= M) by (apply Hle; right; now left).
    assert (Hrest : forall x, In x (k :: ks) -> x <= M)
      by (intros x [->|Hx]; apply Hle; [now left|right; now right]).
    destruct HIn as [->|[->|HIn]].
    + rewrite IH; [lia|exact Hrest|now left].
    + pose proof (fold_max_le M k ks Hrest). lia.
    + rewrite IH; [lia|exact Hrest|now right].
Qed.

Lemma rule_longest_short (pays : list (Z * float)) (run : nat) :
  (run < 3)%nat -> rule_longest pays run = None.
Proof.
  intros Hrun. unfold rule_longest.
  replace (filter _ (dict_keys pays)) with (@nil Z); [reflexivity|].
  symmetry. induction (dict_keys pays) as [|k ks IH]; simpl; [reflexivity|].
  destruct (Z.leb_spec 3 k), (Z.leb_spec k (Z.of_nat run)); simpl; auto; lia.
Qed.

Lemma rule_longest_absent (pays : list (Z * float)) (run : nat) :
  dict_get Z.eqb (Z.of_nat (S run)) pays = None ->
  rule_longest pays (S run) = rule_longest pays run.
Proof.
  intros Habs. apply dict_get_None_keys in Habs. unfold rule_longest.
  replace (filter (fun k => (3 <=? k) && (k <=? Z.of_nat (S run))) (dict_keys pays))
    with (filter (fun k => (3 <=? k) && (k <=? Z.of_nat run)) (dict_keys pays));
    [reflexivity|].
  apply filter_ext_in. intros k Hk.
  assert (k <> Z.of_nat (S run)) by (intros ->; contradiction).
  destruct (Z.leb_spec 3 k), (Z.leb_spec k (Z.of_nat run)),
           (Z.leb_spec k (Z.of_nat (S run))); simpl; auto; lia.
Qed.

Lemma rule_longest_present (pays : list (Z * float)) (run : nat) (mult : float) :
  (2 <= run)%nat ->
  dict_get Z.eqb (Z.of_nat (S run)) pays = Some mult ->
  rule_longest pays (S run) = Some (Z.of_nat (S run)).
Proof.
  intros Hrun Hget. unfold rule_longest.
  assert (HIn : In (Z.of_nat (S run))
                  (filter (fun k => (3 <=? k) && (k <=? Z.of_nat (S run)))
                          (dict_keys pays))).
  { apply filter_In. split.
    - destruct (dict_get Z.eqb (Z.of_nat (S run)) pays) eqn:E; [|discriminate].
      destruct (in_dec Z.eq_dec (Z.of_nat (S run)) (dict_keys pays)) as [H|H];
        [exact H|]. apply dict_get_None_keys in H. congruence.
    - apply andb_true_intro; split; apply Z.leb_le; lia. }
  destruct (filter _ (dict_keys pays)) as [|k ks] eqn:E; [destruct HIn|].
  f_equal. apply fold_max_attained; [|exact HIn].
  intros x Hx. rewrite <- E in Hx. apply filter_In in Hx.
  destruct Hx as [_ Hx]. apply andb_prop in Hx. destruct Hx as [_ Hx].
  now apply Z.leb_le in Hx.
Qed.

Lemma lengths_down_short (n : nat) : (n < 3)%nat -> lengths_down n = [].
Proof.
  intros Hn. unfold lengths_down.
  replace (n - 2)%nat with 0%nat by lia. reflexivity.
Qed.

Lemma lengths_down_step (n : nat) :
  (2 <= n)%nat -> lengths_down (S n) = S n :: lengths_down n.
Proof.
  intros Hn. unfold lengths_down.
  replace (S n - 2)%nat with (S (n - 2)) by lia.
  rewrite seq_S, rev_app_distr. simpl. do 2 f_equal. lia.
Qed.

Lemma pay_longest_rule (pays : list (Z * float)) (counts : list Z) (n : nat) :
  (n <= List.length counts)%nat ->
  pay_longest pays counts (lengths_down n)
  = match rule_longest pays n with
    | None => Ok None
    | Some L =>
        match dict_get Z.eqb L pays with
        | None => Ok None
        | Some mult =>
            win <- mul_float_int mult (rule_ways counts (Z.to_nat L)) ;;
            Ok (Some win)
        end
    end.
Proof.
  induction n as [|n IH]; intros Hn.
  - rewrite lengths_down_short, rule_longest_short by lia. reflexivity.
  - destruct (Nat.lt_ge_cases n 2) as [Hsmall|Hbig].
    + rewrite lengths_down_short, rule_longest_short by lia. reflexivity.
    + rewrite lengths_down_step by exact Hbig. cbn [pay_longest].
      destruct (dict_get Z.eqb (Z.of_nat (S n)) pays) as [mult|] eqn:Hget.
      * rewrite (rule_longest_present pays n mult Hbig Hget), Hget.
        rewrite ways_of_rule by exact Hn. now rewrite Nat2Z.id.
      * rewrite (rule_longest_absent pays n Hget). apply IH. lia.
Qed.

Lemma symbol_win_rule (g : grid) (sym : symbol) :
  well_formed_grid cfg g ->
  symbol_win cfg g sym = rule_symbol_win cfg g sym.
Proof.
  intros Hwf. unfold symbol_win, rule_symbol_win.
  rewrite (count_reels_rule g sym Hwf); cbn [bind].
  destruct (List.length _ <? 3)%nat; [reflexivity|].
  now apply pay_longest_rule.
Qed.

Lemma paying_symbols_rule :
  paying_symbols cfg = filter (rule_paying cfg) (dict_keys (PAYTABLE cfg)).
Proof.
  unfold paying_symbols, rule_paying. apply filter_ext. intros s.
  now rewrite negb_orb.
Qed.

End WaysRefinement.

(** Accumulating in a loop is summing the collected payouts in order. *)
Lemma for_each_map_fold {A B S : Type} (f : A -> result B) (add : S -> B -> S)
      (xs : list A) (s : S) :
  for_each xs s (fun s x => y <- f x ;; Ok (add s y))
  = (ys <- map_result f xs ;; Ok (fold_left add ys s)).
Proof.
  revert s; induction xs as [|x xs IH]; intros s; simpl; [reflexivity|].
  destruct (f x) as [y| |]; simpl; try reflexivity.
  rewrite IH. destruct (map_result f xs); reflexivity.
Qed.

Lemma for_each_ext {A S : Type} (xs : list A) (s : S) body body' :
  (forall s x, In x xs -> body s x = body' s x) ->
  for_each xs s body = for_each xs s body'.
Proof.
  revert s; induction xs as [|x xs IH]; intros s Hext; simpl; [reflexivity|].
  rewrite Hext by now left.
  destruct (body' s x); simpl; auto.
  apply IH. intros; apply Hext; now right.
Qed.

(** The evaluator's loops compute the whole-list form. *)
Lemma evaluate_ways_win_loops (cfg : config) (g : grid) :
  well_formed_grid cfg g ->
  evaluate_ways_win cfg g = rule_ways_win cfg g.
Proof.
  intros Hwf. unfold evaluate_ways_win, rule_ways_win.
  rewrite paying_symbols_rule.
  rewrite (for_each_ext _ _ _
             (fun total_win sym =>
                w <- rule_symbol_win cfg g sym ;; Ok (add_win total_win w))).
  - apply for_each_map_fold.
  - intros s x _. now rewrite symbol_win_rule.
Qed.

(** *** The whole-list form against the reference *)

Lemma payout_table_pays_of (cfg : config) (sym : symbol) :
  payout_table cfg sym = pays_of cfg sym.
Proof.
  unfold payout_table, pays_of.
  induction (PAYTABLE cfg) as [|[s pays] pt IH]; [reflexivity|].
  cbn [find dict_get fst snd]. now destruct (String.eqb sym s).
Qed.

Lemma pays_something_rule (cfg : config) (sym : symbol) :
  pays_something cfg sym = rule_paying cfg sym.
Proof.
  unfold pays_something, rule_paying. rewrite payout_table_pays_of.
  now destruct (pays_of cfg sym).
Qed.

Lemma find_length_dict_get (L : Z) (pays : list (Z * float)) :
  option_map snd (find (fun entry => L =? fst entry) pays) = dict_get Z.eqb L pays.
Proof.
  induction pays as [|[k mult] pays IH]; [reflexivity|].
  cbn [find dict_get fst]. now destruct (L =? k).
Qed.

Lemma times_ways_mul (mult : float) (ways : Z) :
  times_ways mult ways = mul_float_int mult ways.
Proof.
  unfold times_ways, mul_float_int, float_of_int.
  now destruct (binary_normalize prec emax ways 0 false).
Qed.

Lemma matching_cells_rule (cfg : config) (sym : symbol) (column : list symbol) :
  matching_cells cfg sym column = rule_matches cfg sym column.
Proof.
  unfold matching_cells, rule_matches. do 2 f_equal.
  apply filter_ext. intros cell.
  destruct (string_dec cell sym) as [->|Hs].
  - now rewrite String.eqb_refl.
  - destruct (String.eqb_spec cell sym) as [|_]; [contradiction|].
    destruct (string_dec cell (WILD_SYMBOL cfg)) as [->|Hw].
    + now rewrite String.eqb_refl.
    + destruct (String.eqb_spec cell (WILD_SYMBOL cfg)) as [|_];
        [contradiction|reflexivity].
Qed.

Lemma matched_reels_rule (cfg : config) (sym : symbol) (g : grid) :
  matched_reels cfg sym g = leading_run (map (rule_matches cfg sym) g).
Proof.
  unfold matched_reels. induction g as [|column g IH]; [reflexivity|].
  cbn [map up_to_first_miss leading_run].
  rewrite matching_cells_rule, IH.
  assert (H : 0 <= rule_matches cfg sym column) by (unfold rule_matches; lia).
  destruct (Z.eqb_spec (rule_matches cfg sym column) 0) as [E|E],
           (Z.ltb_spec 0 (rule_matches cfg sym column)) as [L|L];
    try reflexivity; lia.
Qed.

Lemma symbol_payout_rule (cfg : config) (g : grid) (sym : symbol) :
  symbol_payout cfg g sym = rule_symbol_win cfg g sym.
Proof.
  unfold symbol_payout, rule_symbol_win. rewrite matched_reels_rule.
  destruct (_ <? 3)%nat; [reflexivity|].
  rewrite payout_table_pays_of.
  change (longest_paid (pays_of cfg sym))
    with (rule_longest (pays_of cfg sym)).
  destruct (rule_longest (pays_of cfg sym) _) as [L|]; [|reflexivity].
  rewrite <- (find_length_dict_get L (pays_of cfg sym)).
  destruct (find (fun entry => L =? fst entry) (pays_of cfg sym)) as [[k mult]|];
    [|reflexivity].
  cbn [option_map snd]. rewrite times_ways_mul. unfold rule_ways.
  now destruct (mul_float_int mult _).
Qed.

Lemma sum_payouts_rule (cfg : config) (g : grid) (symbols : list symbol)
      (total : float) :
  sum_payouts cfg g symbols total
  = (wins <- map_result (rule_symbol_win cfg g) symbols ;;
     Ok (fold_left add_win wins total)).
Proof.
  revert total; induction symbols as [|sym symbols IH]; intros total; [reflexivity|].
  cbn [sum_payouts map_result]. rewrite symbol_payout_rule.
  destruct (rule_symbol_win cfg g sym) as [[win|]| |]; cbn [bind]; try reflexivity.
  - rewrite IH. now destruct (map_result (rule_symbol_win cfg g) symbols).
  - rewrite IH. now destruct (map_result (rule_symbol_win cfg g) symbols).
Qed.

Lemma ways_payout_rule (cfg : config) (g : grid) :
  ways_payout cfg g = rule_ways_win cfg g.
Proof.
  unfold ways_payout, rule_ways_win. rewrite sum_payouts_rule.
  replace (filter (pays_something cfg) (map fst (PAYTABLE cfg)))
    with (filter (rule_paying cfg) (dict_keys (PAYTABLE cfg)));
    [reflexivity|].
  apply filter_ext. intros sym. symmetry. apply pays_something_rule.
Qed.

(** C1. For every grid of the configured shape, [evaluate_ways_win] returns
    the payout of the ways-to-win rule: for each paying symbol (wild and
    scatter excluded) the per-reel counts of cells equal to the symbol or the
    wild are taken left to right up to the first reel without a match,
    nothing is paid for fewer than 3 reels, otherwise the multiplier of the
    longest length L >= 3 in the symbol's pays times the product of the first
    L counts is paid once, and the per-symbol payouts are summed. *)
Theorem evaluate_ways_win_rule (cfg : config) (g : grid) :
  well_formed_grid cfg g ->
  evaluate_ways_win cfg g = ways_payout cfg g.
Proof.
  intros Hwf.
  rewrite (evaluate_ways_win_loops cfg g Hwf).
  symmetry. apply ways_payout_rule.
Qed.

(** On the grid of reel stops 0 the rule pays L2 on five reels in one way,
    4.0, and nothing else. *)
Lemma evaluate_ways_win_rule_witness :
  well_formed_grid default_config grid0 /\
  ways_payout default_config grid0 = Ok 4%float /\
  evaluate_ways_win default_config grid0 = Ok 4%float.
Proof.
  assert (H : well_formed_grid default_config grid0).
  { split; [reflexivity|]. repeat constructor. }
  assert (Hpay : ways_payout default_config grid0 = Ok 4%float)
    by (vm_compute; reflexivity).
  split; [exact H|]. split; [exact Hpay|].
  exact (eq_trans (evaluate_ways_win_rule default_config grid0 H) Hpay).
Defined.

(** The length the rule pays is in the pays, within 3 and the run, and no
    longer such length exists. *)
Lemma fold_max_In (k : Z) (ks : list Z) : In (fold_right Z.max k ks) (k :: ks).
Proof.
  induction ks as [|a ks IH]; simpl; [now left|].
  destruct (Z.max_spec a (fold_right Z.max k ks)) as [[_ ->]|[_ ->]].
  - destruct IH as [IH|IH]; [now left|right; now right].
  - right; now left.
Qed.

Lemma rule_longest_is_longest (pays : list (Z * float)) (run : nat) (L : Z) :
  rule_longest pays run = Some L ->
  3 <= L <= Z.of_nat run /\
  In L (dict_keys pays) /\
  forall k, In k (dict_keys pays) -> 3 <= k <= Z.of_nat run -> k <= L.
Proof.
  unfold rule_longest.
  destruct (filter _ (dict_keys pays)) as [|k ks] eqn:E; [discriminate|].
  intros H; injection H as <-.
  assert (HIn : In (fold_right Z.max k ks)
                   (filter (fun k => (3 <=? k) && (k <=? Z.of_nat run)) (dict_keys pays)))
    by (rewrite E; apply fold_max_In).
  apply filter_In in HIn. destruct HIn as [HIn Hb].
  apply andb_prop in Hb. destruct Hb as [Hb1 Hb2].
  apply Z.leb_le in Hb1. apply Z.leb_le in Hb2.
  repeat split; try assumption.
  intros k' Hk' [Hlo Hhi].
  assert (Hf : In k' (k :: ks)).
  { rewrite <- E. apply filter_In. split; [exact Hk'|].
    apply andb_true_intro; split; now apply Z.leb_le. }
  clear - Hf. revert Hf. generalize k'. clear k'.
  induction ks as [|a ks IH]; intros x Hx; simpl.
  - destruct Hx as [->|[]]. lia.
  - destruct Hx as [->|[->|Hx]].
    + specialize (IH x (or_introl eq_refl)). lia.
    + lia.
    + specialize (IH x (or_intror Hx)). lia.
Qed.

Lemma rule_longest_none (pays : list (Z * float)) (run : nat) (k : Z) :
  rule_longest pays run = None ->
  In k (dict_keys pays) -> ~ 3 <= k <= Z.of_nat run.
Proof.
  unfold rule_longest.
  destruct (filter _ (dict_keys pays)) as [|k0 ks] eqn:E; [|discriminate].
  intros _ Hk [Hlo Hhi].
  assert (Hf : In k (filter (fun k => (3 <=? k) && (k <=? Z.of_nat run)) (dict_keys pays))).
  { apply filter_In. split; [exact Hk|].
    apply andb_true_intro; split; now apply Z.leb_le. }
  rewrite E in Hf. destruct Hf.
Qed.

(** ** Dictionaries with string keys *)

Lemma dict_get_In {V : Type} (k : string) (v : V) (d : list (string * V)) :
  dict_get String.eqb k d = Some v -> In (k, v) d.
Proof.
  induction d as [|[k' v'] d IH]; simpl; [discriminate|].
  destruct (String.eqb_spec k k') as [->|_].
  - intros H; injection H as ->. now left.
  - intros H. right. now apply IH.
Qed.

Lemma dict_get_set {V : Type} (k k' : string) (v : V) (d : list (string * V)) :
  dict_get String.eqb k' (dict_set k v d)
  = if String.eqb k' k then Some v else dict_get String.eqb k' d.
Proof.
  induction d as [|[k0 v0] d IH]; simpl.
  - reflexivity.
  - destruct (String.eqb_spec k k0) as [->|Hne]; simpl.
    + destruct (String.eqb k' k0); reflexivity.
    + rewrite IH. destruct (String.eqb_spec k' k0) as [->|_]; [|reflexivity].
      destruct (String.eqb_spec k0 k) as [->|_]; [contradiction|reflexivity].
Qed.


(** ** The spin loop *)

Lemma Z_iter_step {A : Type} (f : A -> A) (x : A) (n : Z) :
  0 <= n -> Z.iter (n + 1) f x = f (Z.iter n f x).
Proof.
  intros Hn. destruct n as [|p|p]; [reflexivity| |lia].
  simpl. rewrite Pos.add_1_r. apply Pos.iter_succ.
Qed.

Lemma spin_loop_none (cfg : config) (fuel : nat) (n : Z) (r : rng) :
  n <= 0 -> spin_loop cfg fuel n r = Ok (mkSim initial_stats r (mkGhost 0 0 0)).
Proof. intros Hn. unfold spin_loop. destruct n; [reflexivity|lia|reflexivity]. Qed.

Lemma spin_loop_step (cfg : config) (fuel : nat) (n : Z) (r : rng) :
  0 <= n ->
  spin_loop cfg fuel (n + 1) r
  = (st <- spin_loop cfg fuel n r ;; simulate_spin cfg fuel st).
Proof. intros Hn. unfold spin_loop. now rewrite Z_iter_step. Qed.

(** A property of the loop state kept by every spin holds after the loop. *)
Lemma spin_loop_invariant (cfg : config) (fuel : nat) (r : rng)
      (P : Z -> sim_state -> Prop) :
  P 0 (mkSim initial_stats r (mkGhost 0 0 0)) ->
  (forall k st st', 0 <= k -> P k st ->
                    simulate_spin cfg fuel st = Ok st' -> P (k + 1) st') ->
  forall n st, 0 <= n -> spin_loop cfg fuel n r = Ok st -> P n st.
Proof.
  intros Hinit Hstep n st Hn. revert st.
  pattern n. apply natlike_ind; [| |exact Hn]; clear n Hn.
  - intros st H. rewrite spin_loop_none in H by lia. now inversion H.
  - intros k Hk IH st H. unfold Z.succ in H. rewrite spin_loop_step in H by exact Hk.
    destruct (spin_loop cfg fuel k r) as [st0| |]; simpl in H; try discriminate.
    eapply Hstep; eauto.
Qed.

(** A failure of a prefix of the loop is the failure of the loop. *)
Lemma spin_loop_prefix (cfg : config) (fuel : nat) (r : rng) (n k : Z) (st : sim_state) :
  0 <= k <= n -> spin_loop cfg fuel n r = Ok st ->
  exists st_k, spin_loop cfg fuel k r = Ok st_k.
Proof.
  intros [Hk Hkn]. revert st.
  pattern n. apply Zlt_lower_bound_ind with (z := k); [|exact Hkn]. clear n Hkn.
  intros n IH Hkn st H.
  destruct (Z.eq_dec n k) as [->|Hne]; [eauto|].
  replace n with ((n - 1) + 1) in H by lia.
  rewrite spin_loop_step in H by lia.
  destruct (spin_loop cfg fuel (n - 1) r) as [st0| |] eqn:E; simpl in H; try discriminate.
  apply (IH (n - 1)) with (st := st0); [lia|exact E].
Qed.

(** ** The free-spin cascade *)

Lemma triggered_award (lo : Z) (cfg : config) (g : grid) (n : Z) :
  trigger_awards_at_least lo cfg -> triggered cfg g = Some n -> lo <= n.
Proof.
  unfold trigger_awards_at_least, triggered. intros Hall.
  destruct (3 <=? count_scatters cfg g); [|discriminate].
  generalize (count_scatters cfg g). intros k.
  induction Hall as [|[k' v] rest Hv _ IH]; simpl; [discriminate|].
  destruct (k =? k'); [intros H; inversion H; subst; exact Hv|exact IH].
Qed.

Lemma free_spin_inv (cfg : config) (c c' : cascade) (r r' : rng) :
  free_spin cfg c r = Ok (c', r') ->
  exists g base win,
    spin_reels cfg r = Ok (g, r') /\
    evaluate_ways_win cfg g = Ok base /\
    mul_float_int base (FREE_SPIN_MULTIPLIER cfg) = Ok win /\
    c' = match (if FREE_SPIN_RETRIGGER cfg then triggered cfg g else None) with
         | Some extra =>
             mkCascade (total_win c + win) (remaining c - 1 + extra)
                       (spins_run c + 1) (retriggers c + 1) (retrigger_spins c + extra)
         | None =>
             mkCascade (total_win c + win) (remaining c - 1)
                       (spins_run c + 1) (retriggers c) (retrigger_spins c)
         end.
Proof.
  unfold free_spin.
  destruct (spin_reels cfg r) as [[g r1]| |] eqn:Es; simpl; try discriminate.
  destruct (evaluate_ways_win cfg g) as [base| |] eqn:Ee; simpl; try discriminate.
  destruct (mul_float_int base (FREE_SPIN_MULTIPLIER cfg)) as [win| |] eqn:Em;
    simpl; try discriminate.
  destruct (if FREE_SPIN_RETRIGGER cfg then triggered cfg g else None) as [extra|] eqn:E;
    intros H; inversion H; subst; exists g, base, win; rewrite E; auto.
Qed.

(** One free spin: the counter loses one spin and gains the award. *)
Lemma free_spin_accounting (lo : Z) (cfg : config) (c c' : cascade) (r r' : rng) :
  0 <= lo -> trigger_awards_at_least lo cfg ->
  free_spin cfg c r = Ok (c', r') ->
  remaining c - 1 <= remaining c' /\
  spins_run c' = spins_run c + 1 /\
  remaining c' + spins_run c' - retrigger_spins c'
    = remaining c + spins_run c - retrigger_spins c /\
  retriggers c <= retriggers c' /\
  lo * (retriggers c' - retriggers c) <= retrigger_spins c' - retrigger_spins c.
Proof.
  intros Hlo Hall H. apply free_spin_inv in H.
  destruct H as (g & base & win & _ & _ & _ & ->).
  destruct (if FREE_SPIN_RETRIGGER cfg then triggered cfg g else None) as [extra|] eqn:E;
    cbn [remaining spins_run retrigger_spins retriggers].
  - assert (lo <= extra).
    { destruct (FREE_SPIN_RETRIGGER cfg); [|discriminate].
      eapply triggered_award; eauto. }
    repeat split; lia.
  - repeat split; lia.
Qed.

(** The cascade: it stops at zero, and every spin it ran was either in the
    initial award or added by a retrigger. *)
Lemma free_spins_loop_accounting (lo : Z) (cfg : config) (fuel : nat) :
  0 <= lo -> trigger_awards_at_least lo cfg ->
  forall (c c' : cascade) (r r' : rng),
  0 <= remaining c ->
  free_spins_loop cfg fuel c r = Ok (c', r') ->
  remaining c' = 0 /\
  spins_run c' - retrigger_spins c'
    = remaining c + spins_run c - retrigger_spins c /\
  retriggers c <= retriggers c' /\
  lo * (retriggers c' - retriggers c) <= retrigger_spins c' - retrigger_spins c.
Proof.
  intros Hlo Hall. induction fuel as [|fuel IH]; intros c c' r r' Hrem; simpl.
  - destruct (Z.ltb_spec 0 (remaining c)) as [Hpos|Hnpos]; [discriminate|].
    intros H; inversion H; subst. repeat split; lia.
  - destruct (Z.ltb_spec 0 (remaining c)) as [Hpos|Hnpos].
    + destruct (free_spin cfg c r) as [[c1 r1]| |] eqn:E; simpl; try discriminate.
      intros H.
      destruct (free_spin_accounting lo cfg c c1 r r1 Hlo Hall E)
        as (H1 & H2 & H3 & H4 & H5).
      destruct (IH c1 c' r1 r' ltac:(lia) H) as (H6 & H7 & H8 & H9).
      repeat split; try lia.
    + intros H; inversion H; subst. repeat split; lia.
Qed.

Lemma simulate_spin_inv (cfg : config) (fuel : nat) (st st' : sim_state) :
  simulate_spin cfg fuel st = Ok st' ->
  exists g r1 base_win,
    spin_reels cfg (gen st) = Ok (g, r1) /\
    evaluate_ways_win cfg g = Ok base_win /\
    ((triggered cfg g = None /\
      free_spins_played (stats st') = free_spins_played (stats st) /\
      audit st' = audit st)
     \/
     (exists num_free_spins c r2,
        triggered cfg g = Some num_free_spins /\
        run_free_spins cfg fuel num_free_spins r1 = Ok (c, r2) /\
        free_spins_played (stats st')
          = free_spins_played (stats st) + num_free_spins /\
        audit st' = mkGhost (free_spins_run (audit st) + spins_run c)
                            (retriggers_seen (audit st) + retriggers c)
                            (retrigger_spins_added (audit st) + retrigger_spins c))).
Proof.
  unfold simulate_spin.
  destruct (spin_reels cfg (gen st)) as [[g r1]| |] eqn:Es; simpl; try discriminate.
  destruct (evaluate_ways_win cfg g) as [base_win| |] eqn:Ee; simpl; try discriminate.
  destruct (triggered cfg g) as [n|] eqn:Et.
  - destruct (run_free_spins cfg fuel n r1) as [[c r2]| |] eqn:Er;
      simpl; try discriminate.
    intros H; inversion H; subst; simpl.
    exists g, r1, base_win. repeat split; auto.
    right. exists n, c, r2. repeat split; auto.
  - simpl. intros H; inversion H; subst; simpl.
    exists g, r1, base_win. repeat split; auto.
Qed.

(** ** The grids of the spin engine *)

Lemma for_each_invariant {A St : Type} (P : nat -> St -> Prop)
      (body : St -> A -> result St) :
  (forall k s x s', P k s -> body s x = Ok s' -> P (S k) s') ->
  forall xs k s s', P k s -> for_each xs s body = Ok s' -> P (k + List.length xs)%nat s'.
Proof.
  intros Hstep. induction xs as [|x xs IH]; intros k s s' HP; simpl.
  - intros H; injection H as <-. now rewrite Nat.add_0_r.
  - destruct (body s x) as [s1| |] eqn:E; simpl; try discriminate.
    intros H. replace (k + S (List.length xs))%nat with (S k + List.length xs)%nat by lia.
    eapply IH; [|exact H]. eapply Hstep; eauto.
Qed.

Lemma collect_length {A B : Type} (f : A -> result B) (xs : list A) (acc out : list B) :
  for_each xs acc (fun out x => y <- f x ;; Ok (out ++ [y])) = Ok out ->
  List.length out = (List.length acc + List.length xs)%nat.
Proof.
  revert acc; induction xs as [|x xs IH]; intros acc; simpl.
  - intros H; injection H as <-. lia.
  - destruct (f x) as [y| |]; simpl; try discriminate.
    intros H. apply IH in H. rewrite length_app in H. simpl in H. lia.
Qed.

(** Every grid drawn by [spin_reels] has the configured shape. *)
Lemma spin_reels_well_formed (cfg : config) (r r' : rng) (g : grid) :
  spin_reels cfg r = Ok (g, r') -> well_formed_grid cfg g.
Proof.
  unfold spin_reels, well_formed_grid. intros H.
  pose (P := fun (k : nat) (s : grid * rng) =>
               List.length (fst s) = k /\
               Forall (fun column => List.length column = NUM_ROWS cfg) (fst s)).
  enough (HP : P (0 + List.length (seq 0 (NUM_REELS cfg)))%nat (g, r')).
  { destruct HP as [H1 H2]. rewrite length_seq in H1. auto. }
  refine (for_each_invariant P _ _ _ 0%nat ([], r) (g, r') _ H);
    [|split; [reflexivity|constructor]].
  clear. intros k [g r] reel_idx [g' r'] [Hlen Hall]. cbn [fst] in *.
  destruct (nth_error (REEL_STRIPS cfg) reel_idx) as [strip|]; simpl; try discriminate.
  destruct (randint r (List.length strip)) as [[start_pos r1]| |]; simpl; try discriminate.
  destruct (for_each (seq 0 (NUM_ROWS cfg)) [] _) as [column| |] eqn:Ecol;
    simpl; try discriminate.
  intros H; inversion H; subst; clear H. cbn [fst].
  assert (Hcol : List.length column = NUM_ROWS cfg).
  { apply collect_length in Ecol. now rewrite length_seq in Ecol. }
  split; cbn [fst].
  - rewrite length_app. simpl. lia.
  - apply Forall_app. split; [exact Hall|]. now constructor.
Qed.

(** C5. In a free-spin cascade a qualifying scatter count on a free spin
    adds its award to the remaining-spin counter and keeps the accumulated
    win (the cascade is not restarted); the cascade stops as soon as, and
    only when, the counter is at zero; and its accumulated win is added to
    the total win of the base spin that triggered it. *)
Theorem free_spin_cascade (cfg : config) (fuel : nat) (st : sim_state)
        (g : grid) (r1 r2 : rng) (base_win : float) (num_free_spins : Z)
        (c : cascade) :
  trigger_awards_at_least 0 cfg ->
  spin_reels cfg (gen st) = Ok (g, r1) ->
  evaluate_ways_win cfg g = Ok base_win ->
  triggered cfg g = Some num_free_spins ->
  run_free_spins cfg fuel num_free_spins r1 = Ok (c, r2) ->
  (forall c0 r g' r' base win extra,
      FREE_SPIN_RETRIGGER cfg = true ->
      spin_reels cfg r = Ok (g', r') ->
      evaluate_ways_win cfg g' = Ok base ->
      mul_float_int base (FREE_SPIN_MULTIPLIER cfg) = Ok win ->
      triggered cfg g' = Some extra ->
      free_spin cfg c0 r
      = Ok (mkCascade (total_win c0 + win) (remaining c0 - 1 + extra)
                      (spins_run c0 + 1) (retriggers c0 + 1)
                      (retrigger_spins c0 + extra), r')) /\
  (forall fuel' c0 r,
      remaining c0 <= 0 -> free_spins_loop cfg fuel' c0 r = Ok (c0, r)) /\
  (forall fuel' c0 r,
      0 < remaining c0 ->
      free_spins_loop cfg (S fuel') c0 r
      = ('(c1, r') <- free_spin cfg c0 r ;; free_spins_loop cfg fuel' c1 r')) /\
  remaining c = 0 /\
  spins_run c = num_free_spins + retrigger_spins c /\
  exists st',
    simulate_spin cfg fuel st = Ok st' /\
    total_won (stats st') = (total_won (stats st) + (base_win + total_win c))%float /\
    feature_won (stats st') = (feature_won (stats st) + total_win c)%float /\
    gen st' = r2.
Proof.
  intros Hall Hspin Heval Htrig Hrun.
  split; [|split; [|split; [|split; [|split]]]].
  - intros c0 r g' r' base win extra Hre Hs He Hm Ht.
    unfold free_spin. rewrite Hs; cbn [bind]. rewrite He; cbn [bind].
    rewrite Hm; cbn [bind]. now rewrite Hre, Ht.
  - intros fuel' c0 r Hrem. destruct fuel'; simpl;
      destruct (Z.ltb_spec 0 (remaining c0)); try lia; reflexivity.
  - intros fuel' c0 r Hrem. simpl.
    destruct (Z.ltb_spec 0 (remaining c0)); [reflexivity|lia].
  - pose proof (triggered_award 0 cfg g num_free_spins Hall Htrig) as Hn.
    now destruct (free_spins_loop_accounting 0 cfg fuel (Z.le_refl 0) Hall
                    (mkCascade 0 num_free_spins 0 0 0) c r1 r2 Hn Hrun) as (H & _).
  - pose proof (triggered_award 0 cfg g num_free_spins Hall Htrig) as Hn.
    destruct (free_spins_loop_accounting 0 cfg fuel (Z.le_refl 0) Hall
                (mkCascade 0 num_free_spins 0 0 0) c r1 r2 Hn Hrun) as (_ & H & _).
    cbn [remaining spins_run retrigger_spins] in H. lia.
  - unfold simulate_spin. rewrite Hspin; cbn [bind]. rewrite Heval; cbn [bind].
    rewrite Htrig, Hrun; cbn [bind].
    eexists; split; [reflexivity|]. simpl. auto.
Qed.

Lemma free_spin_cascade_witness :
  let st := mkSim initial_stats retrigger_tape (mkGhost 0 0 0) in
  let c := mkCascade 228 0 20 1 10 in
  run_free_spins default_config 100 10 (mkRng (tape retrigger_tape) 5)
    = Ok (c, mkRng (tape retrigger_tape) 105) /\
  remaining c = 0 /\
  spins_run c = 10 + retrigger_spins c /\
  exists st',
    simulate_spin default_config 100 st = Ok st' /\
    total_won (stats st') = (total_won (stats st) + (0 + total_win c))%float /\
    feature_won (stats st') = (feature_won (stats st) + total_win c)%float /\
    gen st' = mkRng (tape retrigger_tape) 105.
Proof.
  intros st c.
  assert (Hall : trigger_awards_at_least 0 default_config)
    by (repeat constructor; simpl; lia).
  assert (Hrun : run_free_spins default_config 100 10 (mkRng (tape retrigger_tape) 5)
                 = Ok (c, mkRng (tape retrigger_tape) 105))
    by (vm_compute; reflexivity).
  split; [exact Hrun|].
  refine (proj2 (proj2 (proj2
    (free_spin_cascade default_config 100 st
       [["SC"; "L4"; "H1"]; ["SC"; "L2"; "L3"]; ["SC"; "L3"; "L4"];
        ["L1"; "L2"; "H2"]; ["L2"; "L3"; "H1"]]
       (mkRng (tape retrigger_tape) 5) (mkRng (tape retrigger_tape) 105)
       0%float 10 c Hall _ _ _ Hrun)))).
  - vm_compute; reflexivity.
  - vm_compute; reflexivity.
  - vm_compute; reflexivity.
Defined.

(** C10. [free_spins_played] receives, at base-game trigger time, the
    award of the trigger table only: the free spins a run executed are the
    counted ones plus those added by retriggers, so as soon as one retrigger
    has occurred the counter is strictly less than the number of free spins
    executed. *)
Theorem free_spins_played_omits_retriggers (cfg : config) (fuel : nat) (n : Z)
        (r : rng) (st : sim_state) :
  trigger_awards_at_least 1 cfg ->
  spin_loop cfg fuel n r = Ok st ->
  free_spins_run (audit st)
    = free_spins_played (stats st) + retrigger_spins_added (audit st) /\
  (0 < retriggers_seen (audit st) ->
   free_spins_played (stats st) < free_spins_run (audit st)).
Proof.
  intros Hall Hrun.
  assert (Hinv : free_spins_run (audit st)
                   = free_spins_played (stats st) + retrigger_spins_added (audit st) /\
                 0 <= retriggers_seen (audit st) <= retrigger_spins_added (audit st)).
  { destruct (Z.le_gt_cases 0 n) as [Hn|Hn].
    - revert n st Hn Hrun.
      apply (spin_loop_invariant cfg fuel r (fun _ st =>
               free_spins_run (audit st)
                 = free_spins_played (stats st) + retrigger_spins_added (audit st) /\
               0 <= retriggers_seen (audit st) <= retrigger_spins_added (audit st))).
      + simpl. lia.
      + intros k s s' _ [I1 I2] Hstep.
        apply simulate_spin_inv in Hstep.
        destruct Hstep as (g & r1 & base_win & _ & _ &
                           [(_ & Hp & Ha)|(m & c & r2 & Ht & Hc & Hp & Ha)]).
        * rewrite Hp, Ha. auto.
        * pose proof (triggered_award 1 cfg g m Hall Ht) as Hm.
          destruct (free_spins_loop_accounting 1 cfg fuel ltac:(lia) Hall
                      (mkCascade 0 m 0 0 0) c r1 r2 ltac:(simpl; lia) Hc) as (_ & H1 & H2 & H3).
          cbn [remaining spins_run retrigger_spins retriggers] in H1, H2, H3.
          rewrite Hp, Ha; simpl. lia.
    - rewrite spin_loop_none in Hrun by lia. inversion Hrun; subst; simpl. lia. }
  destruct Hinv as [I1 I2]. split; [exact I1|]. lia.
Qed.

Lemma free_spins_played_omits_retriggers_witness :
  exists st,
    spin_loop default_config 100 1 retrigger_tape = Ok st /\
    free_spins_played (stats st) = 10 /\
    free_spins_run (audit st) = 20 /\
    free_spins_played (stats st) < free_spins_run (audit st).
Proof.
  assert (Hall : trigger_awards_at_least 1 default_config)
    by (repeat constructor; simpl; lia).
  eexists. split; [vm_compute; reflexivity|].
  split; [reflexivity|]. split; [reflexivity|].
  refine (proj2 (free_spins_played_omits_retriggers default_config 100 1
                   retrigger_tape _ Hall _) _).
  - vm_compute; reflexivity.
  - simpl. lia.
Defined.

(** C8 (the code does not meet it). One spin on the all-zero tape pays 4
    units, so the measured RTP is 400; the radicand
    [rtp * (100 - rtp) / n] is negative, its square root is NaN, and the
    reported interval (NaN, NaN) does not contain the estimate. *)
Theorem confidence_interval_nan_above_100 :
  exists res,
    run_simulation default_config 0 1 zero_tape = Ok res /\
    measured_rtp res = 400%float /\
    rtp_confidence_interval_99 res = (nan, nan) /\
    ci_contains_estimate res = false.
Proof.
  eexists. split; [vm_compute; reflexivity|].
  repeat split; vm_compute; reflexivity.
Qed.

(** ** C6: the wild symbol *)

Lemma paying_symbol_not_special (cfg : config) (sym : symbol) :
  In sym (paying_symbols cfg) ->
  sym <> WILD_SYMBOL cfg /\ sym <> SCATTER_SYMBOL cfg.
Proof.
  unfold paying_symbols. intros H. apply filter_In in H. destruct H as [_ H].
  apply andb_prop in H. destruct H as [H _].
  apply negb_true_iff, orb_false_elim in H. destruct H as [Hw Hs].
  split; intros ->; rewrite String.eqb_refl in *; discriminate.
Qed.

Lemma rule_matches_split (cfg : config) (sym : symbol) (column : list symbol) :
  sym <> WILD_SYMBOL cfg ->
  rule_matches cfg sym column
  = occurrences sym column + occurrences (WILD_SYMBOL cfg) column.
Proof.
  intros Hne. unfold rule_matches, occurrences.
  induction column as [|cell column IH]; [reflexivity|].
  cbn [filter count_occ].
  destruct (String.eqb_spec cell sym) as [->|Hs].
  - destruct (string_dec sym sym) as [_|]; [|contradiction].
    destruct (string_dec sym (WILD_SYMBOL cfg)) as [|_]; [contradiction|].
    cbn [orb List.length]. lia.
  - destruct (string_dec cell sym) as [|_]; [contradiction|].
    destruct (String.eqb_spec cell (WILD_SYMBOL cfg)) as [->|Hw].
    + destruct (string_dec (WILD_SYMBOL cfg) (WILD_SYMBOL cfg)) as [_|];
        [|contradiction].
      cbn [orb List.length]. lia.
    + destruct (string_dec cell (WILD_SYMBOL cfg)) as [|_]; [contradiction|].
      cbn [orb]. exact IH.
Qed.

Lemma occurrences_nonneg (s : symbol) (column : list symbol) :
  0 <= occurrences s column.
Proof. unfold occurrences. lia. Qed.

Lemma occurrences_In (s : symbol) (column : list symbol) :
  In s column -> 0 < occurrences s column.
Proof.
  intros H. unfold occurrences.
  apply (count_occ_In string_dec) in H. lia.
Qed.

Lemma dict_keys_set {V : Type} (k : string) (v : V) (d : list (string * V)) :
  dict_keys (dict_set k v d)
  = dict_keys d ++ (if existsb (String.eqb k) (dict_keys d) then [] else [k]).
Proof.
  unfold dict_keys. induction d as [|[k' v'] d IH]; [reflexivity|].
  cbn [dict_set map fst existsb].
  destruct (String.eqb k k'); cbn [orb map fst app].
  - now rewrite app_nil_r.
  - now rewrite IH.
Qed.

(** The paying symbols do not depend on the pays listed for the wild. *)
Lemma paying_symbols_wild_pays (cfg : config) (pays : list (Z * float)) :
  paying_symbols (with_paytable cfg (dict_set (WILD_SYMBOL cfg) pays (PAYTABLE cfg)))
  = paying_symbols cfg.
Proof.
  unfold paying_symbols. cbn [with_paytable PAYTABLE WILD_SYMBOL SCATTER_SYMBOL].
  rewrite dict_keys_set, filter_app.
  replace (filter _ (if existsb _ _ then [] else [WILD_SYMBOL cfg])) with (@nil symbol).
  - rewrite app_nil_r. apply filter_ext. intros s.
    destruct (String.eqb_spec s (WILD_SYMBOL cfg)) as [->|Hne]; [reflexivity|].
    unfold pays_of. cbn [PAYTABLE with_paytable]. rewrite dict_get_set.
    destruct (String.eqb_spec s (WILD_SYMBOL cfg)) as [|_]; [contradiction|reflexivity].
  - destruct (existsb _ _); [reflexivity|]. cbn [filter].
    now rewrite String.eqb_refl.
Qed.

Lemma symbol_win_wild_pays (cfg : config) (pays : list (Z * float)) (g : grid)
      (sym : symbol) :
  sym <> WILD_SYMBOL cfg ->
  symbol_win (with_paytable cfg (dict_set (WILD_SYMBOL cfg) pays (PAYTABLE cfg))) g sym
  = symbol_win cfg g sym.
Proof.
  intros Hne. unfold symbol_win.
  change (count_reels (with_paytable cfg _) g sym
                      (seq 0 (NUM_REELS (with_paytable cfg _))) [])
    with (count_reels cfg g sym (seq 0 (NUM_REELS cfg)) []).
  replace (pays_of (with_paytable cfg _) sym) with (pays_of cfg sym); [reflexivity|].
  unfold pays_of. cbn [PAYTABLE with_paytable]. rewrite dict_get_set.
  destruct (String.eqb_spec sym (WILD_SYMBOL cfg)) as [|_]; [contradiction|reflexivity].
Qed.

(** A reel with a match right after the run is part of the run. *)
Lemma leading_run_extends (counts : list Z) (k : nat) (c : Z) :
  nth_error counts k = Some c -> 0 < c ->
  (k <= List.length (leading_run counts))%nat ->
  (k < List.length (leading_run counts))%nat.
Proof.
  revert k; induction counts as [|c0 counts IH]; intros k Hk Hc Hlen.
  - destruct k; discriminate.
  - cbn [leading_run] in *. destruct k as [|k].
    + injection Hk as ->. destruct (Z.ltb_spec 0 c); [simpl; lia|lia].
    + cbn [nth_error] in Hk. destruct (0 <? c0); [|simpl in Hlen; lia].
      cbn [List.length] in *. apply -> Nat.succ_lt_mono.
      apply IH; [exact Hk|exact Hc|lia].
Qed.

(** C6. No payout is ever attributed to the wild: it is not among the
    symbols the evaluator pays, the payout of a grid is the sum of what
    those symbols win, and it does not depend on the pays the paytable
    lists for the wild.  On every reel each wild cell counts toward the
    match count of every paying symbol (the count is the cells showing the
    symbol plus the cells showing the wild), the run the evaluator finds
    for the symbol is the leading run of these counts, and a reel that
    shows a wild right after the run belongs to it: a wild always extends
    the run. *)
Theorem wild_substitutes_never_pays (cfg : config) (g : grid) (sym : symbol) :
  well_formed_grid cfg g ->
  In sym (paying_symbols cfg) ->
  ~ In (WILD_SYMBOL cfg) (paying_symbols cfg) /\
  evaluate_ways_win cfg g
  = (wins <- map_result (symbol_win cfg g) (paying_symbols cfg) ;;
     Ok (fold_left (fun total w => match w with
                                   | Some win => (total + win)%float
                                   | None => total
                                   end) wins 0%float)) /\
  (forall pays,
     evaluate_ways_win
       (with_paytable cfg (dict_set (WILD_SYMBOL cfg) pays (PAYTABLE cfg))) g
     = evaluate_ways_win cfg g) /\
  (forall reel_idx column,
     nth_error g reel_idx = Some column ->
     reel_count cfg g sym reel_idx
     = Ok (occurrences sym column + occurrences (WILD_SYMBOL cfg) column)) /\
  count_reels cfg g sym (seq 0 (NUM_REELS cfg)) []
  = Ok (leading_run
          (map (fun column =>
                  occurrences sym column + occurrences (WILD_SYMBOL cfg) column) g)) /\
  (forall counts k column,
     count_reels cfg g sym (seq 0 (NUM_REELS cfg)) [] = Ok counts ->
     nth_error g k = Some column ->
     In (WILD_SYMBOL cfg) column ->
     (k <= List.length counts)%nat ->
     (k < List.length counts)%nat).
Proof.
  intros Hwf Hpay.
  destruct (paying_symbol_not_special cfg sym Hpay) as [Hw _].
  assert (Hrun : count_reels cfg g sym (seq 0 (NUM_REELS cfg)) []
                 = Ok (leading_run
                         (map (fun column =>
                                 occurrences sym column
                                 + occurrences (WILD_SYMBOL cfg) column) g))).
  { rewrite (count_reels_rule cfg g sym Hwf). do 2 f_equal.
    apply map_ext. intros column. now apply rule_matches_split. }
  split; [|split; [|split; [|split; [|split]]]].
  - intros H. now destruct (paying_symbol_not_special cfg _ H).
  - unfold evaluate_ways_win.
    exact (for_each_map_fold (symbol_win cfg g)
             (fun total w => match w with
                             | Some win => (total + win)%float
                             | None => total
                             end) (paying_symbols cfg) 0%float).
  - intros pays. unfold evaluate_ways_win. rewrite paying_symbols_wild_pays.
    apply for_each_ext. intros total s Hs.
    destruct (paying_symbol_not_special cfg s Hs) as [Hs' _].
    now rewrite symbol_win_wild_pays.
  - intros reel_idx column Hcol. destruct Hwf as [Hlen Hall].
    rewrite (reel_count_rule cfg g sym reel_idx column Hcol).
    + now rewrite rule_matches_split.
    + rewrite Forall_forall in Hall. apply Hall. eapply nth_error_In; eauto.
  - exact Hrun.
  - intros counts k column Hcounts Hcol HIn Hk.
    rewrite Hrun in Hcounts. injection Hcounts as <-.
    apply (leading_run_extends _ k
             (occurrences sym column + occurrences (WILD_SYMBOL cfg) column));
      [|pose proof (occurrences_In _ _ HIn);
        pose proof (occurrences_nonneg sym column); lia|exact Hk].
    rewrite nth_error_map, Hcol. reflexivity.
Qed.

(** On [grid_wild] reel 1 shows L2, reel 2 a wild and no L2, reel 3 L2:
    the wild carries the run of L2 over three reels, which pays 0.3. *)
Lemma wild_substitutes_never_pays_witness :
  count_reels default_config grid_wild "L2" (seq 0 5) [] = Ok [1; 1; 1] /\
  reel_count default_config grid_wild "L2" 1 = Ok 1 /\
  evaluate_ways_win default_config grid_wild = Ok 0.3%float /\
  ~ In "WD" (paying_symbols default_config).
Proof.
  assert (Hwf : well_formed_grid default_config grid_wild).
  { split; [reflexivity|]. repeat constructor. }
  assert (Hpay : In "L2" (paying_symbols default_config)).
  { vm_compute. tauto. }
  destruct (wild_substitutes_never_pays default_config grid_wild "L2" Hwf Hpay)
    as (H1 & H2 & _ & H4 & H5 & _).
  split; [exact H5|]. split; [exact (H4 1%nat ["WD"; "L3"; "H5"] eq_refl)|].
  split; [|exact H1].
  rewrite H2. vm_compute. reflexivity.
Defined.

(** ** Binary64: exactly representable values

    Facts about the executable specification of binary64 that the
    primitive operations are specified by ([add_spec], [mul_spec]). *)

Lemma iter_pos_iter {A : Type} (f : A -> A) (p : positive) (x : A) :
  iter_pos f p x = Pos.iter f x p.
Proof.
  revert x; induction p as [p IH|p IH|]; intros x; simpl.
  - rewrite !IH. now rewrite !Pos.iter_swap.
  - now rewrite !IH.
  - reflexivity.
Qed.

Lemma shiftl_succ (m : positive) (k : N) :
  Pos.shiftl m (N.succ k) = xO (Pos.shiftl m k).
Proof. destruct k as [|q]; simpl; [reflexivity|apply Pos.iter_succ]. Qed.

Lemma shiftl_pow (m : positive) (k : N) :
  Z.pos (Pos.shiftl m k) = Z.pos m * 2 ^ Z.of_N k.
Proof.
  induction k as [|k IH] using N.peano_ind.
  - simpl. lia.
  - rewrite shiftl_succ, N2Z.inj_succ, Z.pow_succ_r by lia.
    rewrite Pos2Z.inj_xO, IH. lia.
Qed.

Lemma shiftl_shiftl (m : positive) (a b : N) :
  Pos.shiftl (Pos.shiftl m a) b = Pos.shiftl m (a + b).
Proof.
  apply Pos2Z.inj. rewrite !shiftl_pow, N2Z.inj_add, Z.pow_add_r by lia. lia.
Qed.

Lemma digits2_shiftl (m : positive) (k : N) :
  Z.pos (digits2_pos (Pos.shiftl m k)) = Z.pos (digits2_pos m) + Z.of_N k.
Proof.
  induction k as [|k IH] using N.peano_ind.
  - simpl. lia.
  - rewrite shiftl_succ, N2Z.inj_succ. cbn [digits2_pos]. lia.
Qed.

Lemma shr_1_shiftl (m : positive) (p : positive) :
  Pos.iter shr_1 (Build_shr_record (Z.pos (Pos.iter xO m p)) false false) p
  = Build_shr_record (Z.pos m) false false.
Proof.
  induction p as [|p IH] using Pos.peano_ind.
  - reflexivity.
  - rewrite Pos.iter_succ_r, Pos.iter_succ. exact IH.
Qed.

Lemma shr_shiftl (m : positive) (k : N) (e : Z) :
  shr (Build_shr_record (Z.pos (Pos.shiftl m k)) false false) e (Z.of_N k)
  = (Build_shr_record (Z.pos m) false false, e + Z.of_N k).
Proof.
  destruct k as [|p]; simpl.
  - now rewrite Z.add_0_r.
  - now rewrite iter_pos_iter, shr_1_shiftl.
Qed.

Lemma shl_align_shiftl (m : positive) (e e' : Z) :
  shl_align m e e' = (Pos.shiftl m (Z.to_N (e - e')), Z.min e e').
Proof.
  unfold shl_align. destruct (e' - e) as [|p|p] eqn:E.
  - replace (e - e') with 0 by lia. simpl. f_equal. lia.
  - replace (e - e') with (Z.neg p) by lia. simpl. f_equal. lia.
  - replace (e - e') with (Z.pos p) by lia. simpl. f_equal. lia.
Qed.

Lemma fexp_normal (x : Z) : -1021 <= x -> fexp prec emax x = x - 53.
Proof. intros Hx. unfold fexp, SpecFloat.emin, prec, emax. lia. Qed.

Lemma bounded_canonical (m : positive) (e : Z) :
  bounded prec emax m e = true ->
  fexp prec emax (Z.pos (digits2_pos m) + e) = e /\ e <= 971.
Proof.
  unfold bounded, canonical_mantissa. intros H.
  apply andb_prop in H. destruct H as [H1 H2].
  apply Z.eqb_eq in H1. apply Z.leb_le in H2.
  unfold prec, emax in H2. split; [exact H1|lia].
Qed.

(** Rounding a value that is exactly a canonical mantissa shifted left
    gives back that mantissa. *)
Lemma binary_round_aux_exact (s : bool) (m : positive) (e : Z) (k : N) :
  bounded prec emax m e = true ->
  binary_round_aux prec emax s (Z.pos (Pos.shiftl m k)) (e - Z.of_N k) loc_Exact
  = S754_finite s m e.
Proof.
  intros Hb. destruct (bounded_canonical m e Hb) as [Hc He].
  unfold binary_round_aux, shr_fexp. cbn [Zdigits2 shr_record_of_loc].
  rewrite digits2_shiftl.
  replace (Z.pos (digits2_pos m) + Z.of_N k + (e - Z.of_N k))
    with (Z.pos (digits2_pos m) + e) by lia.
  rewrite Hc. replace (e - (e - Z.of_N k)) with (Z.of_N k) by lia.
  rewrite shr_shiftl.
  replace (e - Z.of_N k + Z.of_N k) with e by lia.
  cbn [shr_m loc_of_shr_record round_nearest_even Zdigits2 shr_record_of_loc].
  rewrite Hc, Z.sub_diag. cbn [shr shr_m].
  unfold prec, emax. destruct (Z.leb_spec e (1024 - 53)); [reflexivity|lia].
Qed.

Lemma binary_normalize_exact (m : positive) (e : Z) (k : N) :
  bounded prec emax m e = true ->
  binary_normalize prec emax (Z.pos (Pos.shiftl m k)) (e - Z.of_N k) false
  = S754_finite false m e.
Proof.
  intros Hb. destruct (bounded_canonical m e Hb) as [Hc He].
  unfold binary_normalize, binary_round.
  rewrite digits2_shiftl.
  replace (Z.pos (digits2_pos m) + Z.of_N k + (e - Z.of_N k))
    with (Z.pos (digits2_pos m) + e) by lia.
  rewrite Hc, shl_align_shiftl.
  replace (Z.to_N (e - Z.of_N k - e)) with 0%N by lia.
  replace (Z.min (e - Z.of_N k) e) with (e - Z.of_N k) by lia.
  cbn [Pos.shiftl]. now apply binary_round_aux_exact.
Qed.

Lemma canon_bounded (p : positive) :
  Z.pos (digits2_pos p) <= 53 ->
  bounded prec emax (canon_mantissa p) (canon_exponent p) = true.
Proof.
  intros Hd. unfold bounded, canonical_mantissa, canon_mantissa, canon_exponent.
  rewrite digits2_shiftl, fexp_normal by lia.
  apply andb_true_intro; split; [apply Z.eqb_eq|apply Z.leb_le; unfold prec, emax]; lia.
Qed.

Lemma binary_normalize_small (p : positive) :
  Z.pos (digits2_pos p) <= 53 ->
  binary_normalize prec emax (Z.pos p) 0 false
  = S754_finite false (canon_mantissa p) (canon_exponent p).
Proof.
  intros Hd. unfold binary_normalize, binary_round.
  rewrite fexp_normal, shl_align_shiftl by lia.
  replace (Z.to_N (0 - (Z.pos (digits2_pos p) + 0 - 53)))
    with (Z.to_N (53 - Z.pos (digits2_pos p))) by (f_equal; lia).
  replace (Z.min 0 (Z.pos (digits2_pos p) + 0 - 53)) with (canon_exponent p)
    by (unfold canon_exponent; lia).
  fold (canon_mantissa p).
  replace (canon_exponent p) with (canon_exponent p - Z.of_N 0) at 1 by (simpl; lia).
  change (canon_mantissa p) with (Pos.shiftl (canon_mantissa p) 0) at 1.
  apply binary_round_aux_exact. now apply canon_bounded.
Qed.

Lemma digits2_bound (p : positive) :
  2 ^ (Z.pos (digits2_pos p) - 1) <= Z.pos p < 2 ^ Z.pos (digits2_pos p).
Proof.
  induction p as [p IH|p IH|]; cbn [digits2_pos]; [| |simpl; lia].
  - rewrite Pos2Z.inj_succ, (Pos2Z.inj_xI p).
    replace (Z.succ (Z.pos (digits2_pos p)) - 1)
      with (Z.succ (Z.pos (digits2_pos p) - 1)) by lia.
    rewrite (Z.pow_succ_r 2 (Z.pos (digits2_pos p) - 1)) by lia.
    rewrite (Z.pow_succ_r 2 (Z.pos (digits2_pos p))) by lia. lia.
  - rewrite Pos2Z.inj_succ, (Pos2Z.inj_xO p).
    replace (Z.succ (Z.pos (digits2_pos p)) - 1)
      with (Z.succ (Z.pos (digits2_pos p) - 1)) by lia.
    rewrite (Z.pow_succ_r 2 (Z.pos (digits2_pos p) - 1)) by lia.
    rewrite (Z.pow_succ_r 2 (Z.pos (digits2_pos p))) by lia. lia.
Qed.

Lemma digits2_le_53 (p : positive) :
  Z.pos p < 2 ^ 53 -> Z.pos (digits2_pos p) <= 53.
Proof.
  intros Hp. destruct (Z.le_gt_cases (Z.pos (digits2_pos p)) 53) as [H|H]; [exact H|].
  exfalso. destruct (digits2_bound p) as [Hlo _].
  assert (2 ^ 53 <= 2 ^ (Z.pos (digits2_pos p) - 1))
    by (apply Z.pow_le_mono_r; lia).
  lia.
Qed.

Lemma Prim2SF_one : Prim2SF 1 = sf_one.
Proof. reflexivity. Qed.

(** Adding 1.0 to an integer below 2^53 - 1 is exact. *)
Lemma SFadd_one_exact (p : positive) :
  Z.pos p + 1 < 2 ^ 53 ->
  SF64add (binary_normalize prec emax (Z.pos p) 0 false) sf_one
  = binary_normalize prec emax (Z.pos (p + 1)) 0 false.
Proof.
  intros Hp.
  assert (Hd : Z.pos (digits2_pos p) <= 53) by (apply digits2_le_53; lia).
  assert (Hd' : Z.pos (digits2_pos (p + 1)) <= 53)
    by (apply digits2_le_53; rewrite Pos2Z.inj_add; lia).
  rewrite !binary_normalize_small by assumption.
  unfold SF64add, SFadd, sf_one.
  rewrite !shl_align_shiftl. cbn [fst cond_Zopp].
  replace (Z.min (canon_exponent p) (-52)) with (-52)
    by (unfold canon_exponent; lia).
  cbn [Z.add].
  replace (Pos.shiftl (canon_mantissa p) (Z.to_N (canon_exponent p - -52))
           + Pos.shiftl 4503599627370496 (Z.to_N (-52 - -52)))%positive
    with (Pos.shiftl (canon_mantissa (p + 1))
                     (Z.to_N (Z.pos (digits2_pos (p + 1)) - 1))).
  - replace (-52) with (canon_exponent (p + 1)
                        - Z.of_N (Z.to_N (Z.pos (digits2_pos (p + 1)) - 1)))
      by (unfold canon_exponent; lia).
    apply binary_normalize_exact. now apply canon_bounded.
  - apply Pos2Z.inj. rewrite Pos2Z.inj_add. unfold canon_mantissa, canon_exponent.
    rewrite !shiftl_shiftl, !shiftl_pow.
    replace (Z.of_N (Z.to_N (53 - Z.pos (digits2_pos (p + 1)))
                     + Z.to_N (Z.pos (digits2_pos (p + 1)) - 1))) with 52 by lia.
    replace (Z.of_N (Z.to_N (53 - Z.pos (digits2_pos p))
                     + Z.to_N (Z.pos (digits2_pos p) - 53 - -52))) with 52 by lia.
    replace (Z.of_N (Z.to_N (-52 - -52))) with 0 by lia.
    rewrite Pos2Z.inj_add. change (2 ^ 52) with 4503599627370496.
    change (2 ^ 0) with 1. lia.
Qed.

Lemma float_of_int_pos (p : positive) :
  Z.pos p < 2 ^ 53 ->
  float_of_int (Z.pos p)
  = Ok (SF2Prim (S754_finite false (canon_mantissa p) (canon_exponent p))).
Proof.
  intros Hp. unfold float_of_int.
  now rewrite binary_normalize_small by (now apply digits2_le_53).
Qed.

Lemma Prim2SF_canon (p : positive) :
  Z.pos p < 2 ^ 53 ->
  Prim2SF (SF2Prim (S754_finite false (canon_mantissa p) (canon_exponent p)))
  = S754_finite false (canon_mantissa p) (canon_exponent p).
Proof.
  intros Hp. apply Prim2SF_SF2Prim. cbn [SpecFloat.valid_binary].
  apply canon_bounded. now apply digits2_le_53.
Qed.

(** Counting in binary64: [float(n) + 1.0 = float(n + 1)] below 2^53. *)
Lemma float_of_int_succ (n : Z) (y : float) :
  0 <= n < 2 ^ 53 ->
  float_of_int n = Ok y ->
  float_of_int (n + 1) = Ok (y + 1)%float.
Proof.
  intros Hn Hy.
  destruct (Z.eq_dec n 0) as [->|Hn0].
  { vm_compute in Hy. inversion Hy; subst. vm_compute. reflexivity. }
  destruct (Z.eq_dec n (2 ^ 53 - 1)) as [->|Hmax].
  { vm_compute in Hy. inversion Hy; subst. vm_compute. reflexivity. }
  destruct n as [|p|p]; try lia.
  assert (Hy' : y = SF2Prim (S754_finite false (canon_mantissa p) (canon_exponent p)))
    by (rewrite float_of_int_pos in Hy by lia; congruence).
  subst y; clear Hy.
  assert (Hp1 : Z.pos p + 1 < 2 ^ 53) by lia.
  replace (Z.pos p + 1) with (Z.pos (p + 1)) by lia.
  rewrite float_of_int_pos by lia. f_equal.
  apply Prim2SF_inj.
  rewrite add_spec, !Prim2SF_canon, Prim2SF_one by lia.
  rewrite <- !binary_normalize_small by (apply digits2_le_53; lia).
  symmetry. now apply SFadd_one_exact.
Qed.

(** The conversion is exact up to 2^53: Python's [float(n) == n]. *)
Lemma float_of_int_exact (n : Z) (y : float) :
  0 <= n <= 2 ^ 53 ->
  float_of_int n = Ok y ->
  float_eq_int y n = true.
Proof.
  intros Hn Hy.
  destruct (Z.eq_dec n 0) as [->|Hn0].
  { vm_compute in Hy. inversion Hy; subst. vm_compute. reflexivity. }
  destruct (Z.eq_dec n (2 ^ 53)) as [->|Hmax].
  { vm_compute in Hy. inversion Hy; subst. vm_compute. reflexivity. }
  destruct n as [|p|p]; try lia.
  assert (Hy' : y = SF2Prim (S754_finite false (canon_mantissa p) (canon_exponent p)))
    by (rewrite float_of_int_pos in Hy by lia; congruence).
  subst y; clear Hy.
  unfold float_eq_int. rewrite Prim2SF_canon by lia.
  assert (Hd : Z.pos (digits2_pos p) <= 53) by (apply digits2_le_53; lia).
  unfold canon_mantissa, canon_exponent.
  destruct (Z.leb_spec 0 (Z.pos (digits2_pos p) - 53)).
  - replace (Z.pos (digits2_pos p) - 53) with 0 by lia.
    replace (Z.to_N (53 - Z.pos (digits2_pos p))) with 0%N by lia.
    cbn [Pos.shiftl]. apply Z.eqb_eq. simpl. lia.
  - apply Z.eqb_eq. rewrite shiftl_pow. f_equal. f_equal. lia.
Qed.

(** ** C4: the wagered accumulator *)

Lemma simulate_spin_counts (cfg : config) (fuel : nat) (st st' : sim_state) :
  simulate_spin cfg fuel st = Ok st' ->
  total_spins (stats st') = total_spins (stats st) + 1 /\
  total_wagered (stats st') = (total_wagered (stats st) + bet_per_spin)%float.
Proof.
  unfold simulate_spin.
  destruct (spin_reels cfg (gen st)) as [[g r1]| |]; simpl; try discriminate.
  destruct (evaluate_ways_win cfg g) as [base_win| |]; simpl; try discriminate.
  destruct (triggered cfg g) as [m|].
  - destruct (run_free_spins cfg fuel m r1) as [[c r2]| |]; simpl; try discriminate.
    intros H; inversion H; subst; simpl. auto.
  - simpl. intros H; inversion H; subst; simpl. auto.
Qed.

(** After [n <= 2^53] spins the accumulator is the float of the counter. *)
Lemma wagered_tracks_spins (cfg : config) (fuel : nat) (r : rng) (n : Z)
      (st : sim_state) :
  0 <= n <= 2 ^ 53 ->
  spin_loop cfg fuel n r = Ok st ->
  total_spins (stats st) = n /\
  float_of_int n = Ok (total_wagered (stats st)).
Proof.
  intros [Hn Hmax] Hrun.
  enough (H : total_spins (stats st) = n /\
              (n <= 2 ^ 53 -> float_of_int n = Ok (total_wagered (stats st))))
    by (destruct H; auto).
  revert n st Hn Hrun Hmax. intros n st Hn Hrun _. revert n st Hn Hrun.
  apply (spin_loop_invariant cfg fuel r (fun k st =>
           total_spins (stats st) = k /\
           (k <= 2 ^ 53 -> float_of_int k = Ok (total_wagered (stats st))))).
  - split; [reflexivity|]. intros _. vm_compute. reflexivity.
  - intros k s s' Hk [I1 I2] Hstep.
    apply simulate_spin_counts in Hstep. destruct Hstep as [H1 H2].
    split; [lia|]. intros Hk1. rewrite H2.
    apply float_of_int_succ; [lia|]. apply I2. lia.
Qed.

(** On the all-zero tape of the default configuration every spin shows
    [grid0], triggers nothing and succeeds. *)
Lemma zero_tape_spin_reels (c : nat) :
  spin_reels default_config (mkRng (fun _ => O) c)
  = Ok (grid0, mkRng (fun _ => O) (5 + c)).
Proof. reflexivity. Qed.

Lemma zero_tape_spin (fuel : nat) (s : SimulationStats) (c : nat) (a : ghost) :
  exists s' a',
    simulate_spin default_config fuel (mkSim s (mkRng (fun _ => O) c) a)
    = Ok (mkSim s' (mkRng (fun _ => O) (5 + c)) a').
Proof.
  unfold simulate_spin. cbn [gen]. rewrite zero_tape_spin_reels. cbn [bind].
  replace (evaluate_ways_win default_config grid0) with (Ok 4%float)
    by (vm_compute; reflexivity).
  replace (triggered default_config grid0) with (@None Z)
    by (vm_compute; reflexivity).
  cbn [bind]. eexists. eexists. reflexivity.
Qed.

Lemma zero_tape_loop (fuel : nat) (n : Z) :
  0 <= n ->
  exists s c a,
    spin_loop default_config fuel n zero_tape = Ok (mkSim s (mkRng (fun _ => O) c) a).
Proof.
  intros Hn. pattern n. apply natlike_ind; [| |exact Hn]; clear n Hn.
  - rewrite spin_loop_none by lia. unfold zero_tape. eauto.
  - intros k Hk (s & c & a & IH). unfold Z.succ.
    rewrite spin_loop_step, IH by exact Hk. cbn [bind].
    destruct (zero_tape_spin fuel s c a) as (s' & a' & H). rewrite H. eauto.
Qed.

(** C4. For every number of spins up to 2^53, at every iteration boundary
    of the spin loop (and so at finalization) [total_wagered == total_spins]
    holds exactly: the float accumulator equals the integer counter. *)
Theorem wagered_equals_spins (cfg : config) (fuel : nat) (r : rng) (n : Z)
        (st : sim_state) :
  n <= 2 ^ 53 ->
  spin_loop cfg fuel n r = Ok st ->
  total_spins (stats st) = Z.max 0 n /\
  float_eq_int (total_wagered (stats st)) (total_spins (stats st)) = true /\
  forall k, 0 <= k <= n ->
    exists st_k,
      spin_loop cfg fuel k r = Ok st_k /\
      total_spins (stats st_k) = k /\
      float_eq_int (total_wagered (stats st_k)) (total_spins (stats st_k)) = true.
Proof.
  intros Hmax Hrun.
  assert (Hprefix : forall k, 0 <= k <= n ->
            exists st_k,
              spin_loop cfg fuel k r = Ok st_k /\
              total_spins (stats st_k) = k /\
              float_eq_int (total_wagered (stats st_k)) (total_spins (stats st_k)) = true).
  { intros k Hk.
    destruct (spin_loop_prefix cfg fuel r n k st Hk Hrun) as [st_k Hst].
    exists st_k. split; [exact Hst|].
    destruct (wagered_tracks_spins cfg fuel r k st_k ltac:(lia) Hst) as [H1 H2].
    split; [exact H1|]. rewrite H1. apply float_of_int_exact; [lia|exact H2]. }
  destruct (Z.le_gt_cases 0 n) as [Hn|Hn].
  - destruct (Hprefix n ltac:(lia)) as (st_n & Hst & H1 & H2).
    assert (st_n = st) by congruence. subst st_n.
    split; [lia|split; [exact H2|exact Hprefix]].
  - rewrite spin_loop_none in Hrun by lia.
    assert (Hst : st = mkSim initial_stats r (mkGhost 0 0 0)) by congruence.
    subst st.
    split; [simpl; lia|split; [vm_compute; reflexivity|exact Hprefix]].
Qed.

Lemma wagered_equals_spins_witness :
  exists st,
    spin_loop default_config 100 3 retrigger_tape = Ok st /\
    total_spins (stats st) = 3 /\
    float_eq_int (total_wagered (stats st)) (total_spins (stats st)) = true.
Proof.
  eexists. split; [vm_compute; reflexivity|].
  refine (let H := wagered_equals_spins default_config 100 retrigger_tape 3 _
                     _ _ in conj (proj1 H) (proj1 (proj2 H))).
  - vm_compute. discriminate.
  - vm_compute; reflexivity.
Defined.

(** Against C4 as stated (for every number of spins): one spin past
    2^53 the counter is 2^53 + 1 and the accumulator stays at 2^53. *)
Lemma wagered_stalls_past_2_53 :
  exists st,
    spin_loop default_config 0 9007199254740993 zero_tape = Ok st /\
    total_spins (stats st) = 9007199254740993 /\
    total_wagered (stats st) = 9007199254740992%float /\
    float_eq_int (total_wagered (stats st)) (total_spins (stats st)) = false.
Proof.
  destruct (zero_tape_loop 0 9007199254740993 ltac:(lia)) as (s & c & a & Hrun).
  exists (mkSim s (mkRng (fun _ => O) c) a). split; [exact Hrun|].
  change 9007199254740993 with (9007199254740992 + 1) in Hrun.
  rewrite spin_loop_step in Hrun by lia.
  destruct (zero_tape_loop 0 9007199254740992 ltac:(lia)) as (s0 & c0 & a0 & Hk).
  rewrite Hk in Hrun. unfold bind in Hrun.
  destruct (wagered_tracks_spins default_config 0 zero_tape 9007199254740992 _
              ltac:(vm_compute; split; discriminate) Hk) as [H1 H2].
  apply simulate_spin_counts in Hrun. destruct Hrun as [H3 H4].
  cbn [stats] in H1, H2, H3, H4 |- *.
  replace (float_of_int 9007199254740992) with (Ok 9007199254740992%float) in H2
    by (vm_compute; reflexivity).
  assert (H5 : total_wagered s0 = 9007199254740992%float) by congruence.
  rewrite H3, H4, H1, H5.
  repeat split; vm_compute; reflexivity.
Qed.

(** ** C9: churn-risk thresholds

    Comparisons of binary64 values are those of [SFcompare]; a NaN compares
    with nothing. *)

Lemma SFcompare_antisym (a b : spec_float) :
  SFcompare b a = option_map CompOpp (SFcompare a b).
Proof.
  destruct a as [sa|sa| |sa ma ea], b as [sb|sb| |sb mb eb]; simpl;
    try reflexivity;
    try (destruct sa; reflexivity); try (destruct sb; reflexivity);
    try (destruct sa, sb; reflexivity).
  destruct sa, sb; try reflexivity;
    rewrite (Z.compare_antisym ea eb);
    destruct (ea ?= eb); simpl; try reflexivity;
    rewrite (Pos.compare_cont_antisym ma mb Eq); reflexivity.
Qed.

(** Two positive thresholds with increasing exponents: what is below or
    at the first is below the second, and a NaN compares with neither. *)
Lemma SFcompare_chain (x : spec_float) (m1 m2 : positive) (e1 e2 : Z) :
  e1 < e2 ->
  match SFcompare x (S754_finite false m1 e1),
        SFcompare x (S754_finite false m2 e2) with
  | None, None => True
  | Some Gt, Some _ => True
  | Some _, Some Lt => True
  | _, _ => False
  end.
Proof.
  intros He. destruct x as [s|s| |s m e]; simpl; try exact I.
  - destruct s; exact I.
  - destruct s; simpl; try exact I.
    destruct (Z.compare_spec e e1), (Z.compare_spec e e2); try lia; try exact I;
      destruct (Pos.compare_cont Eq m m1); exact I.
Qed.

Lemma Prim2SF_thresholds :
  Prim2SF 50 = sf50 /\ Prim2SF 100 = sf100 /\ Prim2SF 150 = sf150.
Proof. repeat split; reflexivity. Qed.

(** C9. The churn classification is exactly: CRITICAL when
    [median_spins < 50], HIGH when [50 <= median_spins < 100], MEDIUM when
    [100 <= median_spins < 150], LOW otherwise; 49 is CRITICAL, 149 is
    MEDIUM and 151 is LOW. *)
Theorem churn_risk_thresholds (median_spins : float) :
  (churn_risk median_spins = "CRITICAL" <-> (median_spins <? 50)%float = true) /\
  (churn_risk median_spins = "HIGH" <->
     (50 <=? median_spins)%float = true /\ (median_spins <? 100)%float = true) /\
  (churn_risk median_spins = "MEDIUM" <->
     (100 <=? median_spins)%float = true /\ (median_spins <? 150)%float = true) /\
  (churn_risk median_spins = "LOW" <->
     (median_spins <? 50)%float = false /\
     ((50 <=? median_spins) && (median_spins <? 100))%float = false /\
     ((100 <=? median_spins) && (median_spins <? 150))%float = false) /\
  churn_risk 49 = "CRITICAL" /\
  churn_risk 149 = "MEDIUM" /\
  churn_risk 151 = "LOW".
Proof.
  destruct Prim2SF_thresholds as (E50 & E100 & E150).
  unfold churn_risk. rewrite !ltb_spec, !leb_spec, E50, E100, E150.
  unfold SFltb, SFleb.
  rewrite (SFcompare_antisym (Prim2SF median_spins) sf50).
  rewrite (SFcompare_antisym (Prim2SF median_spins) sf100).
  pose proof (SFcompare_chain (Prim2SF median_spins)
                7036874417766400 7036874417766400 (-47) (-46) ltac:(lia)) as H1.
  pose proof (SFcompare_chain (Prim2SF median_spins)
                7036874417766400 5277655813324800 (-46) (-45) ltac:(lia)) as H2.
  fold sf50 sf100 in H1. fold sf100 sf150 in H2.
  destruct (SFcompare (Prim2SF median_spins) sf50) as [[| |]|];
    destruct (SFcompare (Prim2SF median_spins) sf100) as [[| |]|];
    destruct (SFcompare (Prim2SF median_spins) sf150) as [[| |]|];
    try contradiction; cbn [option_map CompOpp andb];
    (repeat split; try reflexivity; try discriminate;
     try (intros [? ?]; discriminate); try (intros (? & ? & ?); discriminate)).
Qed.

(** ** C3: zero spins *)

(** With zero spins the final metrics divide [total_won] by a zero
    [total_wagered]: [run_simulation] raises. *)
Lemma final_metrics_zero_spins_raise (cfg : config) (fuel : nat) (n : Z) (r : rng) :
  n <= 0 -> run_simulation cfg fuel n r = Raise ZeroDivisionError.
Proof.
  intros Hn. unfold run_simulation. rewrite spin_loop_none by exact Hn. reflexivity.
Qed.

(** A float above zero is not a zero divisor. *)
Lemma positive_not_zero (y : float) :
  (0 <? y)%float = true -> (y =? 0)%float = false.
Proof.
  rewrite ltb_spec, eqb_spec. unfold SFltb, SFeqb.
  rewrite (SFcompare_antisym (Prim2SF 0) (Prim2SF y)).
  destruct (SFcompare (Prim2SF 0) (Prim2SF y)) as [[| |]|]; simpl;
    intros H; try discriminate; reflexivity.
Qed.

(** The guarded running RTP never raises, whatever the accumulators. *)
Lemma current_rtp_total (s : SimulationStats) : exists q, current_rtp s = Ok q.
Proof.
  unfold current_rtp, truediv.
  destruct (0 <? total_wagered s)%float eqn:E; [|eauto].
  rewrite (positive_not_zero _ E). cbn [bind]. eauto.
Qed.

Lemma simulate_no_spins (o : opt_config) (reels : list (list symbol)) (n : Z) (r : rng) :
  n <= 0 -> simulate o reels n r = Ok (0%float, r).
Proof.
  intros Hn. unfold simulate.
  destruct n as [|p|p]; [reflexivity|lia|reflexivity].
Qed.

(** C3. With zero spins (or a negative count) [run_simulation] raises
    instead of reporting RTP = 0: the spin loop runs no iteration, so
    [total_wagered] is still 0.0 when the final metrics divide by it
    (line 287) and ZeroDivisionError is raised.  The same division is
    guarded where the progress line computes the running RTP (line 256)
    and in the optimiser's batch simulation: both return 0 there. *)
Theorem zero_spins_division_unguarded (cfg : config) (fuel : nat) (n : Z) (r : rng)
        (o : opt_config) (reels : list (list symbol)) :
  n <= 0 ->
  run_simulation cfg fuel n r = Raise ZeroDivisionError /\
  (exists st, spin_loop cfg fuel n r = Ok st /\
              total_spins (stats st) = 0 /\
              current_rtp (stats st) = Ok 0%float) /\
  simulate o reels n r = Ok (0%float, r).
Proof.
  intros Hn. split; [now apply final_metrics_zero_spins_raise|]. split.
  - exists (mkSim initial_stats r (mkGhost 0 0 0)).
    split; [now apply spin_loop_none|]. split; reflexivity.
  - now apply simulate_no_spins.
Qed.

Lemma zero_spins_division_unguarded_witness :
  run_simulation default_config 0 0 zero_tape = Raise ZeroDivisionError /\
  simulate (optimizer_of default_config) (REEL_STRIPS default_config) 0 zero_tape
  = Ok (0%float, zero_tape).
Proof.
  destruct (zero_spins_division_unguarded default_config 0 0 zero_tape
              (optimizer_of default_config) (REEL_STRIPS default_config)
              ltac:(lia)) as (H1 & _ & H2).
  split; [exact H1|exact H2].
Defined.

(** ** C7: the adjustment strength *)

(** [int] of a finite float is its exact value truncated toward zero. *)
Lemma int_of_float_truncates (x : float) (v : Q) :
  float_value x = Some v -> int_of_float x = Ok (Qtruncate v).
Proof.
  unfold float_value, int_of_float.
  destruct (Prim2SF x) as [s|s| |s m e]; try discriminate.
  - intros H; injection H as <-. reflexivity.
  - intros H; injection H as <-. f_equal.
    destruct (Z.leb_spec 0 e) as [He|He].
    + unfold Qtruncate. rewrite Qfloor_Z, Qceiling_Z.
      destruct (Qle_bool _ _); destruct s; try reflexivity;
        rewrite <- Pos2Z.opp_pos; lia.
    + assert (Hd : Z.pos (2 ^ Z.to_pos (- e)) = 2 ^ (- e)).
      { rewrite Pos2Z.inj_pow. f_equal. rewrite Z2Pos.id; lia. }
      unfold Qtruncate, Qle_bool, Qceiling, Qfloor, Qopp; cbn [Qnum Qden inject_Z].
      rewrite Hd. destruct s.
      * destruct (Z.leb_spec (0 * 2 ^ (- e)) (Z.neg m * 1)); [lia|].
        cbn [Z.opp]. reflexivity.
      * destruct (Z.leb_spec (0 * 2 ^ (- e)) (Z.pos m * 1)); [reflexivity|lia].
Qed.

(** C7. In an optimizer iteration that does not converge, the strength
    applied to the reels is [max(1, int(|rtp - target| * 2 / (1 + i * 0.3)))]:
    the float quotient of twice the absolute deviation by the damping term
    [1 + i * 0.3], truncated toward zero (not rounded) and raised to at
    least 1, [i] being the zero-based loop index. *)
Theorem adjust_strength_truncates (o : opt_config) (i : nat) (rest : list nat)
        (st st1 : opt_state) (rtp : float) (r1 : rng) (fi : float) (v : Q) :
  simulate o (reel_strips st) (SPINS o) (opt_gen st) = Ok (rtp, r1) ->
  record_reading o st i rtp r1 = Ok st1 ->
  (abs (rtp - TARGET_RTP o) <=? TOLERANCE o)%float = false ->
  float_of_int (Z.of_nat i) = Ok fi ->
  (1 + fi * 0.3 =? 0)%float = false ->
  float_value (abs (rtp - TARGET_RTP o) * 2 / (1 + fi * 0.3))%float = Some v ->
  adjust_strength rtp (TARGET_RTP o) (Z.of_nat i) = Ok (Z.max 1 (Qtruncate v)) /\
  optimize_loop o (i :: rest) st
  = ('(reels', r2) <- apply_strength o (Z.max 1 (Qtruncate v))
                        (rtp - TARGET_RTP o)%float (reel_strips st) r1 ;;
     optimize_loop o rest (with_reels st1 reels' r2)).
Proof.
  intros Hsim Hrec Hdev Hfi Hden Hv.
  assert (H : adjust_strength rtp (TARGET_RTP o) (Z.of_nat i)
              = Ok (Z.max 1 (Qtruncate v))).
  { unfold adjust_strength, strength_quotient. rewrite Hfi; cbn [bind].
    unfold truediv. rewrite Hden; cbn [bind].
    now rewrite (int_of_float_truncates _ v Hv). }
  split; [exact H|].
  cbn [optimize_loop]. rewrite Hsim; cbn [bind]. rewrite Hrec; cbn [bind].
  rewrite Hdev. unfold adjust_reels. rewrite H. reflexivity.
Qed.

Lemma adjust_strength_truncates_witness :
  adjust_strength 0 96 1 = Ok 147.
Proof.
  destruct (record_reading
              (mkOpt 96 0.1 20 2 5 3 (json_paytable (PAYTABLE default_config)))
              (mkOptState (REEL_STRIPS default_config) []
                          (REEL_STRIPS default_config) 999 zero_tape)
              1 0 (mkRng (fun _ => O) 10)) as [st1| |] eqn:E;
    [|vm_compute in E; discriminate..].
  refine (proj1 (adjust_strength_truncates
                   (mkOpt 96 0.1 20 2 5 3 (json_paytable (PAYTABLE default_config)))
                   1 [] (mkOptState (REEL_STRIPS default_config) []
                                    (REEL_STRIPS default_config) 999 zero_tape)
                   st1 0 (mkRng (fun _ => O) 10) 1
                   (Qmake 5196461108504418 35184372088832) _ E _ _ _ _)).
  - vm_compute; reflexivity.
  - vm_compute; reflexivity.
  - vm_compute; reflexivity.
  - vm_compute; reflexivity.
  - vm_compute; reflexivity.
Defined.

(** Against C7 as stated: the strength as documented ([round]) differs:
    a deviation of 0.875 in the first iteration gives the quotient 1.75,
    truncated to 1 and rounded to 2. *)
Lemma strength_is_not_rounded :
  adjust_strength 96.875 96 0 = Ok 1 /\
  documented_strength 96.875 96 0 = Ok 2 /\
  adjust_strength 96.875 96 0 <> documented_strength 96.875 96 0.
Proof.
  repeat split; try (vm_compute; reflexivity).
  vm_compute. discriminate.
Qed.

(** ** C2: the optimizer's win check against the WinEvaluator *)

(** Multiplying by 1.0 changes no binary64 value. *)
Lemma mul_one (x : float) : (x * 1)%float = x.
Proof.
  apply Prim2SF_inj. rewrite mul_spec, Prim2SF_one.
  pose proof (Prim2SF_valid x) as Hv.
  unfold SF64mul, SFmul, sf_one.
  destruct (Prim2SF x) as [s|s| |s m e]; try reflexivity;
    try (now rewrite xorb_false_r).
  rewrite xorb_false_r.
  replace (m * 4503599627370496)%positive with (Pos.shiftl m 52)
    by (rewrite Pos.mul_comm; reflexivity).
  change (e + -52) with (e - Z.of_N 52).
  apply binary_round_aux_exact. exact Hv.
Qed.

Lemma mul_float_int_one (x : float) : mul_float_int x 1 = Ok x.
Proof.
  unfold mul_float_int.
  replace (float_of_int 1) with (Ok 1%float) by (vm_compute; reflexivity).
  cbn [bind]. now rewrite mul_one.
Qed.

(** [str] is injective, so a JSON key selects the same entry. *)
Lemma str_inj (a b : Z) : str a = str b -> a = b.
Proof.
  unfold str. intros H.
  apply (f_equal NilEmpty.int_of_string) in H.
  rewrite !NilEmpty.isi in H. injection H as H.
  apply (f_equal Z.of_int) in H. now rewrite !DecimalZ.of_to in H.
Qed.

Lemma dict_get_json (k : Z) (pays : list (Z * float)) :
  dict_get String.eqb (str k) (json_pays pays) = dict_get Z.eqb k pays.
Proof.
  induction pays as [|[k' v] pays IH]; [reflexivity|].
  cbn [json_pays map dict_get fst snd].
  destruct (Z.eqb_spec k k') as [->|Hne].
  - now rewrite String.eqb_refl.
  - destruct (String.eqb_spec (str k) (str k')) as [E|_]; [|exact IH].
    apply str_inj in E. contradiction.
Qed.

Lemma for_each_map {A B S : Type} (f : A -> B) (xs : list A) (s : S) body :
  for_each (map f xs) s body = for_each xs s (fun s x => body s (f x)).
Proof.
  revert s; induction xs as [|x xs IH]; intros s; simpl; [reflexivity|].
  destruct (body s (f x)); simpl; auto.
Qed.

Lemma for_each_filter {A S : Type} (keep : A -> bool) (xs : list A) (s : S) body :
  for_each (filter keep xs) s body
  = for_each xs s (fun s x => if keep x then body s x else Ok s).
Proof.
  revert s; induction xs as [|x xs IH]; intros s; simpl; [reflexivity|].
  destruct (keep x); simpl; [|apply IH].
  destruct (body s x); simpl; auto.
Qed.

Lemma pays_of_entry (cfg : config) (sym : symbol) (pays : list (Z * float)) :
  NoDup (dict_keys (PAYTABLE cfg)) ->
  In (sym, pays) (PAYTABLE cfg) ->
  pays_of cfg sym = pays.
Proof.
  unfold pays_of. induction (PAYTABLE cfg) as [|[s p] pt IH]; intros Hnd HIn;
    [destruct HIn|].
  cbn [dict_keys map fst] in Hnd. inversion Hnd as [|? ? Hnotin Hnd']; subst.
  cbn [dict_get]. destruct HIn as [E|HIn].
  - injection E as -> ->. now rewrite String.eqb_refl.
  - destruct (String.eqb_spec sym s) as [->|_]; [|now apply IH].
    exfalso. apply Hnotin. change s with (fst (s, pays)).
    now apply in_map.
Qed.

Section SingleRow.
Variable cfg : config.

Lemma single_cell_matches (sym : symbol) (column : list symbol) :
  List.length column = 1%nat -> ~ In (WILD_SYMBOL cfg) column ->
  exists cell, column = [cell] /\
               rule_matches cfg sym column = if String.eqb cell sym then 1 else 0.
Proof.
  intros Hlen Hw. destruct column as [|cell [|? ?]]; try discriminate.
  exists cell. split; [reflexivity|].
  unfold rule_matches. cbn [filter].
  destruct (String.eqb_spec cell (WILD_SYMBOL cfg)) as [E|_].
  - exfalso. apply Hw. now left.
  - rewrite orb_false_r. now destruct (String.eqb cell sym).
Qed.

(** On one row without wilds the optimiser's count is the run of the rule. *)
Lemma leading_count_run (sym : symbol) (pre suf : grid) (count : Z) :
  Forall (fun column => List.length column = 1%nat) suf ->
  no_wild cfg suf ->
  leading_count (pre ++ suf) sym 0 (seq (List.length pre) (List.length suf)) count
  = Ok (count + Z.of_nat (run_of cfg sym suf)).
Proof.
  unfold run_of.
  revert pre count; induction suf as [|column suf IH]; intros pre count Hlen Hw.
  - simpl. f_equal. lia.
  - inversion Hlen as [|? ? Hl Hlen']; inversion Hw as [|? ? Hc Hw']; subst.
    destruct (single_cell_matches sym column Hl Hc) as (cell & -> & Hm).
    cbn [List.length seq leading_count map leading_run].
    rewrite index_app_here; cbn [bind index nth_error]. rewrite Hm.
    destruct (String.eqb cell sym).
    + replace (S (List.length pre)) with (List.length (pre ++ [[cell]]))
        by (rewrite length_app; simpl; lia).
      replace (pre ++ [cell] :: suf) with ((pre ++ [[cell]]) ++ suf)
        by (now rewrite <- app_assoc).
      rewrite IH by assumption. cbn [Z.ltb Z.compare List.length]. f_equal. lia.
    + cbn [Z.ltb Z.compare List.length]. f_equal. lia.
Qed.

(** The counts of a run on one row are all 1, and so is their product. *)
Lemma leading_run_ones (sym : symbol) (g : grid) :
  Forall (fun column => List.length column = 1%nat) g ->
  no_wild cfg g ->
  Forall (fun c => c = 1) (leading_run (map (rule_matches cfg sym) g)).
Proof.
  induction g as [|column g IH]; intros Hlen Hw; [constructor|].
  inversion Hlen as [|? ? Hl Hlen']; inversion Hw as [|? ? Hc Hw']; subst.
  destruct (single_cell_matches sym column Hl Hc) as (cell & -> & Hm).
  cbn [map leading_run]. rewrite Hm.
  destruct (String.eqb cell sym); cbn [Z.ltb Z.compare]; constructor; auto.
Qed.

Lemma rule_ways_ones (counts : list Z) (n : nat) :
  Forall (fun c => c = 1) counts -> rule_ways counts n = 1.
Proof.
  unfold rule_ways. revert n; induction counts as [|c counts IH]; intros n Hall.
  - now destruct n.
  - inversion Hall; subst. destruct n; [reflexivity|].
    cbn [firstn fold_right]. rewrite IH by assumption. reflexivity.
Qed.

Hypothesis single_row : NUM_ROWS cfg = 1%nat.
Variable g : grid.
Hypothesis grid_shape : well_formed_grid cfg g.
Hypothesis grid_no_wild : no_wild cfg g.
Hypothesis grid_keyed : runs_are_keyed cfg g.

Lemma grid_single_cells : Forall (fun column => List.length column = 1%nat) g.
Proof. destruct grid_shape as [_ H]. now rewrite single_row in H. Qed.

(** What the evaluator adds for a paying symbol on such a grid. *)
Lemma symbol_win_single_row (sym : symbol) :
  In sym (dict_keys (PAYTABLE cfg)) ->
  symbol_win cfg g sym
  = Ok (if (run_of cfg sym g <? 3)%nat then None
        else dict_get Z.eqb (Z.of_nat (run_of cfg sym g)) (pays_of cfg sym)).
Proof.
  intros Hkey. rewrite (symbol_win_rule cfg g sym grid_shape).
  unfold rule_symbol_win. fold (run_of cfg sym g).
  destruct (Nat.ltb_spec (run_of cfg sym g) 3) as [Hlt|Hge]; [reflexivity|].
  pose proof (grid_keyed sym Hkey Hge) as Hk.
  destruct (dict_get Z.eqb (Z.of_nat (run_of cfg sym g)) (pays_of cfg sym))
    as [mult|] eqn:Hget; [|contradiction].
  destruct (run_of cfg sym g) as [|n] eqn:Hrun; [lia|].
  rewrite (rule_longest_present (pays_of cfg sym) n mult ltac:(lia) Hget), Hget.
  rewrite rule_ways_ones by (apply leading_run_ones;
                              [exact grid_single_cells|exact grid_no_wild]).
  now rewrite mul_float_int_one.
Qed.

(** What the optimiser adds for a paytable entry on such a grid. *)
Lemma award_entry_single_row (sym : symbol) (pays : list (Z * float))
      (total_won : float) :
  for_each (seq 0 (ROWS (optimizer_of cfg))) total_won (fun total_won row =>
    count <- leading_count g sym row (seq 0 (COLS (optimizer_of cfg))) 0 ;;
    let pay_key := str count in
    match dict_get String.eqb pay_key (json_pays pays) with
    | Some pay => if 3 <=? count then Ok (total_won + pay)%float else Ok total_won
    | None => Ok total_won
    end)
  = Ok (add_win total_won
          (if (run_of cfg sym g <? 3)%nat then None
           else dict_get Z.eqb (Z.of_nat (run_of cfg sym g)) pays)).
Proof.
  cbn [optimizer_of ROWS COLS]. rewrite single_row. cbn [seq for_each].
  destruct grid_shape as [Hlen _]. rewrite <- Hlen.
  pose proof (leading_count_run sym [] g 0 grid_single_cells grid_no_wild) as Hc.
  cbn [app List.length] in Hc. rewrite Hc.
  cbn [bind Z.add]. rewrite dict_get_json.
  destruct (Nat.ltb_spec (run_of cfg sym g) 3) as [Hlt|Hge].
  - destruct (Z.leb_spec 3 (Z.of_nat (run_of cfg sym g))); [lia|].
    now destruct (dict_get Z.eqb _ pays).
  - destruct (Z.leb_spec 3 (Z.of_nat (run_of cfg sym g))); [|lia].
    now destruct (dict_get Z.eqb _ pays).
Qed.

End SingleRow.

Lemma run_of_wild (cfg : config) (g : grid) :
  Forall (fun column => List.length column = 1%nat) g ->
  no_wild cfg g ->
  run_of cfg (WILD_SYMBOL cfg) g = 0%nat.
Proof.
  unfold run_of. intros Hlen Hw. destruct g as [|column g]; [reflexivity|].
  inversion Hlen as [|? ? Hl _]; inversion Hw as [|? ? Hc _]; subst.
  destruct (single_cell_matches cfg (WILD_SYMBOL cfg) column Hl Hc)
    as (cell & -> & Hm).
  cbn [map leading_run]. rewrite Hm.
  destruct (String.eqb_spec cell (WILD_SYMBOL cfg)) as [E|_]; [|reflexivity].
  exfalso. apply Hc. now left.
Qed.

(** C2. On a grid of a single row that shows no wild, when the scatter
    carries no pays, the paytable is a dictionary, and every run of 3 or
    more reels is itself a key of the symbol's pays, the win check of the
    optimiser's batch simulation (on the JSON image of the paytable) awards
    the payout of [evaluate_ways_win]. *)
Theorem single_row_award_agrees (cfg : config) (g : grid) :
  NUM_ROWS cfg = 1%nat ->
  well_formed_grid cfg g ->
  no_wild cfg g ->
  NoDup (dict_keys (PAYTABLE cfg)) ->
  pays_of cfg (SCATTER_SYMBOL cfg) = [] ->
  runs_are_keyed cfg g ->
  award (optimizer_of cfg) g 0 = evaluate_ways_win cfg g.
Proof.
  intros Hrow Hwf Hnw Hnd Hsc Hkeyed.
  unfold award, evaluate_ways_win, paying_symbols, dict_keys.
  cbn [optimizer_of paytable]. unfold json_paytable.
  rewrite for_each_filter, !for_each_map.
  apply for_each_ext. intros total_won [sym pays] HIn. cbn [fst snd].
  assert (Hkey : In sym (map fst (PAYTABLE cfg)))
    by (change sym with (fst (sym, pays)); now apply in_map).
  pose proof (pays_of_entry cfg sym pays Hnd HIn) as Hpays.
  etransitivity;
    [exact (award_entry_single_row cfg Hrow g Hwf Hnw sym pays total_won)|].
  destruct (negb (String.eqb sym (WILD_SYMBOL cfg) || String.eqb sym (SCATTER_SYMBOL cfg))
            && truthy (pays_of cfg sym)) eqn:Hkeep.
  - rewrite (symbol_win_single_row cfg Hrow g Hwf Hnw Hkeyed sym Hkey).
    cbn [bind]. now rewrite Hpays.
  - f_equal. apply andb_false_iff in Hkeep. destruct Hkeep as [Hsp|Hempty].
    + apply negb_false_iff, orb_true_iff in Hsp. destruct Hsp as [Hw|Hs].
      * apply String.eqb_eq in Hw. subst sym.
        rewrite run_of_wild; [reflexivity| |exact Hnw].
        destruct Hwf as [_ H]. now rewrite Hrow in H.
      * apply String.eqb_eq in Hs. subst sym.
        rewrite Hsc in Hpays. subst pays.
        now destruct (run_of cfg (SCATTER_SYMBOL cfg) g <? 3)%nat.
    + rewrite Hpays in Hempty. destruct pays; [|discriminate].
      now destruct (run_of cfg sym g <? 3)%nat.
Qed.

Lemma single_row_award_agrees_witness :
  award (optimizer_of single_row_config) row_grid 0 = Ok 0.3%float /\
  evaluate_ways_win single_row_config row_grid = Ok 0.3%float.
Proof.
  assert (H : award (optimizer_of single_row_config) row_grid 0
              = evaluate_ways_win single_row_config row_grid).
  { apply single_row_award_agrees.
    - reflexivity.
    - split; [reflexivity|]. repeat constructor.
    - repeat constructor; simpl; intros [E|[]]; discriminate.
    - vm_compute. repeat constructor; simpl; intuition discriminate.
    - reflexivity.
    - intros sym Hsym Hrun.
      vm_compute in Hsym.
      repeat (destruct Hsym as [<-|Hsym];
              [vm_compute in Hrun |- *; try lia; discriminate|]).
      destruct Hsym. }
  split; [|rewrite <- H]; vm_compute; reflexivity.
Defined.

(** Against C2 as stated: on the grid of the all-zero tape the
    evaluator pays 5 reels of L2 (one way, 4.0) while no row of the window
    starts with three equal cells. *)
Lemma award_differs_from_evaluator :
  award (optimizer_of default_config) grid0 0 = Ok 0%float /\
  evaluate_ways_win default_config grid0 = Ok 4%float /\
  award (optimizer_of default_config) grid0 0
    <> evaluate_ways_win default_config grid0.
Proof.
  repeat split; try (vm_compute; reflexivity).
  intros H.
  apply (f_equal (fun res : result float =>
                    match res with Ok x => (x =? 0)%float | _ => false end)) in H.
  vm_compute in H. discriminate.
Qed.

(** * Further properties of the modelled code *)

(** ** The order of binary64 values

    [SFcompare] is a total preorder on the values that are not NaN. *)

Lemma SFcompare_trans (a b c : spec_float) (c1 c2 : comparison) :
  SFcompare a b = Some c1 -> SFcompare b c = Some c2 ->
  c1 <> Gt -> c2 <> Gt ->
  SFcompare a c = Some (match c1, c2 with Eq, Eq => Eq | _, _ => Lt end).
Proof.
  destruct a as [sa|sa| |sa ma ea], b as [sb|sb| |sb mb eb],
           c as [sc|sc| |sc mc ec]; simpl; try discriminate;
    try (destruct sa); try (destruct sb); try (destruct sc);
    intros H1 H2 N1 N2;
    try (injection H1 as <-); try (injection H2 as <-);
    try reflexivity; try congruence;
    revert N1 N2; compare_cases_tac; intros N1 N2;
    try reflexivity; try congruence; exfalso; lia.
Qed.

Lemma SFcompare_refl (a : spec_float) :
  a <> S754_nan -> SFcompare a a = Some Eq.
Proof.
  destruct a as [s|s| |s m e]; simpl; intros H; try reflexivity;
    try (destruct s; reflexivity); try contradiction.
  destruct s; rewrite Z.compare_refl;
    change (Pos.compare_cont Eq m m) with (Pos.compare m m);
    now rewrite Pos.compare_refl.
Qed.

Lemma SFcompare_None (a b : spec_float) :
  SFcompare a b = None <-> a = S754_nan \/ b = S754_nan.
Proof.
  destruct a as [sa|sa| |sa ma ea], b as [sb|sb| |sb mb eb]; simpl;
    split; intros H; try discriminate; try reflexivity; auto;
    destruct H; discriminate.
Qed.

Lemma compare_cases (x y : float) :
  not_nan_prop x -> not_nan_prop y ->
  exists c, SFcompare (Prim2SF x) (Prim2SF y) = Some c.
Proof.
  intros Hx Hy. destruct (SFcompare (Prim2SF x) (Prim2SF y)) as [c|] eqn:E; [eauto|].
  apply SFcompare_None in E. destruct E; contradiction.
Qed.

Lemma ltb_not_nan (x y : float) :
  (x <? y)%float = true -> not_nan_prop x /\ not_nan_prop y.
Proof.
  rewrite ltb_spec. unfold SFltb, not_nan_prop.
  destruct (SFcompare (Prim2SF x) (Prim2SF y)) as [c|] eqn:E; [|discriminate].
  intros _. split; intros H; rewrite H in E;
    [|destruct (Prim2SF x)]; discriminate.
Qed.


Lemma leb_refl (x : float) : not_nan_prop x -> (x <=? x)%float = true.
Proof.
  intros Hx. rewrite leb_spec. unfold SFleb. now rewrite SFcompare_refl.
Qed.

Lemma leb_trans (x y z : float) :
  (x <=? y)%float = true -> (y <=? z)%float = true -> (x <=? z)%float = true.
Proof.
  rewrite !leb_spec. unfold SFleb.
  destruct (SFcompare (Prim2SF x) (Prim2SF y)) as [c1|] eqn:E1; [|discriminate].
  destruct (SFcompare (Prim2SF y) (Prim2SF z)) as [c2|] eqn:E2; [|discriminate].
  intros H1 H2.
  rewrite (SFcompare_trans _ _ _ c1 c2 E1 E2)
    by (intros ->; discriminate).
  now destruct c1, c2.
Qed.

Lemma ltb_leb_trans (x y z : float) :
  (x <? y)%float = true -> (y <=? z)%float = true -> (x <? z)%float = true.
Proof.
  rewrite !ltb_spec, leb_spec. unfold SFltb, SFleb.
  destruct (SFcompare (Prim2SF x) (Prim2SF y)) as [c1|] eqn:E1; [|discriminate].
  destruct (SFcompare (Prim2SF y) (Prim2SF z)) as [c2|] eqn:E2; [|discriminate].
  intros H1 H2.
  rewrite (SFcompare_trans _ _ _ c1 c2 E1 E2)
    by (intros ->; discriminate).
  destruct c1, c2; try discriminate; reflexivity.
Qed.

Lemma ltb_leb (x y : float) : (x <? y)%float = true -> (x <=? y)%float = true.
Proof.
  rewrite ltb_spec, leb_spec. unfold SFltb, SFleb.
  now destruct (SFcompare (Prim2SF x) (Prim2SF y)) as [[| |]|].
Qed.

(** Between two values that are not NaN, [not (x < y)] is [y <= x]. *)
Lemma ltb_false_leb (x y : float) :
  not_nan_prop x -> not_nan_prop y ->
  (x <? y)%float = false -> (y <=? x)%float = true.
Proof.
  intros Hx Hy. rewrite ltb_spec, leb_spec. unfold SFltb, SFleb.
  rewrite (SFcompare_antisym (Prim2SF x) (Prim2SF y)).
  destruct (compare_cases x y Hx Hy) as [c ->].
  destruct c; simpl; intros H; try discriminate; reflexivity.
Qed.

Lemma leb_ltb_false (x y : float) :
  (y <=? x)%float = true -> (x <? y)%float = false.
Proof.
  rewrite ltb_spec, leb_spec. unfold SFltb, SFleb.
  rewrite (SFcompare_antisym (Prim2SF x) (Prim2SF y)).
  destruct (SFcompare (Prim2SF x) (Prim2SF y)) as [[| |]|]; simpl;
    intros H; try discriminate; reflexivity.
Qed.

Lemma eqb_ltb_trans (x y z : float) :
  (x =? y)%float = true -> (y <? z)%float = true -> (x <? z)%float = true.
Proof.
  rewrite eqb_spec, !ltb_spec. unfold SFeqb, SFltb.
  destruct (SFcompare (Prim2SF x) (Prim2SF y)) as [c1|] eqn:E1; [|discriminate].
  destruct (SFcompare (Prim2SF y) (Prim2SF z)) as [c2|] eqn:E2; [|discriminate].
  intros H1 H2.
  rewrite (SFcompare_trans _ _ _ c1 c2 E1 E2)
    by (intros ->; discriminate).
  destruct c1, c2; try discriminate; reflexivity.
Qed.

(** [t <= w] is [not (w < t)] unless [w] is NaN. *)
Lemma leb_negb_ltb (t w : float) :
  not_nan_prop t ->
  (t <=? w)%float = negb (w <? t)%float && (w =? w)%float.
Proof.
  intros Ht. rewrite leb_spec, ltb_spec, eqb_spec. unfold SFleb, SFltb, SFeqb.
  rewrite (SFcompare_antisym (Prim2SF t) (Prim2SF w)).
  destruct (SFcompare (Prim2SF t) (Prim2SF w)) as [c|] eqn:E.
  - rewrite SFcompare_refl.
    + destruct c; reflexivity.
    + intros Hw. rewrite Hw in E. destruct (Prim2SF t); discriminate.
  - apply SFcompare_None in E. destruct E as [E|E]; [contradiction|].
    rewrite E. reflexivity.
Qed.

Lemma ltb_self (w t : float) : (w <? t)%float = true -> (w =? w)%float = true.
Proof.
  intros H. apply ltb_not_nan in H. destruct H as [Hw _].
  rewrite eqb_spec. unfold SFeqb. now rewrite SFcompare_refl.
Qed.

Lemma eqb_self (w t : float) : (w =? t)%float = true -> (w =? w)%float = true.
Proof.
  rewrite !eqb_spec. unfold SFeqb.
  destruct (SFcompare (Prim2SF w) (Prim2SF t)) as [c|] eqn:E; [|discriminate].
  intros _. rewrite SFcompare_refl; [reflexivity|].
  intros Hw. rewrite Hw in E. discriminate.
Qed.

(** ** The spin engine *)

Lemma for_each_app {A St : Type} (xs ys : list A) (s : St) body :
  for_each (xs ++ ys) s body = (s' <- for_each xs s body ;; for_each ys s' body).
Proof.
  revert s; induction xs as [|x xs IH]; intros s; simpl; [reflexivity|].
  destruct (body s x); simpl; auto.
Qed.

Lemma collect_map {A B : Type} (f : A -> result B) (h : A -> B) (xs : list A)
      (acc : list B) :
  (forall x, In x xs -> f x = Ok (h x)) ->
  for_each xs acc (fun out x => y <- f x ;; Ok (out ++ [y])) = Ok (acc ++ map h xs).
Proof.
  revert acc; induction xs as [|x xs IH]; intros acc Hf; simpl.
  - now rewrite app_nil_r.
  - rewrite Hf by now left. simpl. rewrite IH by (intros; apply Hf; now right).
    now rewrite <- app_assoc.
Qed.

Lemma column_window (strip : list symbol) (start rows : nat) :
  strip <> [] ->
  for_each (seq 0 rows) [] (fun column row =>
    let pos := ((start + row) mod List.length strip)%nat in
    s <- index strip pos ;; Ok (column ++ [s]))
  = Ok (strip_window strip start rows).
Proof.
  intros Hne. unfold strip_window.
  rewrite (collect_map
             (fun row => index strip ((start + row) mod List.length strip))
             (fun row => nth ((start + row) mod List.length strip) strip "")).
  - reflexivity.
  - intros row _. apply index_nth. apply nth_error_nth'.
    apply Nat.mod_upper_bound. destruct strip; [contradiction|discriminate].
Qed.

Lemma spin_reels_from (cfg : config) (n k : nat) (g : grid) (r : rng) :
  (forall i, (k <= i < k + n)%nat -> reel_ready cfg i) ->
  for_each (seq k n) (g, r) (fun '(g, r) reel_idx =>
    strip <- match nth_error (REEL_STRIPS cfg) reel_idx with
             | Some strip => Ok strip
             | None => Raise KeyError
             end ;;
    let num_stops := List.length strip in
    '(start_pos, r') <- randint r num_stops ;;
    column <- for_each (seq 0 (NUM_ROWS cfg)) [] (fun column row =>
                let pos := ((start_pos + row) mod num_stops)%nat in
                s <- index strip pos ;; Ok (column ++ [s])) ;;
    Ok (g ++ [column], r'))
  = Ok (g ++ map (fun i =>
                    let strip := nth i (REEL_STRIPS cfg) [] in
                    strip_window strip
                      (tape r (cursor r + (i - k)) mod List.length strip)
                      (NUM_ROWS cfg))
                 (seq k n),
        mkRng (tape r) (cursor r + n)).
Proof.
  revert k g r. induction n as [|n IH]; intros k g r Hready.
  - simpl. rewrite app_nil_r, Nat.add_0_r. now destruct r.
  - cbn [seq for_each].
    destruct (Hready k ltac:(lia)) as (strip & Hstrip & Hne).
    rewrite Hstrip. cbn [bind]. unfold randint.
    destruct (Nat.eqb_spec (List.length strip) 0) as [H0|_];
      [destruct strip; [contradiction|discriminate]|].
    cbn [bind]. rewrite column_window by exact Hne. cbn [bind].
    rewrite IH by (intros i Hi; apply Hready; lia).
    cbn [tape cursor map]. rewrite <- app_assoc. cbn [app].
    rewrite (nth_error_nth _ _ [] Hstrip), Nat.sub_diag, Nat.add_0_r.
    apply f_equal. apply f_equal2; [|apply f_equal; lia].
    apply f_equal. apply f_equal.
    apply map_ext_in. intros i Hi. apply in_seq in Hi.
    replace (S (cursor r) + (i - S k))%nat with (cursor r + (i - k))%nat by lia.
    reflexivity.
Qed.

Lemma spin_reels_rng (cfg : config) (r r' : rng) (g : grid) :
  spin_reels cfg r = Ok (g, r') ->
  tape r' = tape r /\ cursor r' = (cursor r + NUM_REELS cfg)%nat.
Proof.
  intros H. unfold spin_reels in H.
  pose (P := fun (k : nat) (s : grid * rng) =>
               tape (snd s) = tape r /\ cursor (snd s) = (cursor r + k)%nat).
  enough (HP : P (0 + List.length (seq 0 (NUM_REELS cfg)))%nat (g, r')).
  { destruct HP as [H1 H2]. rewrite length_seq in H2. auto. }
  refine (for_each_invariant P _ _ _ 0%nat ([], r) (g, r') _ H);
    [|unfold P; cbn [snd]; split; [reflexivity|lia]].
  unfold P; clear. intros k [g r0] reel_idx [g' r'] [Ht Hc]. cbn [snd] in *.
  destruct (nth_error (REEL_STRIPS cfg) reel_idx) as [strip|]; simpl; try discriminate.
  unfold randint. destruct (List.length strip =? 0)%nat; simpl; try discriminate.
  destruct (for_each (seq 0 (NUM_ROWS cfg)) [] _) as [column| |];
    simpl; try discriminate.
  intros H; inversion H; subst; clear H. cbn [snd tape cursor]. split; [exact Ht|lia].
Qed.

Lemma spin_reels_ready (cfg : config) (r : rng) :
  (forall i, (i < NUM_REELS cfg)%nat -> reel_ready cfg i) ->
  spin_reels cfg r
  = Ok (drawn_grid cfg r, mkRng (tape r) (cursor r + NUM_REELS cfg)).
Proof.
  intros Hready. unfold spin_reels, drawn_grid.
  rewrite spin_reels_from by (intros i Hi; apply Hready; lia).
  cbn [app]. apply f_equal. apply f_equal2; [|reflexivity].
  apply map_ext. intros i. now rewrite Nat.sub_0_r.
Qed.

(** X1. Whatever the strips, a spin that returns has drawn exactly one
    random number per reel from the generator, and its grid has
    [NUM_REELS] columns of [NUM_ROWS] cells. *)
Theorem spin_reels_draws (cfg : config) (r r' : rng) (g : grid) :
  spin_reels cfg r = Ok (g, r') ->
  well_formed_grid cfg g /\
  tape r' = tape r /\
  cursor r' = (cursor r + NUM_REELS cfg)%nat.
Proof.
  intros H. split; [eapply spin_reels_well_formed; eauto|].
  eapply spin_reels_rng; eauto.
Qed.

Lemma spin_reels_draws_witness :
  spin_reels default_config zero_tape = Ok (grid0, mkRng (fun _ => O) 5) /\
  cursor (mkRng (fun _ => O) 5) = (cursor zero_tape + NUM_REELS default_config)%nat.
Proof.
  assert (H : spin_reels default_config zero_tape = Ok (grid0, mkRng (fun _ => O) 5))
    by reflexivity.
  split; [exact H|].
  exact (proj2 (proj2 (spin_reels_draws default_config zero_tape _ grid0 H))).
Defined.

(** X2. When each of the first [NUM_REELS] reels has a strip with at least
    one stop, a spin succeeds, and column [i] of its grid is the window of
    [NUM_ROWS] consecutive stops of strip [i] that starts at the [i]-th
    draw modulo the strip length and wraps around the end of the strip;
    so every cell of column [i] is a symbol of strip [i]. *)
Theorem spin_reels_windows (cfg : config) (r : rng) :
  (forall i, (i < NUM_REELS cfg)%nat -> reel_ready cfg i) ->
  spin_reels cfg r
  = Ok (drawn_grid cfg r, mkRng (tape r) (cursor r + NUM_REELS cfg)) /\
  forall i column s,
    nth_error (drawn_grid cfg r) i = Some column -> In s column ->
    In s (nth i (REEL_STRIPS cfg) []).
Proof.
  intros Hready. split; [now apply spin_reels_ready|].
  intros i column s Hcol Hs. unfold drawn_grid in Hcol.
  rewrite nth_error_map in Hcol.
  destruct (nth_error (seq 0 (NUM_REELS cfg)) i) as [j|] eqn:Ej; [|discriminate].
  assert (Hi : (i < List.length (seq 0 (NUM_REELS cfg)))%nat)
    by (apply nth_error_Some; congruence).
  rewrite length_seq in Hi.
  rewrite nth_error_seq in Ej.
  destruct (Nat.ltb_spec i (NUM_REELS cfg)) as [_|]; [|lia].
  injection Ej as <-. cbn [Nat.add] in Hcol. injection Hcol as <-.
  unfold strip_window in Hs. apply in_map_iff in Hs. destruct Hs as (row & <- & _).
  destruct (Hready i Hi) as (strip & Hstrip & Hne).
  rewrite (nth_error_nth _ _ [] Hstrip). apply nth_In.
  apply Nat.mod_upper_bound. destruct strip; [contradiction|discriminate].
Qed.

Lemma default_reels_ready :
  forall i, (i < NUM_REELS default_config)%nat -> reel_ready default_config i.
Proof.
  intros i Hi. unfold reel_ready. cbn in Hi.
  do 5 (destruct i as [|i]; [eexists; split; [reflexivity|discriminate]|]).
  lia.
Qed.

Lemma spin_reels_windows_witness :
  spin_reels default_config retrigger_tape
  = Ok (drawn_grid default_config retrigger_tape,
        mkRng (tape retrigger_tape) (cursor retrigger_tape + 5)).
Proof.
  exact (proj1 (spin_reels_windows default_config retrigger_tape default_reels_ready)).
Defined.

(** X3. A spin fails on its reel strips: when the first reel without a
    usable strip has no strip at all it raises KeyError, from
    [REEL_STRIPS[reel_idx]], and when its strip is empty it raises
    ValueError, from [randint(0, 0)]. *)
Theorem spin_reels_failure (cfg : config) (r : rng) (i : nat) :
  (i < NUM_REELS cfg)%nat ->
  (forall j, (j < i)%nat -> reel_ready cfg j) ->
  (nth_error (REEL_STRIPS cfg) i = None -> spin_reels cfg r = Raise KeyError) /\
  (nth_error (REEL_STRIPS cfg) i = Some [] -> spin_reels cfg r = Raise ValueError).
Proof.
  intros Hi Hready. unfold spin_reels.
  replace (NUM_REELS cfg) with (i + S (NUM_REELS cfg - S i))%nat by lia.
  rewrite seq_app, for_each_app.
  rewrite spin_reels_from by (intros j Hj; apply Hready; lia).
  cbn [bind seq for_each Nat.add].
  split; intros ->; reflexivity.
Qed.

Lemma spin_reels_failure_witness :
  spin_reels (mkConfig 2 3 [["H1"]; []] [] "WD" "SC" [] 1 false) zero_tape
  = Raise ValueError.
Proof.
  refine (proj2 (spin_reels_failure
                   (mkConfig 2 3 [["H1"]; []] [] "WD" "SC" [] 1 false)
                   zero_tape 1%nat _ _) eq_refl).
  - simpl. lia.
  - intros j Hj. destruct j as [|j]; [|lia].
    eexists; split; [reflexivity|discriminate].
Defined.

(** ** Scatters *)

Lemma count_column_from (cfg : config) (column : list symbol) (count : Z) :
  fold_left (fun count sym =>
               if String.eqb sym (SCATTER_SYMBOL cfg) then count + 1 else count)
            column count
  = count + scatter_cells cfg column.
Proof.
  unfold scatter_cells, occurrences.
  revert count; induction column as [|cell column IH]; intros count.
  - simpl. lia.
  - cbn [fold_left count_occ]. rewrite IH.
    destruct (String.eqb_spec cell (SCATTER_SYMBOL cfg)) as [->|Hne].
    + destruct (string_dec _ _) as [_|]; [|contradiction].
      rewrite Nat2Z.inj_succ. lia.
    + destruct (string_dec _ _) as [|_]; [contradiction|]. lia.
Qed.

Lemma scatter_cells_app (cfg : config) (xs ys : list symbol) :
  scatter_cells cfg (xs ++ ys) = scatter_cells cfg xs + scatter_cells cfg ys.
Proof.
  unfold scatter_cells, occurrences. rewrite count_occ_app. apply Nat2Z.inj_add.
Qed.

Lemma count_scatters_from (cfg : config) (g : grid) (count : Z) :
  fold_left (fun count reel =>
    fold_left (fun count sym =>
      if String.eqb sym (SCATTER_SYMBOL cfg) then count + 1 else count) reel count)
    g count
  = count + scatter_cells cfg (List.concat g).
Proof.
  revert count; induction g as [|column g IH]; intros count.
  - simpl. unfold scatter_cells, occurrences. simpl. lia.
  - cbn [fold_left List.concat]. rewrite count_column_from, IH, scatter_cells_app. lia.
Qed.

Lemma count_scatters_cells (cfg : config) (g : grid) :
  count_scatters cfg g = scatter_cells cfg (List.concat g).
Proof. unfold count_scatters. now rewrite count_scatters_from. Qed.

Lemma scatter_cells_bounds (cfg : config) (cells : list symbol) :
  0 <= scatter_cells cfg cells <= Z.of_nat (List.length cells).
Proof.
  unfold scatter_cells, occurrences.
  pose proof (count_occ_bound string_dec (SCATTER_SYMBOL cfg) cells). unfold symbol in *. lia.
Qed.

Lemma well_formed_cells (cfg : config) (g : grid) :
  well_formed_grid cfg g ->
  List.length (List.concat g) = (NUM_REELS cfg * NUM_ROWS cfg)%nat.
Proof.
  intros [Hlen Hall]. rewrite <- Hlen. clear Hlen.
  induction Hall as [|column g Hcol _ IH]; [reflexivity|].
  cbn [List.concat List.length]. rewrite length_app, IH, Hcol. lia.
Qed.

(** X4. The scatter count is the number of cells of the grid that show
    the scatter symbol, whatever their reel and row: it lies between 0 and
    the number of cells, and two grids with the same cells in any
    arrangement have the same count. *)
Theorem count_scatters_anywhere (cfg : config) (g g' : grid) :
  well_formed_grid cfg g ->
  Permutation (List.concat g) (List.concat g') ->
  0 <= count_scatters cfg g <= Z.of_nat (NUM_REELS cfg * NUM_ROWS cfg) /\
  count_scatters cfg g = occurrences (SCATTER_SYMBOL cfg) (List.concat g) /\
  count_scatters cfg g' = count_scatters cfg g.
Proof.
  intros Hwf Hperm. rewrite !count_scatters_cells.
  split; [|split].
  - rewrite <- (well_formed_cells cfg g Hwf). apply scatter_cells_bounds.
  - reflexivity.
  - unfold scatter_cells, occurrences. f_equal.
    symmetry. now apply (Permutation_count_occ string_dec).
Qed.

Lemma count_scatters_anywhere_witness :
  count_scatters default_config
    [["L1"; "H3"; "SC"]; ["WD"; "L3"; "H5"]; ["L2"; "L3"; "L4"];
     ["L3"; "L4"; "H3"]; ["H2"; "L2"; "L3"]]
  = count_scatters default_config
    [["SC"; "H3"; "L1"]; ["WD"; "L3"; "H5"]; ["L2"; "L3"; "L4"];
     ["L3"; "L4"; "H3"]; ["H2"; "L2"; "L3"]].
Proof.
  refine (proj2 (proj2 (count_scatters_anywhere default_config
    [["SC"; "H3"; "L1"]; ["WD"; "L3"; "H5"]; ["L2"; "L3"; "L4"];
     ["L3"; "L4"; "H3"]; ["H2"; "L2"; "L3"]]
    [["L1"; "H3"; "SC"]; ["WD"; "L3"; "H5"]; ["L2"; "L3"; "L4"];
     ["L3"; "L4"; "H3"]; ["H2"; "L2"; "L3"]] _ _))).
  - split; [reflexivity|]. repeat constructor.
  - cbn [List.concat app]. apply Permutation_sym.
    change (Permutation (["L1"; "H3"; "SC"] ++ ["WD"; "L3"; "H5"; "L2"; "L3"; "L4";
                          "L3"; "L4"; "H3"; "H2"; "L2"; "L3"])
                        (["SC"; "H3"; "L1"] ++ ["WD"; "L3"; "H5"; "L2"; "L3"; "L4";
                          "L3"; "L4"; "H3"; "H2"; "L2"; "L3"])).
    apply Permutation_app_tail.
    apply (Permutation_rev ["L1"; "H3"; "SC"]).
Defined.

(** ** Row positions *)

Lemma rule_matches_perm (cfg : config) (sym : symbol) (column column' : list symbol) :
  Permutation column column' ->
  rule_matches cfg sym column = rule_matches cfg sym column'.
Proof.
  intros H. unfold rule_matches. f_equal.
  induction H as [|cell xs ys _ IH|a b xs|xs ys zs _ IH1 _ IH2]; simpl.
  - reflexivity.
  - destruct (_ || _); simpl; now rewrite IH.
  - destruct (String.eqb b sym || _), (String.eqb a sym || _); reflexivity.
  - now rewrite IH1.
Qed.

Lemma same_reels_counts (cfg : config) (sym : symbol) (g g' : grid) :
  same_reels g g' ->
  map (rule_matches cfg sym) g = map (rule_matches cfg sym) g'.
Proof.
  intros H. induction H as [|column column' g g' Hc _ IH]; [reflexivity|].
  cbn [map]. now rewrite IH, (rule_matches_perm cfg sym column column' Hc).
Qed.

Lemma same_reels_well_formed (cfg : config) (g g' : grid) :
  same_reels g g' -> well_formed_grid cfg g -> well_formed_grid cfg g'.
Proof.
  intros H [Hlen Hall]. split.
  - rewrite <- Hlen. symmetry. eapply Forall2_length; eauto.
  - clear Hlen. induction H as [|column column' g g' Hc _ IH]; [constructor|].
    inversion Hall as [|? ? Hcol Hall']; subst. constructor; [|now apply IH].
    rewrite <- Hcol. symmetry. now apply Permutation_length.
Qed.

(** X5. The payout of a grid does not depend on the row a cell is in:
    rearranging the cells inside each reel leaves [evaluate_ways_win]
    unchanged. *)
Theorem evaluate_ways_win_row_independent (cfg : config) (g g' : grid) :
  well_formed_grid cfg g ->
  same_reels g g' ->
  evaluate_ways_win cfg g' = evaluate_ways_win cfg g.
Proof.
  intros Hwf Hsame. unfold evaluate_ways_win.
  apply for_each_ext. intros total_win sym _.
  rewrite (symbol_win_rule cfg g sym Hwf).
  rewrite (symbol_win_rule cfg g' sym (same_reels_well_formed cfg g g' Hsame Hwf)).
  unfold rule_symbol_win. now rewrite (same_reels_counts cfg sym g g' Hsame).
Qed.

Lemma evaluate_ways_win_row_independent_witness :
  evaluate_ways_win default_config
    [["L1"; "WD"; "H1"]; ["L3"; "L2"; "H1"]; ["L4"; "H1"; "WD"];
     ["L1"; "L2"; "H1"]; ["L1"; "L4"; "L3"]]
  = evaluate_ways_win default_config grid_ways.
Proof.
  refine (evaluate_ways_win_row_independent default_config grid_ways _ _ _).
  - split; [reflexivity|]. repeat constructor.
  - unfold grid_ways, same_reels.
    repeat (apply Forall2_cons; [apply (Permutation_rev [_; _; _])|]).
    constructor.
Defined.

(** ** Where a win starts *)

Lemma leading_run_positive (counts : list Z) (i : nat) :
  (i < List.length (leading_run counts))%nat ->
  exists c, nth_error counts i = Some c /\ 0 < c.
Proof.
  revert i; induction counts as [|c counts IH]; intros i; simpl; [lia|].
  destruct (Z.ltb_spec 0 c) as [Hc|Hc]; simpl; [|lia].
  destruct i as [|i]; simpl; [eauto|].
  intros Hi. apply IH. lia.
Qed.

Lemma rule_matches_positive (cfg : config) (sym : symbol) (column : list symbol) :
  0 < rule_matches cfg sym column ->
  In sym column \/ In (WILD_SYMBOL cfg) column.
Proof.
  unfold rule_matches. intros H.
  destruct (filter (fun cell => String.eqb cell sym
                                || String.eqb cell (WILD_SYMBOL cfg)) column)
    as [|cell rest] eqn:E; [simpl in H; lia|].
  assert (HIn : In cell (filter (fun cell => String.eqb cell sym
                                   || String.eqb cell (WILD_SYMBOL cfg)) column))
    by (rewrite E; now left).
  apply filter_In in HIn. destruct HIn as [HIn Hb].
  apply orb_prop in Hb. destruct Hb as [Hb|Hb]; apply String.eqb_eq in Hb; subst; auto.
Qed.

(** X6. A symbol is paid only when each of the first three reels shows it
    or shows the wild: a win always starts on reel 1 and covers at least
    three adjacent reels. *)
Theorem symbol_win_needs_three_reels (cfg : config) (g : grid) (sym : symbol)
        (win : float) (i : nat) :
  well_formed_grid cfg g ->
  symbol_win cfg g sym = Ok (Some win) ->
  (i < 3)%nat ->
  exists column, nth_error g i = Some column /\
                 (In sym column \/ In (WILD_SYMBOL cfg) column).
Proof.
  intros Hwf Hwin Hi. rewrite (symbol_win_rule cfg g sym Hwf) in Hwin.
  unfold rule_symbol_win in Hwin.
  destruct (Nat.ltb_spec (List.length (leading_run (map (rule_matches cfg sym) g))) 3)
    as [Hshort|Hlong]; [discriminate|].
  destruct (leading_run_positive (map (rule_matches cfg sym) g) i ltac:(lia))
    as (c & Hc & Hpos).
  rewrite nth_error_map in Hc.
  destruct (nth_error g i) as [column|]; [|discriminate].
  injection Hc as <-. exists column. split; [reflexivity|].
  now apply rule_matches_positive.
Qed.

Lemma symbol_win_needs_three_reels_witness :
  exists column, nth_error grid_ways 2 = Some column /\
                 (In "H1" column \/ In "WD" column).
Proof.
  refine (symbol_win_needs_three_reels default_config grid_ways "H1" 32%float 2 _ _ _).
  - split; [reflexivity|]. repeat constructor.
  - vm_compute. reflexivity.
  - lia.
Defined.

(** ** How many scatters a spin can show *)

Lemma scatter_cells_concat (cfg : config) (bound : Z) (columns : grid) :
  Forall (fun column => scatter_cells cfg column <= bound) columns ->
  scatter_cells cfg (List.concat columns) <= Z.of_nat (List.length columns) * bound.
Proof.
  induction 1 as [|column columns Hc _ IH].
  - unfold scatter_cells, occurrences. simpl. lia.
  - cbn [List.concat List.length]. rewrite scatter_cells_app. lia.
Qed.

(** X28. When no window of [NUM_ROWS] consecutive stops of a strip shows
    more than [bound] scatters, no spin shows more than [NUM_REELS] times
    [bound]; if the trigger table has an entry for every count from 3 up
    to that number, every spin with three or more scatters is awarded
    free spins.  The default strips have one scatter each, so a spin
    shows at most 5, and the table covers 3, 4 and 5. *)
Theorem scatters_within_trigger_table (cfg : config) (bound : Z) (r r' : rng)
        (g : grid) :
  (forall i, (i < NUM_REELS cfg)%nat ->
     exists strip, nth_error (REEL_STRIPS cfg) i = Some strip /\ strip <> [] /\
                   windows_bounded cfg bound strip = true) ->
  (forall k, 3 <= k <= Z.of_nat (NUM_REELS cfg) * bound ->
             dict_get Z.eqb k (FREE_SPIN_TRIGGER cfg) <> None) ->
  spin_reels cfg r = Ok (g, r') ->
  count_scatters cfg g <= Z.of_nat (NUM_REELS cfg) * bound /\
  (triggered cfg g = None <-> count_scatters cfg g < 3).
Proof.
  intros Hstrips Htable Hspin.
  assert (Hready : forall i, (i < NUM_REELS cfg)%nat -> reel_ready cfg i).
  { intros i Hi. destruct (Hstrips i Hi) as (strip & H1 & H2 & _).
    exists strip. auto. }
  rewrite (spin_reels_ready cfg r Hready) in Hspin. injection Hspin as <- _.
  assert (Hbound : count_scatters cfg (drawn_grid cfg r)
                   <= Z.of_nat (NUM_REELS cfg) * bound).
  { rewrite count_scatters_cells. unfold drawn_grid.
    match goal with
    | |- scatter_cells cfg (List.concat ?columns) <= _ =>
        assert (HF : Forall (fun column => scatter_cells cfg column <= bound) columns)
    end.
    { apply Forall_forall. intros column Hcol.
      apply in_map_iff in Hcol. destruct Hcol as (i & <- & Hi). apply in_seq in Hi.
      destruct (Hstrips i ltac:(lia)) as (strip & Hs & Hne & Hw). cbv zeta.
      rewrite (nth_error_nth _ _ [] Hs).
      unfold windows_bounded in Hw. rewrite forallb_forall in Hw.
      apply Z.leb_le. apply Hw. apply in_seq. split; [lia|]. cbn [Nat.add].
      apply Nat.mod_upper_bound. destruct strip; [contradiction|discriminate]. }
    apply scatter_cells_concat in HF.
    now rewrite length_map, length_seq in HF. }
  split; [exact Hbound|]. unfold triggered.
  destruct (Z.leb_spec 3 (count_scatters cfg (drawn_grid cfg r))) as [H3|H3].
  - split; [|lia]. intros Hnone. exfalso.
    apply (Htable (count_scatters cfg (drawn_grid cfg r))); [lia|exact Hnone].
  - split; [intros _; exact H3|reflexivity].
Qed.

Lemma scatters_within_trigger_table_witness :
  exists g r',
    spin_reels default_config retrigger_tape = Ok (g, r') /\
    count_scatters default_config g <= 5.
Proof.
  destruct (spin_reels default_config retrigger_tape) as [[g r']| |] eqn:E;
    [|vm_compute in E; discriminate..].
  exists g, r'. split; [reflexivity|].
  refine (proj1 (scatters_within_trigger_table default_config 1 retrigger_tape r' g
                   _ _ E)).
  - intros i Hi. cbn in Hi.
    do 5 (destruct i as [|i];
          [eexists; split; [reflexivity|split; [discriminate|vm_compute; reflexivity]]|]).
    lia.
  - intros k Hk. cbn in Hk.
    assert (Hc : k = 3 \/ k = 4 \/ k = 5) by lia.
    destruct Hc as [-> | [-> | ->]]; discriminate.
Defined.

(** ** Only the cascade can exhaust its fuel

    Every loop of the engine other than [while remaining > 0] is bounded
    by the data it walks. *)

Lemma bind_fuel {A B : Type} (c : result A) (k : A -> result B) :
  c <> OutOfFuel -> (forall a, k a <> OutOfFuel) -> bind c k <> OutOfFuel.
Proof. intros Hc Hk. destruct c; simpl; [apply Hk|discriminate|contradiction]. Qed.

Lemma for_each_fuel {A St : Type} (xs : list A) (s : St) body :
  (forall s x, body s x <> OutOfFuel) -> for_each xs s body <> OutOfFuel.
Proof.
  intros Hb. revert s; induction xs as [|x xs IH]; intros s; simpl; [discriminate|].
  apply bind_fuel; auto.
Qed.

Lemma index_fuel {A : Type} (xs : list A) (i : nat) : index xs i <> OutOfFuel.
Proof. unfold index. destruct (nth_error xs i); discriminate. Qed.

Lemma float_of_int_fuel (n : Z) : float_of_int n <> OutOfFuel.
Proof. unfold float_of_int. destruct (binary_normalize _ _ _ _ _); discriminate. Qed.

Lemma mul_float_int_fuel (x : float) (n : Z) : mul_float_int x n <> OutOfFuel.
Proof.
  unfold mul_float_int. apply bind_fuel; [apply float_of_int_fuel|discriminate].
Qed.

Lemma reel_count_fuel (cfg : config) (g : grid) (sym : symbol) (i : nat) :
  reel_count cfg g sym i <> OutOfFuel.
Proof.
  unfold reel_count. apply for_each_fuel. intros count row.
  apply bind_fuel; [apply index_fuel|]. intros column.
  apply bind_fuel; [apply index_fuel|discriminate].
Qed.

Lemma count_reels_fuel (cfg : config) (g : grid) (sym : symbol) (reels : list nat)
      (acc : list Z) :
  count_reels cfg g sym reels acc <> OutOfFuel.
Proof.
  revert acc; induction reels as [|i reels IH]; intros acc; simpl; [discriminate|].
  apply bind_fuel; [apply reel_count_fuel|]. intros count.
  destruct (0 <? count); [apply IH|discriminate].
Qed.

Lemma ways_of_fuel (counts : list Z) (n : nat) : ways_of counts n <> OutOfFuel.
Proof.
  unfold ways_of. apply for_each_fuel. intros ways i.
  apply bind_fuel; [apply index_fuel|discriminate].
Qed.

Lemma pay_longest_fuel (pays : list (Z * float)) (counts : list Z) (lengths : list nat) :
  pay_longest pays counts lengths <> OutOfFuel.
Proof.
  induction lengths as [|n lengths IH]; simpl; [discriminate|].
  destruct (dict_get Z.eqb (Z.of_nat n) pays); [|exact IH].
  apply bind_fuel; [apply ways_of_fuel|]. intros ways.
  apply bind_fuel; [apply mul_float_int_fuel|discriminate].
Qed.

Lemma symbol_win_fuel (cfg : config) (g : grid) (sym : symbol) :
  symbol_win cfg g sym <> OutOfFuel.
Proof.
  unfold symbol_win. apply bind_fuel; [apply count_reels_fuel|]. intros counts.
  destruct (_ <? 3)%nat; [discriminate|apply pay_longest_fuel].
Qed.

Lemma evaluate_ways_win_fuel (cfg : config) (g : grid) :
  evaluate_ways_win cfg g <> OutOfFuel.
Proof.
  unfold evaluate_ways_win. apply for_each_fuel. intros total sym.
  apply bind_fuel; [apply symbol_win_fuel|discriminate].
Qed.

Lemma spin_reels_fuel (cfg : config) (r : rng) : spin_reels cfg r <> OutOfFuel.
Proof.
  unfold spin_reels. apply for_each_fuel. intros [g r0] i.
  apply bind_fuel; [destruct (nth_error _ i); discriminate|]. intros strip.
  cbv zeta. apply bind_fuel.
  - unfold randint. destruct (_ =? 0)%nat; discriminate.
  - intros [start r1]. apply bind_fuel; [|discriminate].
    apply for_each_fuel. intros column row. cbv zeta.
    apply bind_fuel; [apply index_fuel|discriminate].
Qed.

Lemma free_spin_fuel (cfg : config) (c : cascade) (r : rng) :
  free_spin cfg c r <> OutOfFuel.
Proof.
  unfold free_spin. apply bind_fuel; [apply spin_reels_fuel|]. intros [g r1].
  apply bind_fuel; [apply evaluate_ways_win_fuel|]. intros base.
  apply bind_fuel; [apply mul_float_int_fuel|]. intros win.
  cbv zeta. now destruct (if FREE_SPIN_RETRIGGER cfg then triggered cfg g else None).
Qed.

(** ** The cascade without retriggers, and the draws of a run *)

Lemma free_spin_rng (cfg : config) (c c' : cascade) (r r' : rng) :
  free_spin cfg c r = Ok (c', r') ->
  tape r' = tape r /\ cursor r' = (cursor r + NUM_REELS cfg)%nat /\
  spins_run c' = spins_run c + 1.
Proof.
  intros H. apply free_spin_inv in H.
  destruct H as (g & base & win & Hs & _ & _ & ->).
  apply spin_reels_rng in Hs. destruct Hs as [Ht Hc].
  split; [exact Ht|]. split; [exact Hc|].
  now destruct (if FREE_SPIN_RETRIGGER cfg then triggered cfg g else None).
Qed.

(** Every free spin of a cascade draws one number per reel. *)
Lemma free_spins_loop_rng (cfg : config) (fuel : nat) :
  forall (c c' : cascade) (r r' : rng),
  free_spins_loop cfg fuel c r = Ok (c', r') ->
  tape r' = tape r /\
  spins_run c <= spins_run c' /\
  Z.of_nat (cursor r')
  = Z.of_nat (cursor r) + Z.of_nat (NUM_REELS cfg) * (spins_run c' - spins_run c).
Proof.
  induction fuel as [|fuel IH]; intros c c' r r'; simpl.
  - destruct (0 <? remaining c); [discriminate|].
    intros H; inversion H; subst. repeat split; lia.
  - destruct (0 <? remaining c).
    + destruct (free_spin cfg c r) as [[c1 r1]| |] eqn:E; simpl; try discriminate.
      intros H. apply free_spin_rng in E. destruct E as (Ht & Hc & Hs).
      apply IH in H. destruct H as (Ht' & Hs' & Hc').
      split; [congruence|]. split; [lia|]. rewrite Hc', Hc, Hs. lia.
    + intros H; inversion H; subst. repeat split; lia.
Qed.

Lemma free_spin_no_retrigger (cfg : config) (c c' : cascade) (r r' : rng) :
  FREE_SPIN_RETRIGGER cfg = false ->
  free_spin cfg c r = Ok (c', r') ->
  remaining c' = remaining c - 1 /\
  spins_run c' = spins_run c + 1 /\
  retriggers c' = retriggers c /\
  retrigger_spins c' = retrigger_spins c.
Proof.
  intros Hoff H. apply free_spin_inv in H.
  destruct H as (g & base & win & _ & _ & _ & ->).
  rewrite Hoff. cbn. auto.
Qed.

Lemma free_spins_loop_no_retrigger (cfg : config) (fuel : nat) :
  FREE_SPIN_RETRIGGER cfg = false ->
  forall (c : cascade) (r : rng),
  remaining c <= Z.of_nat fuel ->
  free_spins_loop cfg fuel c r <> OutOfFuel /\
  forall c' r', free_spins_loop cfg fuel c r = Ok (c', r') ->
    spins_run c' = spins_run c + Z.max 0 (remaining c) /\
    retriggers c' = retriggers c /\
    retrigger_spins c' = retrigger_spins c.
Proof.
  intros Hoff. induction fuel as [|fuel IH]; intros c r Hfuel; simpl.
  - destruct (Z.ltb_spec 0 (remaining c)) as [Hpos|Hnpos]; [lia|].
    split; [discriminate|]. intros c' r' H; inversion H; subst.
    repeat split; lia.
  - destruct (Z.ltb_spec 0 (remaining c)) as [Hpos|Hnpos].
    + destruct (free_spin cfg c r) as [[c1 r1]| |] eqn:E; simpl.
      * destruct (free_spin_no_retrigger cfg c c1 r r1 Hoff E) as (H1 & H2 & H3 & H4).
        destruct (IH c1 r1 ltac:(lia)) as [Hfuel1 Hres]. split; [exact Hfuel1|].
        intros c' r' H. destruct (Hres c' r' H) as (H5 & H6 & H7).
        repeat split; lia.
      * split; [discriminate|]. intros c' r' H; discriminate.
      * exfalso. now apply (free_spin_fuel cfg c r).
    + split; [discriminate|]. intros c' r' H; inversion H; subst.
      repeat split; lia.
Qed.

(** X7. With retriggers switched off the cascade is a counted loop: an
    award of [num_spins] free spins runs exactly [num_spins] spins (none
    for an award of zero or less), sees no retrigger, draws one random
    number per reel and spin, and completes within [num_spins]
    iterations. *)
Theorem cascade_without_retrigger (cfg : config) (fuel : nat) (num_spins : Z)
        (r : rng) :
  FREE_SPIN_RETRIGGER cfg = false ->
  num_spins <= Z.of_nat fuel ->
  run_free_spins cfg fuel num_spins r <> OutOfFuel /\
  forall c r', run_free_spins cfg fuel num_spins r = Ok (c, r') ->
    spins_run c = Z.max 0 num_spins /\
    retriggers c = 0 /\
    Z.of_nat (cursor r')
    = Z.of_nat (cursor r) + Z.of_nat (NUM_REELS cfg) * Z.max 0 num_spins.
Proof.
  intros Hoff Hfuel. unfold run_free_spins.
  destruct (free_spins_loop_no_retrigger cfg fuel Hoff
              (mkCascade 0 num_spins 0 0 0) r Hfuel) as [Hnf Hres].
  split; [exact Hnf|]. intros c r' H.
  destruct (Hres c r' H) as (H1 & H2 & _). cbn in H1, H2.
  apply free_spins_loop_rng in H. destruct H as (_ & _ & Hc). cbn in Hc.
  repeat split; lia.
Qed.

Lemma cascade_without_retrigger_witness :
  run_free_spins
    (mkConfig 5 3 (REEL_STRIPS default_config) (PAYTABLE default_config)
              "WD" "SC" [(3, 10); (4, 15); (5, 25)] 3 false)
    2 2 retrigger_tape <> OutOfFuel.
Proof.
  refine (proj1 (cascade_without_retrigger
    (mkConfig 5 3 (REEL_STRIPS default_config) (PAYTABLE default_config)
              "WD" "SC" [(3, 10); (4, 15); (5, 25)] 3 false)
    2 2 retrigger_tape eq_refl _)).
  simpl. lia.
Defined.

(** ** The accumulators of a run *)

Lemma categorize_win_bucket (w : float) : In (categorize_win w) buckets.
Proof.
  unfold categorize_win, buckets.
  repeat match goal with
         | |- context [if ?b then _ else _] => destruct b
         end; simpl; tauto.
Qed.

Lemma dict_incr_total (k : string) (d : list (string * Z)) :
  dict_total (dict_incr k d) = dict_total d + 1.
Proof.
  induction d as [|[k' v] d IH]; simpl; [lia|].
  destruct (String.eqb k k'); simpl; lia.
Qed.

Lemma dict_incr_keys (k : string) (d : list (string * Z)) (x : string) :
  In x (dict_keys (dict_incr k d)) <-> x = k \/ In x (dict_keys d).
Proof.
  unfold dict_keys. induction d as [|[k' v] d IH]; simpl.
  - split; intros [H|H]; auto.
  - destruct (String.eqb_spec k k') as [->|Hne]; simpl.
    + split; [tauto|]. intros [->|H]; tauto.
    + rewrite IH. split; [intros [H|[H|H]]; auto|intros [H|[H|H]]; auto].
Qed.

Lemma dict_incr_NoDup (k : string) (d : list (string * Z)) :
  NoDup (dict_keys d) -> NoDup (dict_keys (dict_incr k d)).
Proof.
  unfold dict_keys. induction d as [|[k' v] d IH]; simpl; intros H.
  - constructor; [intros []|constructor].
  - inversion H as [|? ? Hnot Hd]; subst.
    destruct (String.eqb_spec k k') as [->|Hne]; simpl.
    + now constructor.
    + constructor; [|now apply IH].
      intros HIn. apply (dict_incr_keys k d k') in HIn.
      destruct HIn as [->|HIn]; [now apply Hne|now apply Hnot].
Qed.

Lemma dict_incr_positive (k : string) (d : list (string * Z)) :
  Forall (fun kv => 0 < snd kv) d -> Forall (fun kv => 0 < snd kv) (dict_incr k d).
Proof.
  induction d as [|[k' v] d IH]; simpl; intros H.
  - constructor; [simpl; lia|constructor].
  - inversion H as [|? ? Hv Hd]; subst. simpl in Hv.
    destruct (String.eqb k k'); constructor; simpl; auto; lia.
Qed.

(** What one iteration of the spin loop does to the counters and to the
    generator. *)
Lemma simulate_spin_step (cfg : config) (fuel : nat) (st st' : sim_state) :
  simulate_spin cfg fuel st = Ok st' ->
  total_spins (stats st') = total_spins (stats st) + 1 /\
  (wins (stats st') = wins (stats st) \/ wins (stats st') = wins (stats st) + 1) /\
  (free_spin_triggers (stats st') = free_spin_triggers (stats st) \/
   free_spin_triggers (stats st') = free_spin_triggers (stats st) + 1) /\
  (exists w, win_distribution (stats st')
             = dict_incr (categorize_win w) (win_distribution (stats st))) /\
  tape (gen st') = tape (gen st) /\
  free_spins_run (audit st) <= free_spins_run (audit st') /\
  Z.of_nat (cursor (gen st'))
  = Z.of_nat (cursor (gen st))
    + Z.of_nat (NUM_REELS cfg)
      * (1 + (free_spins_run (audit st') - free_spins_run (audit st))).
Proof.
  intros H. unfold simulate_spin in H.
  destruct (spin_reels cfg (gen st)) as [[g r1]| |] eqn:Es; cbn [bind] in H;
    try discriminate.
  apply spin_reels_rng in Es. destruct Es as [Ht Hc].
  destruct (evaluate_ways_win cfg g) as [base_win| |]; cbn [bind] in H;
    try discriminate.
  destruct (triggered cfg g) as [m|].
  - destruct (run_free_spins cfg fuel m r1) as [[c r2]| |] eqn:Er;
      cbn [bind] in H; try discriminate.
    apply free_spins_loop_rng in Er.
    cbn [spins_run] in Er. destruct Er as (Ht2 & Hs2 & Hc2).
    injection H as <-.
    cbn [stats gen audit total_spins wins free_spin_triggers win_distribution
         free_spins_run].
    split; [reflexivity|]. split; [destruct (0 <? _)%float; auto|].
    split; [auto|]. split; [eauto|]. split; [congruence|].
    split; [lia|]. rewrite Hc2, Hc. lia.
  - cbn [bind] in H. injection H as <-.
    cbn [stats gen audit total_spins wins free_spin_triggers win_distribution
         free_spins_run].
    split; [reflexivity|]. split; [destruct (0 <? _)%float; auto|].
    split; [auto|]. split; [eauto|]. split; [exact Ht|].
    split; [lia|]. rewrite Hc. lia.
Qed.

(** X8. Over a whole run the generator is advanced by exactly one draw per
    reel for every spin, base or free: after [n] base spins its cursor has
    moved by [NUM_REELS] times [n] plus the free spins that were run. *)
Theorem run_draws_per_spin (cfg : config) (fuel : nat) (r : rng) (n : Z)
        (st : sim_state) :
  0 <= n ->
  spin_loop cfg fuel n r = Ok st ->
  tape (gen st) = tape r /\
  0 <= free_spins_run (audit st) /\
  Z.of_nat (cursor (gen st))
  = Z.of_nat (cursor r)
    + Z.of_nat (NUM_REELS cfg) * (n + free_spins_run (audit st)).
Proof.
  revert n st.
  apply (spin_loop_invariant cfg fuel r (fun k st =>
           tape (gen st) = tape r /\
           0 <= free_spins_run (audit st) /\
           Z.of_nat (cursor (gen st))
           = Z.of_nat (cursor r)
             + Z.of_nat (NUM_REELS cfg) * (k + free_spins_run (audit st)))).
  - cbn. repeat split; lia.
  - intros k s s' Hk (I1 & I2 & I3) Hstep.
    apply simulate_spin_step in Hstep.
    destruct Hstep as (_ & _ & _ & _ & Ht & Hf & Hc).
    split; [congruence|]. split; [lia|]. rewrite Hc, I3. lia.
Qed.

Lemma run_draws_per_spin_witness :
  exists st, spin_loop default_config 20 1 retrigger_tape = Ok st /\
             Z.of_nat (cursor (gen st)) = 5 * (1 + free_spins_run (audit st)).
Proof.
  destruct (spin_loop default_config 20 1 retrigger_tape) as [st| |] eqn:E;
    [|vm_compute in E; discriminate..].
  exists st. split; [reflexivity|].
  exact (proj2 (proj2 (run_draws_per_spin default_config 20 retrigger_tape 1 st
                         ltac:(lia) E))).
Defined.

(** X9. Every spin is counted in exactly one bucket of the win
    distribution: after [n] spins the bucket counts sum to [n], every key
    is one of the eight bucket names, no key occurs twice and no bucket
    present has a zero count. *)
Theorem win_distribution_counts_spins (cfg : config) (fuel : nat) (r : rng) (n : Z)
        (st : sim_state) :
  0 <= n ->
  spin_loop cfg fuel n r = Ok st ->
  dict_total (win_distribution (stats st)) = n /\
  NoDup (dict_keys (win_distribution (stats st))) /\
  (forall k, In k (dict_keys (win_distribution (stats st))) -> In k buckets) /\
  Forall (fun kv => 0 < snd kv) (win_distribution (stats st)).
Proof.
  revert n st.
  apply (spin_loop_invariant cfg fuel r (fun k st =>
           dict_total (win_distribution (stats st)) = k /\
           NoDup (dict_keys (win_distribution (stats st))) /\
           (forall x, In x (dict_keys (win_distribution (stats st))) -> In x buckets) /\
           Forall (fun kv => 0 < snd kv) (win_distribution (stats st)))).
  - cbn. repeat split; [constructor|intros x []|constructor].
  - intros k s s' Hk (I1 & I2 & I3 & I4) Hstep.
    apply simulate_spin_step in Hstep.
    destruct Hstep as (_ & _ & _ & [w Hw] & _). rewrite Hw.
    split; [rewrite dict_incr_total; lia|].
    split; [now apply dict_incr_NoDup|].
    split; [|now apply dict_incr_positive].
    intros x Hx. apply dict_incr_keys in Hx.
    destruct Hx as [->|Hx]; [apply categorize_win_bucket|now apply I3].
Qed.

Lemma win_distribution_counts_spins_witness :
  exists st, spin_loop default_config 20 3 zero_tape = Ok st /\
             dict_total (win_distribution (stats st)) = 3.
Proof.
  destruct (spin_loop default_config 20 3 zero_tape) as [st| |] eqn:E;
    [|vm_compute in E; discriminate..].
  exists st. split; [reflexivity|].
  exact (proj1 (win_distribution_counts_spins default_config 20 zero_tape 3 st
                  ltac:(lia) E)).
Defined.

(** X10. The counters of a run stay within the number of spins: winning
    spins and feature triggers are each between 0 and the spins played, so
    the reported [total_losses] is never negative and wins plus losses are
    the spins. *)
Theorem counters_within_spins (cfg : config) (fuel : nat) (r : rng) (n : Z)
        (st : sim_state) :
  0 <= n ->
  spin_loop cfg fuel n r = Ok st ->
  0 <= wins (stats st) <= n /\
  0 <= free_spin_triggers (stats st) <= n /\
  forall res, final_metrics (stats st) = Ok res ->
              0 <= total_losses res /\ total_wins res + total_losses res = n.
Proof.
  intros Hn Hrun.
  assert (H : total_spins (stats st) = n /\
              0 <= wins (stats st) <= n /\
              0 <= free_spin_triggers (stats st) <= n).
  { revert n st Hn Hrun.
    apply (spin_loop_invariant cfg fuel r (fun k st =>
             total_spins (stats st) = k /\
             0 <= wins (stats st) <= k /\
             0 <= free_spin_triggers (stats st) <= k)).
    - cbn. lia.
    - intros k s s' Hk (I0 & I1 & I2) Hstep.
      apply simulate_spin_step in Hstep.
      destruct Hstep as (H0 & H1 & H2 & _). lia. }
  destruct H as (H0 & H1 & H2). split; [exact H1|]. split; [exact H2|].
  intros res Hres. unfold final_metrics in Hres.
  repeat match type of Hres with
         | bind ?c _ = Ok _ => destruct c; simpl in Hres; try discriminate
         end.
  inversion Hres; subst; simpl. lia.
Qed.

Lemma counters_within_spins_witness :
  exists st, spin_loop default_config 20 3 zero_tape = Ok st /\
             0 <= wins (stats st) <= 3.
Proof.
  destruct (spin_loop default_config 20 3 zero_tape) as [st| |] eqn:E;
    [|vm_compute in E; discriminate..].
  exists st. split; [reflexivity|].
  exact (proj1 (counters_within_spins default_config 20 zero_tape 3 st
                  ltac:(lia) E)).
Defined.

(** ** The buckets of [categorize_win] *)

(** X11. The bucket of a win is decided by closed-open ranges: "0x" for a
    win equal to zero (of either sign), "0-1x" for every other win below
    1, negative ones included, then [lo <= win < hi] for the ranges 1-2,
    2-5, 5-20, 20-100 and 100-1000, and "1000x+" for what is left: wins of
    1000 and more, and NaN. *)
Theorem categorize_win_ranges (w : float) :
  (categorize_win w = "0x" <-> (w =? 0)%float = true) /\
  (categorize_win w = "0-1x" <->
     (w =? 0)%float = false /\ (w <? 1)%float = true) /\
  (categorize_win w = "1-2x" <->
     (1 <=? w)%float = true /\ (w <? 2)%float = true) /\
  (categorize_win w = "2-5x" <->
     (2 <=? w)%float = true /\ (w <? 5)%float = true) /\
  (categorize_win w = "5-20x" <->
     (5 <=? w)%float = true /\ (w <? 20)%float = true) /\
  (categorize_win w = "20-100x" <->
     (20 <=? w)%float = true /\ (w <? 100)%float = true) /\
  (categorize_win w = "100-1000x" <->
     (100 <=? w)%float = true /\ (w <? 1000)%float = true) /\
  (categorize_win w = "1000x+" <->
     (1000 <=? w)%float = true \/ (w =? w)%float = false).
Proof.
  rewrite !leb_negb_ltb by (intros H; vm_compute in H; discriminate).
  assert (H0 : implb (w =? 0)%float (w <? 1)%float = true).
  { destruct (w =? 0)%float eqn:E; [|reflexivity].
    now rewrite (eqb_ltb_trans w 0 1 E eq_refl). }
  assert (H1 : implb (w <? 1)%float (w <? 2)%float = true).
  { destruct (w <? 1)%float eqn:E; [|reflexivity].
    now rewrite (ltb_leb_trans w 1 2 E eq_refl). }
  assert (H2 : implb (w <? 2)%float (w <? 5)%float = true).
  { destruct (w <? 2)%float eqn:E; [|reflexivity].
    now rewrite (ltb_leb_trans w 2 5 E eq_refl). }
  assert (H3 : implb (w <? 5)%float (w <? 20)%float = true).
  { destruct (w <? 5)%float eqn:E; [|reflexivity].
    now rewrite (ltb_leb_trans w 5 20 E eq_refl). }
  assert (H4 : implb (w <? 20)%float (w <? 100)%float = true).
  { destruct (w <? 20)%float eqn:E; [|reflexivity].
    now rewrite (ltb_leb_trans w 20 100 E eq_refl). }
  assert (H5 : implb (w <? 100)%float (w <? 1000)%float = true).
  { destruct (w <? 100)%float eqn:E; [|reflexivity].
    now rewrite (ltb_leb_trans w 100 1000 E eq_refl). }
  assert (N0 : implb (w =? 0)%float (w =? w)%float = true).
  { destruct (w =? 0)%float eqn:E; [|reflexivity]. now rewrite (eqb_self w 0 E). }
  assert (N1 : implb (w <? 1000)%float (w =? w)%float = true).
  { destruct (w <? 1000)%float eqn:E; [|reflexivity]. now rewrite (ltb_self w 1000 E). }
  unfold categorize_win.
  destruct (w =? 0)%float, (w <? 1)%float, (w <? 2)%float, (w <? 5)%float,
           (w <? 20)%float, (w <? 100)%float, (w <? 1000)%float, (w =? w)%float;
    simpl in *; try discriminate;
    repeat split; intros; try reflexivity; try discriminate; auto;
    repeat match goal with
           | H : _ /\ _ |- _ => destruct H
           | H : _ \/ _ |- _ => destruct H
           end; try discriminate.
Qed.

(** ** The divisions of the final metrics *)

Lemma float_of_int_nonzero (n : Z) (y : float) :
  1 <= n <= 2 ^ 53 -> float_of_int n = Ok y -> (y =? 0)%float = false.
Proof.
  intros Hn Hy. pose proof (float_of_int_exact n y ltac:(lia) Hy) as H.
  unfold float_eq_int in H. rewrite eqb_spec. unfold SFeqb.
  change (Prim2SF 0) with (S754_zero false).
  destruct (Prim2SF y) as [s|s| |s m e]; try discriminate.
  - apply Z.eqb_eq in H. lia.
  - simpl. now destruct s.
Qed.

Lemma truediv_nonzero (x y : float) :
  (y =? 0)%float = false -> truediv x y = Ok (x / y)%float.
Proof. intros H. unfold truediv. now rewrite H. Qed.

Lemma int_truediv_cases (a b : Z) :
  b <> 0 ->
  (exists q, int_truediv a b = Ok q) \/ int_truediv a b = Raise OverflowError.
Proof.
  intros Hb. unfold int_truediv.
  destruct (Z.eqb_spec b 0) as [|_]; [contradiction|].
  match goal with
  | |- context [match ?sf with S754_infinity _ => _ | _ => _ end] => destruct sf
  end; eauto.
Qed.

Lemma square_cases (x : float) :
  (exists y, square x = Ok y) \/ square x = Raise OverflowError.
Proof. unfold square. destruct (_ && _); eauto. Qed.

(** X12. For a run of 1 to 2^53 spins the final metrics never divide by
    zero: once the spin loop has returned, the metrics are computed, or
    the only exception is the OverflowError of a float operation. *)
Theorem final_metrics_divisions_defined (cfg : config) (fuel : nat) (r : rng)
        (n : Z) (st : sim_state) :
  1 <= n <= 2 ^ 53 ->
  spin_loop cfg fuel n r = Ok st ->
  (exists res, final_metrics (stats st) = Ok res) \/
  final_metrics (stats st) = Raise OverflowError.
Proof.
  intros Hn Hrun.
  destruct (wagered_tracks_spins cfg fuel r n st ltac:(lia) Hrun) as [Hspins Hwag].
  pose proof (float_of_int_nonzero n _ Hn Hwag) as Hnz.
  assert (Htrig : 0 <= free_spin_triggers (stats st)).
  { revert Hrun. generalize (proj1 Hn). clear. intros Hn.
    assert (Hn0 : 0 <= n) by lia. clear Hn. revert n st Hn0.
    apply (spin_loop_invariant cfg fuel r
             (fun _ st => 0 <= free_spin_triggers (stats st))).
    - cbn. lia.
    - intros k s s' _ I Hstep. apply simulate_spin_step in Hstep.
      destruct Hstep as (_ & _ & H & _). lia. }
  unfold final_metrics, truediv_float_int.
  rewrite Hspins, Hwag. cbn [bind].
  rewrite !truediv_nonzero by exact Hnz. cbn [bind].
  destruct (int_truediv_cases (wins (stats st)) n ltac:(lia)) as [[h ->]| ->];
    cbn [bind]; [|now right].
  destruct (square_cases (max_win (stats st)
                          - total_won (stats st) / total_wagered (stats st))%float)
    as [[sq ->]| ->]; cbn [bind]; [|now right].
  rewrite !truediv_nonzero by exact Hnz. cbn [bind].
  destruct (Z.ltb_spec 0 (free_spin_triggers (stats st))) as [Hpos|_].
  - destruct (int_truediv_cases n (free_spin_triggers (stats st)) ltac:(lia))
      as [[t ->]| ->]; cbn [bind]; [|now right].
    rewrite ?truediv_nonzero by exact Hnz. cbn [bind]. left; eauto.
  - cbn [bind]. rewrite ?truediv_nonzero by exact Hnz. cbn [bind]. left; eauto.
Qed.

Lemma final_metrics_divisions_defined_witness :
  exists st, spin_loop default_config 20 2 zero_tape = Ok st /\
             ((exists res, final_metrics (stats st) = Ok res) \/
              final_metrics (stats st) = Raise OverflowError).
Proof.
  destruct (spin_loop default_config 20 2 zero_tape) as [st| |] eqn:E;
    [|vm_compute in E; discriminate..].
  exists st. split; [reflexivity|].
  refine (final_metrics_divisions_defined default_config 20 zero_tape 2 st _ E).
  lia.
Defined.

(** ** Jurisdiction compliance of the simulation *)

(** X13. Compliance is monotone in the measured RTP: a jurisdiction that
    accepts an RTP accepts every higher one, whatever the requirement
    table. *)
Theorem jurisdiction_compliance_monotone (requirements : list (string * option float))
        (rtp rtp' : float) (jurisdiction : string) :
  (rtp <=? rtp')%float = true ->
  dict_get String.eqb jurisdiction (jurisdiction_compliance requirements rtp)
    = Some true ->
  dict_get String.eqb jurisdiction (jurisdiction_compliance requirements rtp')
    = Some true.
Proof.
  intros Hle. unfold jurisdiction_compliance.
  induction requirements as [|[j reqs] requirements IH]; simpl; [discriminate|].
  destruct (String.eqb jurisdiction j); [|exact IH].
  intros H. injection H as H. f_equal. eapply leb_trans; eauto.
Qed.

Lemma jurisdiction_compliance_monotone_witness :
  dict_get String.eqb "Malta"
    (jurisdiction_compliance JURISDICTION_REQUIREMENTS 96.5%float) = Some true.
Proof.
  refine (jurisdiction_compliance_monotone JURISDICTION_REQUIREMENTS
            85%float 96.5%float "Malta" _ _); reflexivity.
Defined.

(** X14. On the static table of [config/settings.py] a measured RTP
    complies with every jurisdiction exactly when it is at least 85, with
    at least one exactly when it is at least 75, and a NaN complies with
    none. *)
Theorem static_jurisdictions_thresholds (rtp : float) :
  forallb snd (jurisdiction_compliance JURISDICTION_REQUIREMENTS rtp)
    = (85 <=? rtp)%float /\
  existsb snd (jurisdiction_compliance JURISDICTION_REQUIREMENTS rtp)
    = (75 <=? rtp)%float /\
  ((rtp =? rtp)%float = false ->
   existsb snd (jurisdiction_compliance JURISDICTION_REQUIREMENTS rtp) = false).
Proof.
  cbn [jurisdiction_compliance JURISDICTION_REQUIREMENTS map forallb existsb snd].
  assert (H1 : implb (85 <=? rtp)%float (83 <=? rtp)%float = true).
  { destruct (85 <=? rtp)%float eqn:E; [|reflexivity].
    now rewrite (leb_trans 83 85 rtp eq_refl E). }
  assert (H2 : implb (83 <=? rtp)%float (80 <=? rtp)%float = true).
  { destruct (83 <=? rtp)%float eqn:E; [|reflexivity].
    now rewrite (leb_trans 80 83 rtp eq_refl E). }
  assert (H3 : implb (80 <=? rtp)%float (75 <=? rtp)%float = true).
  { destruct (80 <=? rtp)%float eqn:E; [|reflexivity].
    now rewrite (leb_trans 75 80 rtp eq_refl E). }
  assert (H4 : implb (75 <=? rtp)%float (rtp =? rtp)%float = true).
  { destruct (75 <=? rtp)%float eqn:E; [|reflexivity].
    rewrite leb_negb_ltb in E by (intros H; vm_compute in H; discriminate).
    apply andb_prop in E. now rewrite (proj2 E). }
  destruct (85 <=? rtp)%float, (83 <=? rtp)%float, (80 <=? rtp)%float,
           (75 <=? rtp)%float, (rtp =? rtp)%float;
    simpl in *; try discriminate; repeat split; intros; try reflexivity;
    discriminate.
Qed.

(** ** The jurisdiction intersection tool *)

Lemma str_in_In (x : string) (xs : list string) : str_in x xs = true <-> In x xs.
Proof.
  unfold str_in. rewrite existsb_exists. split.
  - intros (y & Hy & E). apply String.eqb_eq in E. now subst.
  - intros H. exists x. split; [exact H|apply String.eqb_refl].
Qed.

(** *** The market loop *)

Lemma analyse_markets_from (p : float) (feats : list string) (ms : list string)
      (d : list (string * market_detail)) (k u : list string) :
  fold_left (fun '(market_details, known_markets, unknown_markets) m =>
    match dict_get String.eqb m REGULATIONS with
    | Some reg =>
        (dict_set m
           (Analysed ((min_rtp reg <=? p)%float && (p <=? max_rtp reg)%float)
                     (filter (fun f => str_in f (banned_features reg)) feats))
           market_details,
         known_markets ++ [m], unknown_markets)
    | None =>
        (dict_set m External market_details, known_markets, unknown_markets ++ [m])
    end) ms (d, k, u)
  = (fold_left (fun d m => dict_set m (detail_of p feats m) d) ms d,
     k ++ filter known_market ms,
     u ++ filter (fun m => negb (known_market m)) ms).
Proof.
  revert d k u; induction ms as [|m ms IH]; intros d k u.
  - simpl. now rewrite !app_nil_r.
  - cbn [fold_left filter].
    assert (Hk : known_market m
                 = match dict_get String.eqb m REGULATIONS with
                   | Some _ => true
                   | None => false
                   end) by reflexivity.
    assert (Hd : detail_of p feats m
                 = match dict_get String.eqb m REGULATIONS with
                   | Some reg =>
                       Analysed ((min_rtp reg <=? p)%float && (p <=? max_rtp reg)%float)
                                (filter (fun f => str_in f (banned_features reg)) feats)
                   | None => External
                   end) by reflexivity.
    rewrite Hk, Hd.
    destruct (dict_get String.eqb m REGULATIONS) as [reg|]; rewrite IH; cbn [negb];
      now rewrite <- app_assoc.
Qed.

Lemma analyse_markets_spec (markets : list string) (p : float) (feats : list string) :
  analyse_markets markets p feats
  = (fold_left (fun d m => dict_set m (detail_of p feats m) d) markets [],
     filter known_market markets,
     filter (fun m => negb (known_market m)) markets).
Proof. unfold analyse_markets. now rewrite analyse_markets_from. Qed.

Lemma details_get (p : float) (feats : list string) (ms : list string)
      (d : list (string * market_detail)) (m : string) :
  dict_get String.eqb m (fold_left (fun d m => dict_set m (detail_of p feats m) d) ms d)
  = if str_in m ms then Some (detail_of p feats m) else dict_get String.eqb m d.
Proof.
  revert d; induction ms as [|m0 ms IH]; intros d; [reflexivity|].
  cbn [fold_left]. rewrite IH, dict_get_set. unfold str_in. cbn [existsb].
  fold (str_in m ms).
  destruct (String.eqb_spec m m0) as [->|_]; cbn [orb]; [|reflexivity].
  now destruct (str_in m0 ms).
Qed.

(** *** The floors *)

Lemma known_floors (known : list string) :
  forallb known_market known = true ->
  flat_map (fun m => match dict_get String.eqb m REGULATIONS with
                     | Some reg => [min_rtp reg]
                     | None => []
                     end) known
  = map market_floor known.
Proof.
  induction known as [|m known IH]; [reflexivity|].
  cbn [forallb flat_map map]. intros H. apply andb_prop in H. destruct H as [Hm Hk].
  rewrite IH by exact Hk. unfold known_market in Hm.
  assert (Hf : market_floor m
               = match dict_get String.eqb m REGULATIONS with
                 | Some reg => min_rtp reg
                 | None => 0%float
                 end) by reflexivity.
  rewrite Hf.
  destruct (dict_get String.eqb m REGULATIONS); [reflexivity|discriminate].
Qed.

Lemma filter_forallb {A : Type} (f : A -> bool) (xs : list A) :
  forallb f (filter f xs) = true.
Proof.
  induction xs as [|x xs IH]; [reflexivity|]. simpl.
  destruct (f x) eqn:E; [simpl; now rewrite E|exact IH].
Qed.

Lemma regulations_floors_not_nan :
  Forall (fun kv => not_nan_prop (min_rtp (snd kv))) REGULATIONS.
Proof. repeat constructor; intros H; vm_compute in H; discriminate. Qed.

Lemma market_floor_not_nan (m : string) : not_nan_prop (market_floor m).
Proof.
  unfold market_floor.
  destruct (dict_get String.eqb m REGULATIONS) as [reg|] eqn:E.
  - apply dict_get_In in E.
    pose proof regulations_floors_not_nan as H. rewrite Forall_forall in H.
    exact (H _ E).
  - intros H; vm_compute in H; discriminate.
Qed.

Lemma fmax_cases (a b : float) : fmax a b = a \/ fmax a b = b.
Proof. unfold fmax. destruct (a <? b)%float; auto. Qed.

Lemma fmax_upper (a b : float) :
  not_nan_prop a -> not_nan_prop b ->
  (a <=? fmax a b)%float = true /\ (b <=? fmax a b)%float = true.
Proof.
  intros Ha Hb. unfold fmax. destruct (a <? b)%float eqn:E.
  - split; [now apply ltb_leb|now apply leb_refl].
  - split; [now apply leb_refl|now apply ltb_false_leb].
Qed.

(** [max] of floats that are not NaN is an element and an upper bound. *)
Lemma fold_fmax (xs : list float) (x : float) :
  not_nan_prop x -> Forall not_nan_prop xs ->
  In (fold_left fmax xs x) (x :: xs) /\
  forall y, In y (x :: xs) -> (y <=? fold_left fmax xs x)%float = true.
Proof.
  revert x; induction xs as [|z xs IH]; intros x Hx Hall.
  - simpl. split; [now left|]. intros y [<-|[]]. now apply leb_refl.
  - inversion Hall as [|? ? Hz Hall']; subst. cbn [fold_left].
    assert (Hm : not_nan_prop (fmax x z))
      by (destruct (fmax_cases x z) as [-> | ->]; assumption).
    destruct (IH (fmax x z) Hm Hall') as [HIn Hup].
    destruct (fmax_upper x z Hx Hz) as [Hxm Hzm].
    split.
    + destruct HIn as [HIn|HIn]; [|right; now right].
      rewrite <- HIn. destruct (fmax_cases x z) as [-> | ->];
        [now left|right; now left].
    + intros y [<-|[<-|Hy]].
      * eapply leb_trans; [exact Hxm|]. apply Hup. now left.
      * eapply leb_trans; [exact Hzm|]. apply Hup. now left.
      * apply Hup. now right.
Qed.

Lemma eqb_refl_not_nan (x : float) : not_nan_prop x -> (x =? x)%float = true.
Proof. intros H. rewrite eqb_spec. unfold SFeqb. now rewrite SFcompare_refl. Qed.

(** [xs.index(v)] finds an element that is in the list. *)
Lemma list_index_In (v : float) (xs : list float) :
  not_nan_prop v -> In v xs ->
  exists i x, list_index v xs = Ok i /\ nth_error xs i = Some x /\
              (x =? v)%float = true.
Proof.
  intros Hv. induction xs as [|x xs IH]; intros HIn; [destruct HIn|].
  cbn [list_index]. destruct (x =? v)%float eqn:E.
  - exists 0%nat, x. auto.
  - destruct HIn as [->|HIn]; [rewrite eqb_refl_not_nan in E by exact Hv; discriminate|].
    destruct (IH HIn) as (i & y & Hi & Hy & Ey). rewrite Hi. cbn [bind].
    exists (S i), y. auto.
Qed.

(** *** The bans *)

Lemma str_in_app (f : string) (xs ys : list string) :
  str_in f (xs ++ ys) = str_in f xs || str_in f ys.
Proof. unfold str_in. apply existsb_app. Qed.

Lemma str_in_set_add (f b : string) (s : list string) :
  str_in f (set_add b s) = String.eqb f b || str_in f s.
Proof.
  unfold set_add. destruct (str_in b s) eqn:E.
  - destruct (String.eqb_spec f b) as [->|_]; [now rewrite E|reflexivity].
  - rewrite str_in_app. unfold str_in at 2. cbn [existsb].
    rewrite orb_false_r. apply orb_comm.
Qed.

Lemma dict_get_append (f b m : string) (d : list (string * list string)) :
  dict_get String.eqb f (dict_append b m d)
  = if String.eqb f b
    then Some (match dict_get String.eqb b d with
               | Some ms => ms ++ [m]
               | None => [m]
               end)
    else dict_get String.eqb f d.
Proof.
  induction d as [|[k xs] d IH]; simpl.
  - reflexivity.
  - destruct (String.eqb_spec b k) as [->|Hne]; simpl.
    + destruct (String.eqb f k); reflexivity.
    + rewrite IH. destruct (String.eqb_spec f k) as [->|_].
      * destruct (String.eqb_spec k b) as [->|_]; [contradiction|reflexivity].
      * reflexivity.
Qed.

(** The markets, among [known], that ban [f], as the tool lists them. *)
Lemma market_bans_from (m : string) (bs : list string) :
  NoDup bs ->
  forall (ab : list string) (src : list (string * list string)),
  let out := fold_left (fun '(all_banned, ban_sources) b =>
                          (set_add b all_banned, dict_append b m ban_sources))
                       bs (ab, src) in
  forall f,
    str_in f (fst out) = str_in f bs || str_in f ab /\
    dict_get String.eqb f (snd out)
    = if str_in f bs
      then Some (match dict_get String.eqb f src with
                 | Some ms => ms ++ [m]
                 | None => [m]
                 end)
      else dict_get String.eqb f src.
Proof.
  induction 1 as [|b bs Hnot _ IH]; intros ab src out f.
  - split; reflexivity.
  - subst out. cbn [fold_left].
    destruct (IH (set_add b ab) (dict_append b m src) f) as [H1 H2].
    rewrite H1, H2, str_in_set_add, dict_get_append.
    unfold str_in at 3 6. cbn [existsb]. fold (str_in f bs).
    split; [now rewrite orb_assoc, (orb_comm (str_in f bs))|].
    destruct (String.eqb_spec f b) as [->|_]; cbn [orb]; [|reflexivity].
    destruct (str_in b bs) eqn:E; [|reflexivity].
    apply str_in_In in E. contradiction.
Qed.

Lemma regulations_bans_NoDup :
  Forall (fun kv => NoDup (banned_features (snd kv))) REGULATIONS.
Proof.
  repeat constructor; simpl; intros H;
    repeat match goal with H : _ \/ _ |- _ => destruct H end;
    try discriminate; contradiction.
Qed.

Lemma market_bans_NoDup (m : string) :
  NoDup (match dict_get String.eqb m REGULATIONS with
         | Some reg => banned_features reg
         | None => []
         end).
Proof.
  destruct (dict_get String.eqb m REGULATIONS) as [reg|] eqn:E; [|constructor].
  apply dict_get_In in E.
  pose proof regulations_bans_NoDup as H. rewrite Forall_forall in H.
  exact (H _ E).
Qed.

Lemma bans_unfold (f m : string) :
  bans f m = str_in f (match dict_get String.eqb m REGULATIONS with
                       | Some reg => banned_features reg
                       | None => []
                       end).
Proof. unfold bans. now destruct (dict_get String.eqb m REGULATIONS). Qed.

Lemma collect_bans_from (known pre : list string)
      (acc : list string * list (string * list string)) :
  bans_recorded pre acc ->
  bans_recorded (pre ++ known)
    (fold_left (fun acc m =>
       let bans := match dict_get String.eqb m REGULATIONS with
                   | Some reg => banned_features reg
                   | None => []
                   end in
       fold_left (fun '(all_banned, ban_sources) b =>
                    (set_add b all_banned, dict_append b m ban_sources))
                 bans acc)
     known acc).
Proof.
  revert pre acc; induction known as [|m known IH]; intros pre acc Hacc.
  - simpl. now rewrite app_nil_r.
  - cbn [fold_left]. replace (pre ++ m :: known) with ((pre ++ [m]) ++ known)
      by (rewrite <- app_assoc; reflexivity).
    apply IH. intros f. destruct acc as [ab src].
    destruct (market_bans_from m _ (market_bans_NoDup m) ab src f) as [H1 H2].
    cbv zeta. rewrite H1, H2. destruct (Hacc f) as [I1 I2]. cbn [fst snd] in I1, I2.
    rewrite I1, I2, filter_app, <- bans_unfold. cbn [filter].
    destruct (bans f m); cbn [orb].
    + destruct (filter (bans f) pre) as [|x xs]; cbn; auto.
    + rewrite app_nil_r. destruct (filter (bans f) pre); auto.
Qed.

Lemma collect_bans_spec (known : list string) :
  bans_recorded known (collect_bans known).
Proof.
  unfold collect_bans. apply (collect_bans_from known [] ([], [])).
  intros f. split; reflexivity.
Qed.

(** *** The conflicts *)

Lemma banned_hits_from (known : list string)
      (acc : list string * list (string * list string)) (feats : list string) :
  bans_recorded known acc ->
  forall hits0, exists hits,
    for_each feats hits0 (fun hits f =>
      if str_in f (fst acc) then
        match dict_get String.eqb f (snd acc) with
        | Some ms => Ok (dict_set f ms hits)
        | None => Raise KeyError
        end
      else Ok hits) = Ok hits /\
    forall f, dict_get String.eqb f hits
              = if str_in f feats
                then match filter (bans f) known with
                     | [] => dict_get String.eqb f hits0
                     | ms => Some ms
                     end
                else dict_get String.eqb f hits0.
Proof.
  intros Hacc. induction feats as [|f0 feats IH]; intros hits0.
  - exists hits0. split; reflexivity.
  - cbn [for_each]. destruct (Hacc f0) as [H1 H2]. rewrite H1, H2.
    destruct (filter (bans f0) known) as [|x xs] eqn:E; cbn [truthy bind].
    + destruct (IH hits0) as (hits & Hrun & Hget). exists hits. split; [exact Hrun|].
      intros f. rewrite Hget. unfold str_in at 2. cbn [existsb]. fold (str_in f feats).
      destruct (String.eqb_spec f f0) as [->|_]; cbn [orb]; [|reflexivity].
      rewrite E. now destruct (str_in f0 feats).
    + destruct (IH (dict_set f0 (x :: xs) hits0)) as (hits & Hrun & Hget).
      exists hits. split; [exact Hrun|].
      intros f. rewrite Hget, dict_get_set.
      unfold str_in at 2. cbn [existsb]. fold (str_in f feats).
      destruct (String.eqb_spec f f0) as [->|_]; cbn [orb]; [|reflexivity].
      rewrite E. now destruct (str_in f0 feats).
Qed.

(** *** The answer of [_run] *)

Lemma features_of_or (fs : option (list string)) :
  match fs with
  | Some (f :: rest) => f :: rest
  | _ => []
  end = features_of fs.
Proof. destruct fs as [[|f rest]|]; reflexivity. Qed.

Lemma run_answer (markets : list string) (p : float) (fs : option (list string)) :
  exists res,
    _run markets p fs = Ok res /\
    per_market res
    = fold_left (fun d m => dict_set m (detail_of p (features_of fs) m) d) markets [] /\
    unknown_markets res = filter (fun m => negb (known_market m)) markets /\
    (forall f,
       dict_get String.eqb f (proposed_feature_conflicts (the_intersection res))
       = if str_in f (features_of fs)
         then match filter (bans f) (filter known_market markets) with
              | [] => None
              | ms => Some ms
              end
         else None) /\
    match filter known_market markets with
    | [] =>
        rtp_floor (the_intersection res) = None /\
        rtp_compliant (the_intersection res) = None /\
        binding_market (the_intersection res) = None /\
        blockers (the_intersection res)
        = map (fun '(feature, markets_banned) => FeatureBanned feature markets_banned)
              (proposed_feature_conflicts (the_intersection res))
    | m0 :: rest =>
        let fl := fold_left fmax (map market_floor rest) (market_floor m0) in
        rtp_floor (the_intersection res) = Some fl /\
        rtp_compliant (the_intersection res) = Some (fl <=? p)%float /\
        (exists b, binding_market (the_intersection res) = Some b /\
                   In b (filter known_market markets) /\
                   (market_floor b =? fl)%float = true) /\
        blockers (the_intersection res)
        = (if (fl <=? p)%float then [] else [RtpBelowFloor p fl])
          ++ map (fun '(feature, markets_banned) => FeatureBanned feature markets_banned)
                 (proposed_feature_conflicts (the_intersection res))
    end /\
    verdict (the_intersection res)
    = if truthy (blockers (the_intersection res))
      then "NO-GO (fix blockers first)" else "GO".
Proof.
  unfold _run. rewrite features_of_or, analyse_markets_spec.
  rewrite known_floors by apply filter_forallb.
  pose proof (collect_bans_spec (filter known_market markets)) as Hbans.
  destruct (collect_bans (filter known_market markets)) as [ab src] eqn:Ecb.
  destruct (banned_hits_from _ (ab, src) (features_of fs) Hbans [])
    as (hits & Hhits & Hget).
  cbn [fst snd] in Hhits. unfold banned_hits_of. 
  destruct (filter known_market markets) as [|m0 rest] eqn:Eknown.
  - cbn [map truthy bind]. rewrite Hhits. cbn [bind negb].
    eexists. split; [reflexivity|]. cbn.
    split; [reflexivity|]. split; [reflexivity|].
    split; [|split; [auto|reflexivity]].
    intros f. rewrite Hget. destruct (str_in f (features_of fs)); reflexivity.
  - cbn [map truthy list_max bind].
    set (fl := fold_left fmax (map market_floor rest) (market_floor m0)).
    assert (Hall : Forall not_nan_prop (map market_floor rest)).
    { apply Forall_forall. intros x Hx. apply in_map_iff in Hx.
      destruct Hx as (m & <- & _). apply market_floor_not_nan. }
    destruct (fold_fmax (map market_floor rest) (market_floor m0)
                (market_floor_not_nan m0) Hall) as [HIn Hup]. fold fl in HIn, Hup.
    assert (Hfl : not_nan_prop fl).
    { change (market_floor m0 :: map market_floor rest)
        with (map market_floor (m0 :: rest)) in HIn.
      apply in_map_iff in HIn. destruct HIn as (m & <- & _).
      apply market_floor_not_nan. }
    destruct (list_index_In fl (market_floor m0 :: map market_floor rest) Hfl HIn)
      as (i & x & Hi & Hx & Ex).
    rewrite Hi. cbn [bind].
    change (market_floor m0 :: map market_floor rest)
      with (map market_floor (m0 :: rest)) in Hx.
    rewrite nth_error_map in Hx.
    destruct (nth_error (m0 :: rest) i) as [b|] eqn:Eb; [|discriminate].
    injection Hx as <-.
    rewrite (index_nth _ _ _ Eb). cbn [bind]. rewrite Hhits. cbn [bind].
    destruct (fl <=? p)%float eqn:Ec; cbn [negb bind app].
    + eexists. split; [reflexivity|]. cbn.
      split; [reflexivity|]. split; [reflexivity|].
      split; [intros f; rewrite Hget; destruct (str_in f (features_of fs)); reflexivity|].
      split; [|reflexivity].
      split; [reflexivity|]. split; [reflexivity|].
      split; [|reflexivity].
      exists b. split; [reflexivity|]. split; [|exact Ex].
      apply (nth_error_In _ _ Eb).
    + eexists. split; [reflexivity|]. cbn.
      split; [reflexivity|]. split; [reflexivity|].
      split; [intros f; rewrite Hget; destruct (str_in f (features_of fs)); reflexivity|].
      split; [|reflexivity].
      split; [reflexivity|]. split; [reflexivity|].
      split; [|reflexivity].
      exists b. split; [reflexivity|]. split; [|exact Ex].
      apply (nth_error_In _ _ Eb).
Qed.

Lemma known_floor_bounds (m0 : string) (rest : list string) (p : float) :
  let fl := fold_left fmax (map market_floor rest) (market_floor m0) in
  (forall m, In m (m0 :: rest) -> (market_floor m <=? fl)%float = true) /\
  ((fl <=? p)%float = true <->
   forall m, In m (m0 :: rest) -> (market_floor m <=? p)%float = true).
Proof.
  intros fl.
  assert (Hall : Forall not_nan_prop (map market_floor rest)).
  { apply Forall_forall. intros x Hx. apply in_map_iff in Hx.
    destruct Hx as (m & <- & _). apply market_floor_not_nan. }
  destruct (fold_fmax (map market_floor rest) (market_floor m0)
              (market_floor_not_nan m0) Hall) as [HIn Hup]. fold fl in HIn, Hup.
  change (market_floor m0 :: map market_floor rest)
    with (map market_floor (m0 :: rest)) in HIn, Hup.
  assert (Hbound : forall m, In m (m0 :: rest) -> (market_floor m <=? fl)%float = true).
  { intros m Hm. apply Hup. now apply in_map. }
  split; [exact Hbound|]. split.
  - intros Hle m Hm. eapply leb_trans; [apply Hbound; exact Hm|exact Hle].
  - intros H. apply in_map_iff in HIn. destruct HIn as (m & <- & Hm). now apply H.
Qed.

Lemma known_market_In (markets : list string) (m : string) :
  In m (filter known_market markets)
  <-> In m markets /\ exists reg, dict_get String.eqb m REGULATIONS = Some reg.
Proof.
  rewrite filter_In. unfold known_market.
  destruct (dict_get String.eqb m REGULATIONS) as [reg|].
  - split; intros [H _]; split; eauto.
  - split; [intros [_ H]; discriminate|intros [_ [reg H]]; discriminate].
Qed.

Lemma market_floor_reg (m : string) (reg : regulation) :
  dict_get String.eqb m REGULATIONS = Some reg -> market_floor m = min_rtp reg.
Proof. unfold market_floor. now intros ->. Qed.

Lemma dict_empty {V : Type} (d : list (string * V)) :
  d = [] <-> forall k, dict_get String.eqb k d = None.
Proof.
  split; [now intros ->|]. destruct d as [|[k v] d]; [reflexivity|].
  intros H. specialize (H k). simpl in H. rewrite String.eqb_refl in H. discriminate.
Qed.

Lemma filter_nil {A : Type} (f : A -> bool) (xs : list A) :
  filter f xs = [] <-> forall x, In x xs -> f x = false.
Proof.
  induction xs as [|x xs IH]; simpl; [tauto|].
  destruct (f x) eqn:E.
  - split; [discriminate|]. intros H. rewrite (H x) in E by now left. discriminate.
  - rewrite IH. split; [intros H y [<-|Hy]; auto|intros H y Hy; apply H; now right].
Qed.

(** X15. The tool never raises: for every list of markets, proposed RTP
    and features it returns an answer, in which every requested market has
    an entry (its analysis when [REGULATIONS] knows it, the outside lookup
    otherwise) and [unknown_markets] lists, in request order, exactly the
    markets that [REGULATIONS] does not know. *)
Theorem intersection_tool_returns (markets : list string) (proposed_rtp : float)
        (proposed_features : option (list string)) :
  exists res,
    _run markets proposed_rtp proposed_features = Ok res /\
    unknown_markets res = filter (fun m => negb (known_market m)) markets /\
    forall m, In m markets ->
      dict_get String.eqb m (per_market res)
      = Some (detail_of proposed_rtp (features_of proposed_features) m).
Proof.
  destruct (run_answer markets proposed_rtp proposed_features)
    as (res & Hrun & Hper & Hunk & _).
  exists res. split; [exact Hrun|]. split; [exact Hunk|].
  intros m Hm. rewrite Hper, details_get.
  apply str_in_In in Hm. now rewrite Hm.
Qed.

(** X16. When at least one requested market is known, [rtp_floor] is the
    highest minimum RTP among the known markets: it is at least the
    minimum of each of them, it is the minimum of the reported
    [binding_market], which is one of the requested markets, and
    [rtp_compliant] says whether the proposed RTP reaches it. *)
Theorem rtp_floor_is_tightest (markets : list string) (proposed_rtp : float)
        (proposed_features : option (list string)) (res : intersect_results)
        (m : string) (reg : regulation) :
  _run markets proposed_rtp proposed_features = Ok res ->
  In m markets ->
  dict_get String.eqb m REGULATIONS = Some reg ->
  exists fl b regb,
    rtp_floor (the_intersection res) = Some fl /\
    (min_rtp reg <=? fl)%float = true /\
    rtp_compliant (the_intersection res) = Some (fl <=? proposed_rtp)%float /\
    binding_market (the_intersection res) = Some b /\
    In b markets /\
    dict_get String.eqb b REGULATIONS = Some regb /\
    (min_rtp regb =? fl)%float = true.
Proof.
  intros Hrun Hm Hreg.
  destruct (run_answer markets proposed_rtp proposed_features)
    as (res' & Hrun' & _ & _ & _ & Hfloor & _).
  rewrite Hrun in Hrun'. injection Hrun' as <-.
  assert (Hknown : In m (filter known_market markets))
    by (apply known_market_In; eauto).
  destruct (filter known_market markets) as [|m0 rest] eqn:E; [destruct Hknown|].
  cbv zeta in Hfloor. destruct Hfloor as (Hfl & Hc & (b & Hb & HbIn & Hbeq) & _).
  destruct (known_floor_bounds m0 rest proposed_rtp) as [Hbound _].
  rewrite <- E in HbIn. apply known_market_In in HbIn.
  destruct HbIn as [HbIn [regb Hregb]].
  exists (fold_left fmax (map market_floor rest) (market_floor m0)), b, regb.
  split; [exact Hfl|]. split.
  - rewrite <- (market_floor_reg m reg Hreg). now apply Hbound.
  - split; [exact Hc|]. split; [exact Hb|]. split; [exact HbIn|].
    split; [exact Hregb|]. now rewrite <- (market_floor_reg b regb Hregb).
Qed.

Lemma rtp_floor_is_tightest_witness :
  exists res fl,
    _run ["UK"; "Texas"; "Malta"; "Ontario"] 96 (Some ["free_spins"]) = Ok res /\
    rtp_floor (the_intersection res) = Some fl /\ (70 <=? fl)%float = true.
Proof.
  destruct (_run ["UK"; "Texas"; "Malta"; "Ontario"] 96 (Some ["free_spins"]))
    as [res| |] eqn:E; [|vm_compute in E; discriminate..].
  destruct (rtp_floor_is_tightest ["UK"; "Texas"; "Malta"; "Ontario"] 96
              (Some ["free_spins"]) res "UK" (mkRegulation 70.0 99.9 ["bonus_buy"])
              E ltac:(simpl; tauto) eq_refl)
    as (fl & b & regb & H1 & H2 & _).
  exists res, fl. split; [reflexivity|]. split; [exact H1|exact H2].
Defined.

(** The verdict in terms of the known markets of the request. *)
Lemma go_known (markets : list string) (proposed_rtp : float)
      (proposed_features : option (list string)) (res : intersect_results) :
  _run markets proposed_rtp proposed_features = Ok res ->
  (verdict (the_intersection res) = "GO" <->
   (forall m, In m (filter known_market markets) ->
              (market_floor m <=? proposed_rtp)%float = true) /\
   (forall f m, In f (features_of proposed_features) ->
                In m (filter known_market markets) -> bans f m = false)).
Proof.
  intros Hrun.
  destruct (run_answer markets proposed_rtp proposed_features)
    as (res' & Hrun' & _ & _ & Hhits & Hfloor & Hverdict).
  rewrite Hrun in Hrun'. injection Hrun' as <-.
  set (known := filter known_market markets) in *.
  set (hits := proposed_feature_conflicts (the_intersection res)) in *.
  assert (Hconf : hits = [] <->
                  forall f m, In f (features_of proposed_features) -> In m known ->
                              bans f m = false).
  { rewrite dict_empty. split.
    - intros H f m Hf Hm. specialize (H f). rewrite Hhits in H.
      apply str_in_In in Hf. rewrite Hf in H.
      destruct (filter (bans f) known) eqn:E; [|discriminate].
      now apply (proj1 (filter_nil (bans f) known) E).
    - intros H f. rewrite Hhits.
      destruct (str_in f (features_of proposed_features)) eqn:Ef; [|reflexivity].
      apply str_in_In in Ef.
      assert (E : filter (bans f) known = [])
        by (apply filter_nil; intros m Hm; now apply H).
      now rewrite E. }
  assert (Hrtp : (blockers (the_intersection res) = [] <->
                  (forall m, In m known -> (market_floor m <=? proposed_rtp)%float = true)
                  /\ hits = [])).
  { destruct known as [|m0 rest] eqn:Eknown.
    - destruct Hfloor as (_ & _ & _ & ->). fold hits. split.
      + intros H. split; [intros m []|]. now destruct hits.
      + intros [_ ->]. reflexivity.
    - cbv zeta in Hfloor. destruct Hfloor as (_ & _ & _ & ->). fold hits.
      destruct (known_floor_bounds m0 rest proposed_rtp) as [_ Hiff].
      destruct (fold_left fmax (map market_floor rest) (market_floor m0)
                <=? proposed_rtp)%float.
      + cbn [app]. split.
        * intros H. split; [now apply Hiff|]. now destruct hits.
        * intros [_ ->]. reflexivity.
      + cbn [app]. split; [discriminate|].
        intros [H _]. apply Hiff in H. discriminate. }
  assert (Hgo : verdict (the_intersection res) = "GO"
                <-> blockers (the_intersection res) = []).
  { rewrite Hverdict. destruct (blockers (the_intersection res)); cbn [truthy];
      split; intros H; try reflexivity; discriminate. }
  rewrite Hgo, Hrtp, Hconf. reflexivity.
Qed.

(** X17. The verdict is GO exactly when, for every requested market that
    [REGULATIONS] knows, the proposed RTP reaches the market's minimum and
    no proposed feature is among the market's banned features.  Unknown
    markets, the maximum RTP of a market and the proposed maximum win play
    no part in it. *)
Theorem verdict_go_iff (markets : list string) (proposed_rtp : float)
        (proposed_features : option (list string)) (res : intersect_results) :
  _run markets proposed_rtp proposed_features = Ok res ->
  (verdict (the_intersection res) = "GO" <->
   forall m reg, In m markets -> dict_get String.eqb m REGULATIONS = Some reg ->
     (min_rtp reg <=? proposed_rtp)%float = true /\
     forall f, In f (features_of proposed_features) ->
               str_in f (banned_features reg) = false).
Proof.
  intros Hrun.
  rewrite (go_known markets proposed_rtp proposed_features res Hrun). split.
  - intros [H1 H2] m reg Hm Hreg.
    assert (Hk : In m (filter known_market markets))
      by (apply known_market_In; eauto).
    split.
    + rewrite <- (market_floor_reg m reg Hreg). now apply H1.
    + intros f Hf. specialize (H2 f m Hf Hk). unfold bans in H2.
      now rewrite Hreg in H2.
  - intros H. split.
    + intros m Hm. apply known_market_In in Hm. destruct Hm as [Hm [reg Hreg]].
      rewrite (market_floor_reg m reg Hreg). now apply (H m reg).
    + intros f m Hf Hm. apply known_market_In in Hm. destruct Hm as [Hm [reg Hreg]].
      unfold bans. rewrite Hreg. now apply (H m reg).
Qed.

Lemma verdict_go_iff_witness :
  exists res,
    _run ["UK"; "Malta"] 96 (Some ["free_spins"; "bonus_buy"]) = Ok res /\
    verdict (the_intersection res) <> "GO".
Proof.
  destruct (_run ["UK"; "Malta"] 96 (Some ["free_spins"; "bonus_buy"]))
    as [res| |] eqn:E; [|vm_compute in E; discriminate..].
  exists res. split; [reflexivity|]. intros Hgo.
  pose proof (proj1 (verdict_go_iff ["UK"; "Malta"] 96
                       (Some ["free_spins"; "bonus_buy"]) res E) Hgo) as Hall.
  destruct (Hall "UK" (mkRegulation 70.0 99.9 ["bonus_buy"])
              ltac:(simpl; tauto) eq_refl) as [_ H].
  specialize (H "bonus_buy" ltac:(simpl; tauto)). vm_compute in H. discriminate.
Defined.

(** X18. A proposed feature is reported as a conflict exactly when a
    requested known market bans it, and the markets reported for it are
    the requested known markets that ban it, in request order. *)
Theorem conflicts_name_banning_markets (markets : list string) (proposed_rtp : float)
        (proposed_features : option (list string)) (res : intersect_results)
        (f : string) (ms : list string) :
  _run markets proposed_rtp proposed_features = Ok res ->
  (dict_get String.eqb f (proposed_feature_conflicts (the_intersection res)) = Some ms
   <->
   In f (features_of proposed_features) /\
   ms <> [] /\
   ms = filter (bans f) (filter known_market markets)).
Proof.
  intros Hrun.
  destruct (run_answer markets proposed_rtp proposed_features)
    as (res' & Hrun' & _ & _ & Hhits & _).
  rewrite Hrun in Hrun'. injection Hrun' as <-.
  rewrite Hhits. split.
  - destruct (str_in f (features_of proposed_features)) eqn:Ef; [|discriminate].
    apply str_in_In in Ef.
    destruct (filter (bans f) (filter known_market markets)) as [|x xs];
      [discriminate|].
    intros H; injection H as <-. split; [exact Ef|]. split; [discriminate|reflexivity].
  - intros (Hf & Hne & ->). apply str_in_In in Hf. rewrite Hf.
    now destruct (filter (bans f) (filter known_market markets)).
Qed.

Lemma conflicts_name_banning_markets_witness :
  exists res,
    _run ["Sweden"; "Malta"; "UK"] 96 (Some ["autoplay"; "bonus_buy"]) = Ok res /\
    dict_get String.eqb "bonus_buy"
             (proposed_feature_conflicts (the_intersection res))
    = Some ["Sweden"; "UK"].
Proof.
  destruct (_run ["Sweden"; "Malta"; "UK"] 96 (Some ["autoplay"; "bonus_buy"]))
    as [res| |] eqn:E; [|vm_compute in E; discriminate..].
  exists res. split; [reflexivity|].
  apply (proj2 (conflicts_name_banning_markets ["Sweden"; "Malta"; "UK"] 96
                  (Some ["autoplay"; "bonus_buy"]) res "bonus_buy"
                  ["Sweden"; "UK"] E)).
  split; [simpl; tauto|]. split; [discriminate|reflexivity].
Defined.

Lemma regulations_ceiling :
  Forall (fun kv => max_rtp (snd kv) = 99.9%float) REGULATIONS.
Proof. repeat constructor. Qed.

(** X19. The verdict does not look at the RTP ceiling that the per-market
    analysis checks: under a GO verdict every analysed market has no
    banned feature hit, and its [rtp_compliant] flag is true exactly when
    the proposed RTP is at most 99.9, so a proposed RTP above 99.9 gets GO
    while every market is flagged as not compliant. *)
Theorem go_verdict_ignores_ceiling (markets : list string) (proposed_rtp : float)
        (proposed_features : option (list string)) (res : intersect_results)
        (m : string) (flag : bool) (hit : list string) :
  _run markets proposed_rtp proposed_features = Ok res ->
  verdict (the_intersection res) = "GO" ->
  dict_get String.eqb m (per_market res) = Some (Analysed flag hit) ->
  hit = [] /\ flag = (proposed_rtp <=? 99.9)%float.
Proof.
  intros Hrun Hgo Hm.
  pose proof (proj1 (go_known markets proposed_rtp proposed_features res Hrun) Hgo)
    as [Hfloors Hbans].
  destruct (run_answer markets proposed_rtp proposed_features)
    as (res' & Hrun' & Hper & _).
  rewrite Hrun in Hrun'. injection Hrun' as <-.
  rewrite Hper, details_get in Hm.
  destruct (str_in m markets) eqn:HIn; [|discriminate].
  apply str_in_In in HIn. unfold detail_of in Hm.
  destruct (dict_get String.eqb m REGULATIONS) as [reg|] eqn:Hreg; [|discriminate].
  assert (Hk : In m (filter known_market markets))
    by (apply known_market_In; eauto).
  pose proof (Hfloors m Hk) as Hmin.
  rewrite (market_floor_reg m reg Hreg) in Hmin.
  injection Hm as <- <-. split.
  - apply filter_nil. intros f Hf. specialize (Hbans f m Hf Hk).
    unfold bans in Hbans. now rewrite Hreg in Hbans.
  - rewrite Hmin. cbn [andb]. apply dict_get_In in Hreg.
    pose proof regulations_ceiling as Hc. rewrite Forall_forall in Hc.
    specialize (Hc _ Hreg). cbn [snd] in Hc. now rewrite Hc.
Qed.

Lemma go_verdict_ignores_ceiling_witness :
  exists res,
    _run ["UK"; "Malta"] 100 None = Ok res /\
    verdict (the_intersection res) = "GO" /\
    dict_get String.eqb "UK" (per_market res) = Some (Analysed false []).
Proof.
  destruct (_run ["UK"; "Malta"] 100 None) as [res| |] eqn:E;
    [|vm_compute in E; discriminate..].
  assert (Hgo : verdict (the_intersection res) = "GO").
  { vm_compute in E. injection E as <-. reflexivity. }
  assert (HUK : exists flag hit,
             dict_get String.eqb "UK" (per_market res) = Some (Analysed flag hit)).
  { vm_compute in E. injection E as <-. eexists. eexists. reflexivity. }
  destruct HUK as (flag & hit & HUK).
  destruct (go_verdict_ignores_ceiling ["UK"; "Malta"] 100 None res "UK" flag hit
              E Hgo HUK) as [-> ->].
  exists res. split; [reflexivity|]. split; [exact Hgo|exact HUK].
Defined.

(** X20. A request in which no market is known to [REGULATIONS] (a list
    of US states, or an empty list) is answered GO without any check: no
    RTP floor, no blocker, whatever the proposed RTP and features, and
    every requested market is listed as unknown. *)
Theorem unknown_markets_get_go (markets : list string) (proposed_rtp : float)
        (proposed_features : option (list string)) :
  (forall m, In m markets -> dict_get String.eqb m REGULATIONS = None) ->
  exists res,
    _run markets proposed_rtp proposed_features = Ok res /\
    verdict (the_intersection res) = "GO" /\
    blockers (the_intersection res) = [] /\
    rtp_floor (the_intersection res) = None /\
    rtp_compliant (the_intersection res) = None /\
    unknown_markets res = markets.
Proof.
  intros Hunknown.
  destruct (run_answer markets proposed_rtp proposed_features)
    as (res & Hrun & _ & Hunk & Hhits & Hfloor & Hverdict).
  assert (Hnone : forall m, In m markets -> known_market m = false).
  { intros m Hm. unfold known_market. now rewrite (Hunknown m Hm). }
  assert (Hk : filter known_market markets = [])
    by (apply filter_nil; exact Hnone).
  assert (Hu : filter (fun m => negb (known_market m)) markets = markets).
  { clear - Hnone. induction markets as [|m markets IH]; [reflexivity|].
    cbn [filter]. rewrite (Hnone m) by now left. cbn [negb].
    rewrite IH; [reflexivity|]. intros; apply Hnone; now right. }
  rewrite Hk in Hfloor, Hhits. destruct Hfloor as (Hf & Hc & _ & Hb).
  assert (Hempty : proposed_feature_conflicts (the_intersection res) = []).
  { apply dict_empty. intros f. rewrite Hhits. cbn [filter].
    now destruct (str_in f (features_of proposed_features)). }
  rewrite Hempty in Hb. cbn [map] in Hb.
  exists res. split; [exact Hrun|]. split; [now rewrite Hverdict, Hb|].
  split; [exact Hb|]. split; [exact Hf|]. split; [exact Hc|]. now rewrite Hunk.
Qed.

Lemma unknown_markets_get_go_witness :
  exists res,
    _run ["Texas"; "Nevada"] 12 (Some ["bonus_buy"]) = Ok res /\
    verdict (the_intersection res) = "GO".
Proof.
  destruct (unknown_markets_get_go ["Texas"; "Nevada"] 12 (Some ["bonus_buy"]))
    as (res & Hrun & Hgo & _).
  - intros m [<-|[<-|[]]]; reflexivity.
  - exists res. split; [exact Hrun|exact Hgo].
Defined.

(** X21. The two static regulation tables disagree on the UK only: for a
    proposed RTP of at most 99.9 the simulation's compliance flag and the
    intersection tool's per-market flag coincide for Malta, Ontario, New
    Jersey and Curacao, while an RTP from 70 to below 80 is compliant for
    the UK in the tool (minimum 70) and not in the simulation (minimum
    80). *)
Theorem static_tables_disagree_on_UK (rtp : float) (features : list string) :
  (rtp <=? 99.9)%float = true ->
  (forall j, In j ["Malta"; "Ontario"; "New Jersey"; "Curacao"] ->
     exists flag hit,
       detail_of rtp features j = Analysed flag hit /\
       dict_get String.eqb j (jurisdiction_compliance JURISDICTION_REQUIREMENTS rtp)
       = Some flag) /\
  ((70 <=? rtp)%float = true -> (rtp <? 80)%float = true ->
   dict_get String.eqb "UK" (jurisdiction_compliance JURISDICTION_REQUIREMENTS rtp)
   = Some false /\
   exists hit, detail_of rtp features "UK" = Analysed true hit).
Proof.
  intros Hmax. split.
  - intros j Hj. cbn [In] in Hj.
    destruct Hj as [<-|[<-|[<-|[<-|[]]]]]; cbn; rewrite Hmax, andb_true_r;
      eexists; eexists; (split; reflexivity).
  - intros Hlo Hhi. cbn. rewrite Hlo, Hmax. cbn [andb]. split; [|eauto].
    rewrite leb_negb_ltb by (intros H; vm_compute in H; discriminate).
    now rewrite Hhi.
Qed.

Lemma static_tables_disagree_on_UK_witness :
  dict_get String.eqb "UK" (jurisdiction_compliance JURISDICTION_REQUIREMENTS 75)
  = Some false /\
  exists hit, detail_of 75 [] "UK" = Analysed true hit.
Proof.
  refine (proj2 (static_tables_disagree_on_UK 75 [] _) _ _); reflexivity.
Defined.

(** ** The optimiser's batch simulation *)

Lemma for_each_ok {A St : Type} (xs : list A) (body : St -> A -> result St) :
  (forall s x, In x xs -> exists s', body s x = Ok s') ->
  forall s, exists s', for_each xs s body = Ok s'.
Proof.
  induction xs as [|x xs IH]; intros Hb s; simpl; [eauto|].
  destruct (Hb s x ltac:(now left)) as [s1 ->]. simpl.
  apply IH. intros; apply Hb; now right.
Qed.

(** On usable reels the optimiser draws its window as the simulation
    draws its grid. *)
Lemma spin_window_spin_reels (o : opt_config) (reels : list (list symbol)) (r : rng) :
  (forall i, (i < COLS o)%nat -> nth_error reels i <> None) ->
  spin_window o reels r = spin_reels (window_config o reels) r.
Proof.
  intros Hall. unfold spin_window, spin_reels.
  cbn [window_config NUM_REELS NUM_ROWS REEL_STRIPS].
  apply for_each_ext. intros [g r0] i Hi. apply in_seq in Hi. unfold index at 1.
  specialize (Hall i ltac:(lia)).
  destruct (nth_error reels i); [reflexivity|contradiction].
Qed.

Lemma reels_usable_ready (o : opt_config) (reels : list (list symbol)) :
  reels_usable o reels ->
  forall i, (i < NUM_REELS (window_config o reels))%nat ->
            reel_ready (window_config o reels) i.
Proof. intros H i Hi. exact (H i Hi). Qed.

Lemma spin_window_usable (o : opt_config) (reels : list (list symbol)) (r : rng) :
  reels_usable o reels ->
  spin_window o reels r
  = Ok (drawn_grid (window_config o reels) r, mkRng (tape r) (cursor r + COLS o)).
Proof.
  intros H. rewrite spin_window_spin_reels.
  - now rewrite spin_reels_ready by now apply reels_usable_ready.
  - intros i Hi. destruct (H i Hi) as (reel & -> & _). discriminate.
Qed.

Lemma leading_count_ok (o : opt_config) (window : grid) (sym : symbol) (row : nat) :
  well_formed_grid (window_config o []) window ->
  (row < ROWS o)%nat ->
  forall cols count, Forall (fun c => (c < COLS o)%nat) cols ->
  exists k, leading_count window sym row cols count = Ok k.
Proof.
  intros [Hlen Hall] Hrow. cbn in Hlen, Hall.
  induction cols as [|c cols IH]; intros count Hcols; simpl; [eauto|].
  inversion Hcols as [|? ? Hc Hcols']; subst.
  destruct (nth_error window c) as [column|] eqn:Ec;
    [|apply nth_error_None in Ec; lia].
  rewrite (index_nth _ _ _ Ec). cbn [bind].
  assert (Hcol : List.length column = ROWS o).
  { rewrite Forall_forall in Hall. apply Hall. eapply nth_error_In; eauto. }
  destruct (nth_error column row) as [cell|] eqn:Er;
    [|apply nth_error_None in Er; lia].
  rewrite (index_nth _ _ _ Er). cbn [bind].
  destruct (String.eqb cell sym); [now apply IH|eauto].
Qed.

Lemma award_ok (o : opt_config) (window : grid) (total_won : float) :
  well_formed_grid (window_config o []) window ->
  exists w, award o window total_won = Ok w.
Proof.
  intros Hwf. unfold award. apply for_each_ok. intros total [sym pays] _.
  apply for_each_ok. intros total' row Hrow. apply in_seq in Hrow.
  destruct (leading_count_ok o window sym row Hwf ltac:(lia) (seq 0 (COLS o)) 0)
    as [k ->].
  - apply Forall_forall. intros c Hc. apply in_seq in Hc. lia.
  - cbn [bind]. destruct (dict_get String.eqb (str k) pays); [|eauto].
    destruct (3 <=? k); eauto.
Qed.

Lemma float_of_int_small (n : Z) :
  0 <= n <= 2 ^ 53 -> exists y, float_of_int n = Ok y.
Proof.
  intros Hn. destruct (Z.eq_dec n (2 ^ 53)) as [->|Hne].
  - eexists. vm_compute. reflexivity.
  - destruct n as [|p|p]; [eexists; vm_compute; reflexivity| |lia].
    rewrite float_of_int_pos by lia. eauto.
Qed.

Lemma simulate_loop_ok (o : opt_config) (reels : list (list symbol)) (r : rng) (n : Z) :
  reels_usable o reels ->
  0 <= n ->
  exists total_won,
    Z.iter n (fun acc =>
                '(total_won, r) <- acc ;;
                '(window, r') <- spin_window o reels r ;;
                total_won' <- award o window total_won ;;
                Ok (total_won', r'))
           (Ok (0%float, r))
    = Ok (total_won, mkRng (tape r) (cursor r + COLS o * Z.to_nat n)).
Proof.
  intros Hready Hn. pattern n. apply natlike_ind; [| |exact Hn]; clear n Hn.
  - exists 0%float. simpl. rewrite Nat.mul_0_r, Nat.add_0_r. now destruct r.
  - intros k Hk [total IH]. unfold Z.succ. rewrite Z_iter_step by exact Hk.
    rewrite IH. cbn [bind]. rewrite spin_window_usable by exact Hready. cbn [bind].
    destruct (award_ok o (drawn_grid (window_config o reels)
                            (mkRng (tape r) (cursor r + COLS o * Z.to_nat k))) total)
      as [w Hw].
    { pose proof (spin_reels_ready (window_config o reels)
                    (mkRng (tape r) (cursor r + COLS o * Z.to_nat k))
                    (reels_usable_ready o reels Hready)) as Hs.
      apply spin_reels_well_formed in Hs. exact Hs. }
    rewrite Hw. cbn [bind tape cursor]. exists w.
    rewrite Z2Nat.inj_add by lia. change (Z.to_nat 1) with 1%nat.
    apply f_equal. apply f_equal. apply f_equal. lia.
Qed.

(** X22. On reels of which the first [COLS] exist and are not empty, the
    batch simulation of 1 to 2^53 spins never raises: it returns an RTP
    and has drawn exactly one random number per column and spin. *)
Theorem simulate_returns (o : opt_config) (reels : list (list symbol)) (n_spins : Z)
        (r : rng) :
  reels_usable o reels ->
  1 <= n_spins <= 2 ^ 53 ->
  exists rtp,
    simulate o reels n_spins r
    = Ok (rtp, mkRng (tape r) (cursor r + COLS o * Z.to_nat n_spins)).
Proof.
  intros Hready Hn. unfold simulate.
  destruct (simulate_loop_ok o reels r n_spins Hready ltac:(lia)) as [total ->].
  cbn [bind]. destruct (Z.ltb_spec 0 n_spins) as [_|]; [|lia].
  unfold truediv_float_int.
  destruct (float_of_int_small n_spins ltac:(lia)) as [y Hy]. rewrite Hy. cbn [bind].
  rewrite truediv_nonzero by (eapply float_of_int_nonzero; eauto).
  cbn [bind]. eauto.
Qed.

Lemma simulate_returns_witness :
  exists rtp,
    simulate (optimizer_of default_config) (REEL_STRIPS default_config) 3 zero_tape
    = Ok (rtp, mkRng (fun _ => O) 15).
Proof.
  refine (simulate_returns (optimizer_of default_config) (REEL_STRIPS default_config)
            3 zero_tape _ _); [|lia].
  exact default_reels_ready.
Defined.

(** X23. The optimiser and the simulation draw the same symbols: on the
    grid, strips and generator of a simulation configuration whose reels
    all have a strip, [spin_window] returns exactly what [spin_reels]
    returns. *)
Theorem spin_window_agrees_with_spin_reels (cfg : config) (r : rng) :
  (forall i, (i < NUM_REELS cfg)%nat -> nth_error (REEL_STRIPS cfg) i <> None) ->
  spin_window (optimizer_of cfg) (REEL_STRIPS cfg) r = spin_reels cfg r.
Proof.
  intros Hall. unfold spin_window, spin_reels.
  cbn [optimizer_of COLS ROWS].
  apply for_each_ext. intros [g r0] i Hi. apply in_seq in Hi. unfold index at 1.
  specialize (Hall i ltac:(lia)).
  destruct (nth_error (REEL_STRIPS cfg) i); [reflexivity|contradiction].
Qed.

Lemma spin_window_agrees_with_spin_reels_witness :
  spin_window (optimizer_of default_config) (REEL_STRIPS default_config) retrigger_tape
  = spin_reels default_config retrigger_tape.
Proof.
  refine (spin_window_agrees_with_spin_reels default_config retrigger_tape _).
  intros i Hi. destruct (default_reels_ready i Hi) as (strip & -> & _). discriminate.
Defined.

(** ** Adjusting the reels *)

Lemma Z_iter_result_inv {A : Type} (P : A -> Prop) (f : A -> result A) (x : A) :
  P x -> (forall a b, P a -> f a = Ok b -> P b) ->
  forall n y, Z.iter n (fun acc => a <- acc ;; f a) (Ok x) = Ok y -> P y.
Proof.
  intros Hx Hstep n. destruct (Z.le_gt_cases 0 n) as [Hn|Hn].
  - pattern n. apply natlike_ind; [| |exact Hn]; clear n Hn.
    + simpl. intros y H; injection H as <-. exact Hx.
    + intros k Hk IH y. unfold Z.succ. rewrite Z_iter_step by exact Hk.
      destruct (Z.iter k _ (Ok x)) as [a| |]; simpl; try discriminate.
      intros H. exact (Hstep a y (IH a eq_refl) H).
  - destruct n; try lia. simpl. intros y H; injection H as <-. exact Hx.
Qed.

Lemma remove_first_keeps (sym : symbol) (reel : list symbol) :
  (1 < count_occ string_dec reel sym)%nat ->
  keeps_symbols reel (remove_first sym reel) /\
  S (List.length (remove_first sym reel)) = List.length reel.
Proof.
  induction reel as [|x reel IH]; simpl; [lia|].
  destruct (string_dec x sym) as [->|Hne].
  - rewrite String.eqb_refl. intros Hc. split; [|reflexivity].
    intros s [<-|Hs]; [|exact Hs]. apply (count_occ_In string_dec). lia.
  - destruct (String.eqb_spec x sym) as [|_]; [contradiction|].
    intros Hc. destruct (IH Hc) as [Hk Hl]. split; [|simpl; lia].
    intros s [<-|Hs]; [now left|right; now apply Hk].
Qed.

Lemma choice_rng (r r' : rng) (xs : list symbol) (s : symbol) :
  choice r xs = Ok (s, r') -> In s xs /\ tape r' = tape r.
Proof.
  unfold choice, randint. destruct (List.length xs =? 0)%nat; [discriminate|].
  cbn [bind]. unfold index.
  destruct (nth_error xs _) as [x|] eqn:E; [|discriminate].
  cbn [bind]. intros H; injection H as <- <-. split; [|reflexivity].
  eapply nth_error_In; eauto.
Qed.

(** One swap keeps every symbol of the reel; with replacements at hand it
    keeps the length, without them it takes at most one stop away. *)
Lemma swap_out_inv (candidates replacements reel reel' : list symbol) (r r' : rng) :
  swap_out candidates replacements reel r = Ok (reel', r') ->
  keeps_symbols reel reel' /\
  (replacements <> [] -> List.length reel' = List.length reel) /\
  (List.length reel' <= List.length reel)%nat.
Proof.
  induction candidates as [|sym candidates IH]; simpl.
  - intros H; injection H as <- <-. repeat split; auto. intros s; auto.
  - destruct (Z.ltb_spec 1 (Z.of_nat (count_occ string_dec reel sym))) as [Hc|_];
      [|exact IH].
    destruct (remove_first_keeps sym reel ltac:(lia)) as [Hk Hl].
    destruct replacements as [|x xs].
    + intros H; injection H as <- <-. split; [exact Hk|].
      split; [intros Hne; contradiction|lia].
    + destruct (choice r (x :: xs)) as [[s r1]| |]; cbn [bind]; try discriminate.
      intros H; injection H as <- <-. split.
      * intros s0 Hs0. apply in_or_app. left. now apply Hk.
      * rewrite length_app. simpl. split; [intros _; lia|lia].
Qed.

Lemma adjust_round_inv (too_high : bool) (high low reel reel' : list symbol)
      (r r' : rng) :
  adjust_round too_high high low reel r = Ok (reel', r') ->
  keeps_symbols reel reel' /\
  (high <> [] -> low <> [] -> List.length reel' = List.length reel).
Proof.
  unfold adjust_round. destruct too_high.
  - intros H. apply swap_out_inv in H. destruct H as (Hk & Hl & _). split; auto.
  - destruct low as [|l low].
    + destruct (choice r high) as [[s r1]| |]; cbn [bind]; try discriminate.
      intros H; injection H as <- <-. split; [|intros _ Hne; contradiction].
      intros s0 Hs0. apply in_or_app. now left.
    + intros H. apply swap_out_inv in H. destruct H as (Hk & Hl & _). split; auto.
Qed.

Lemma reel_adjusted_refl (o : opt_config) (reel : list symbol) :
  reel_adjusted o reel reel.
Proof. split; [intros s; auto|auto]. Qed.

Lemma reel_adjusted_trans (o : opt_config) (a b c : list symbol) :
  reel_adjusted o a b -> reel_adjusted o b c -> reel_adjusted o a c.
Proof.
  intros [H1 L1] [H2 L2]. split; [intros s Hs; auto|].
  intros H. now rewrite L2, L1.
Qed.

Lemma paytable_split (o : opt_config) :
  (3 < List.length (paytable o))%nat ->
  firstn 3 (dict_keys (paytable o)) <> [] /\
  (if (3 <? List.length (paytable o))%nat
   then skipn 3 (dict_keys (paytable o)) else []) <> [].
Proof.
  intros H. unfold dict_keys.
  destruct (paytable o) as [|a [|b [|c [|d rest]]]]; simpl in H; try lia.
  split; discriminate.
Qed.

Lemma adjust_loop_inv (o : opt_config) (too_high : bool) (strength : Z)
      (reels done done' : list (list symbol)) (r r' : rng) :
  for_each reels (done, r) (fun '(done, r) reel =>
    '(reel', r') <-
       Z.iter strength
         (fun acc =>
            '(reel, r) <- acc ;;
            adjust_round too_high (firstn 3 (dict_keys (paytable o)))
              (if (3 <? List.length (paytable o))%nat
               then skipn 3 (dict_keys (paytable o)) else [])
              reel r)
         (Ok (reel, r)) ;;
    Ok (done ++ [reel'], r')) = Ok (done', r') ->
  exists changed, done' = done ++ changed /\ Forall2 (reel_adjusted o) reels changed.
Proof.
  revert done r; induction reels as [|reel reels IH]; intros done r; simpl.
  - intros H; injection H as <- <-. exists []. rewrite app_nil_r. split; constructor.
  - destruct (Z.iter strength _ (Ok (reel, r))) as [[reel1 r1]| |] eqn:E;
      cbn [bind]; try discriminate.
    intros H. apply IH in H. destruct H as (changed & -> & Hall).
    exists (reel1 :: changed). rewrite <- app_assoc. split; [reflexivity|].
    constructor; [|exact Hall].
    refine (Z_iter_result_inv (fun x => reel_adjusted o reel (fst x))
              (fun x => let '(reel, r) := x in
                        adjust_round too_high (firstn 3 (dict_keys (paytable o)))
                          (if (3 <? List.length (paytable o))%nat
                           then skipn 3 (dict_keys (paytable o)) else [])
                          reel r)
              (reel, r) _ _ strength (reel1, r1) E).
    + apply reel_adjusted_refl.
    + intros [a ra] [b rb] Ha Hstep. cbn [fst] in *.
      apply adjust_round_inv in Hstep. destruct Hstep as [Hk Hl].
      apply (reel_adjusted_trans o reel a b Ha). split; [exact Hk|].
      intros H3. destruct (paytable_split o H3) as [Hh Hlo]. now apply Hl.
Qed.

Lemma apply_strength_inv (o : opt_config) (strength : Z) (deviation : float)
      (reels reels' : list (list symbol)) (r r' : rng) :
  apply_strength o strength deviation reels r = Ok (reels', r') ->
  Forall2 (reel_adjusted o) reels reels' /\
  skipn (COLS o) reels' = skipn (COLS o) reels.
Proof.
  unfold apply_strength. cbv zeta.
  destruct (for_each (firstn (COLS o) reels) ([], r) _) as [[changed r1]| |] eqn:E;
    cbn [bind]; try discriminate.
  intros H; injection H as <- <-.
  apply adjust_loop_inv in E. destruct E as (changed' & -> & Hall). cbn [app] in *.
  split.
  - rewrite <- (firstn_skipn (COLS o) reels) at 1.
    apply Forall2_app; [exact Hall|].
    clear. induction (skipn (COLS o) reels); constructor; auto.
    apply reel_adjusted_refl.
  - apply Forall2_length in Hall. rewrite length_firstn in Hall.
    destruct (Nat.le_gt_cases (COLS o) (List.length reels)) as [Hle|Hgt].
    + rewrite skipn_app, skipn_all2 by lia.
      replace (COLS o - List.length changed')%nat with 0%nat by lia. reflexivity.
    + rewrite (skipn_all2 reels) by lia. rewrite app_nil_r.
      apply skipn_all2. lia.
Qed.

(** X24. Adjusting never removes a symbol from a reel: every symbol on a
    reel before [adjust_reels] is still on that reel afterwards (a copy is
    removed only while another one remains), the number of reels is
    unchanged, and the reels from index [COLS] on are returned as they
    were. *)
Theorem adjust_reels_keeps_symbols (o : opt_config) (reels reels' : list (list symbol))
        (current_rtp target : float) (iteration : Z) (r r' : rng) :
  adjust_reels o reels current_rtp target iteration r = Ok (reels', r') ->
  Forall2 keeps_symbols reels reels' /\
  List.length reels' = List.length reels /\
  skipn (COLS o) reels' = skipn (COLS o) reels.
Proof.
  unfold adjust_reels.
  destruct (adjust_strength current_rtp target iteration) as [strength| |];
    cbn [bind]; try discriminate.
  intros H. apply apply_strength_inv in H. destruct H as [Hall Hskip].
  split; [|split; [symmetry; eapply Forall2_length; eauto|exact Hskip]].
  clear Hskip. induction Hall as [|a b ra rb [Hk _] _ IH]; constructor; auto.
Qed.

(** X25. With more than three symbols in the paytable every adjustment is
    a swap of one stop for another, so [adjust_reels] returns reels of
    the lengths it was given. *)
Theorem adjust_reels_keeps_lengths (o : opt_config) (reels reels' : list (list symbol))
        (current_rtp target : float) (iteration : Z) (r r' : rng) :
  (3 < List.length (paytable o))%nat ->
  adjust_reels o reels current_rtp target iteration r = Ok (reels', r') ->
  map (@List.length symbol) reels' = map (@List.length symbol) reels.
Proof.
  intros H3. unfold adjust_reels.
  destruct (adjust_strength current_rtp target iteration) as [strength| |];
    cbn [bind]; try discriminate.
  intros H. apply apply_strength_inv in H. destruct H as [Hall _].
  induction Hall as [|a b ra rb [_ Hl] _ IH]; [reflexivity|].
  cbn [map]. now rewrite IH, (Hl H3).
Qed.

Lemma adjust_reels_keeps_symbols_witness :
  exists reels' r',
    adjust_reels (optimizer_of default_config) (REEL_STRIPS default_config)
                 120 96 0 zero_tape = Ok (reels', r') /\
    List.length reels' = 5%nat.
Proof.
  destruct (adjust_reels (optimizer_of default_config) (REEL_STRIPS default_config)
                         120 96 0 zero_tape) as [[reels' r']| |] eqn:E;
    [|vm_compute in E; discriminate..].
  exists reels', r'. split; [reflexivity|].
  exact (proj1 (proj2 (adjust_reels_keeps_symbols _ _ _ _ _ _ _ _ E))).
Defined.

Lemma adjust_reels_keeps_lengths_witness :
  exists reels' r',
    adjust_reels (optimizer_of default_config) (REEL_STRIPS default_config)
                 90 96 2 zero_tape = Ok (reels', r') /\
    map (@List.length symbol) reels' = [32; 32; 32; 32; 32]%nat.
Proof.
  destruct (adjust_reels (optimizer_of default_config) (REEL_STRIPS default_config)
                         90 96 2 zero_tape) as [[reels' r']| |] eqn:E;
    [|vm_compute in E; discriminate..].
  exists reels', r'. split; [reflexivity|].
  refine (adjust_reels_keeps_lengths _ _ _ _ _ _ _ _ _ E). simpl. lia.
Defined.

(** ** The optimisation loop *)












